(** * CrossSimilarityMatrix: a shallow embedding of
      src/algorithms/highlevel/crosssimilaritymatrix.cpp

    The development follows the C++ file: the free helper functions
    ([globalAverageChroma], [optimalTranspositionIndex], [toTimeEmbedding],
    [chromaBinarySimMatrix]) come first, then the batch algorithm
    ([Standard.compute]) and the streaming algorithm ([Streaming.process]).

    Modelling conventions.
    - [std::vector<T>] is [list T]; a chroma feature matrix
      ([std::vector<std::vector<Real> >]) is a list of frames.
    - [int] is the 32-bit signed integer type: the value of an [int]
      expression is computed in [Z] and checked against the range of the type
      by [to_int]; what does not fit is undefined behaviour (signed overflow)
      or left open by the language (conversion of an out-of-range [size_t]),
      and is [Undef].  A negative [int] used as a container size is written
      out in [new_vector].
    - [Real] (a C++ [float]) is an abstract type with the arithmetic and the
      comparisons the code uses ([RealArith]).  Exact rationals are the
      instance used to run the model on small inputs, IEEE binary32
      ([SpecFloat], precision 24) the instance that shows what rounding and
      overflow do.
    - Every function returns an [outcome]: a value, a thrown exception, or
      [Undef] for undefined behaviour of the C++ program (an out-of-range
      element access, an [int] that overflows, a loop that does not
      terminate). *)

From Stdlib Require Import List ZArith Lia Bool QArith Qabs Qround Reals Lra Permutation.
From Stdlib Require Import SpecFloat.
Import ListNotations.
Open Scope Z_scope.

Set Implicit Arguments.

(** ** Outcomes of a C++ call *)

Inductive port : Type := QueryFeature | ReferenceFeature.

(** The exceptions the code can raise.  [EmptyInput], [EmptyResult] and
    [InvalidParameter] are the [EssentiaException]s thrown by [compute];
    [AllocFailure] is the [std::length_error] / [std::bad_alloc] of a
    container constructor; [EmptyArgmax] is raised by [argmax];
    [InvalidInput] is the error the design documents name for a sequence too
    short to embed, which no statement of the file throws. *)
Inductive exn : Type :=
| EmptyInput (p : port)
| EmptyResult
| InvalidParameter
| InvalidInput
| AllocFailure
| EmptyArgmax.

Inductive outcome (A : Type) : Type :=
| Ok (a : A)
| Exc (e : exn)
| Undef.

Arguments Exc {A} e.
Arguments Undef {A}.

Definition bind {A B : Type} (c : outcome A) (k : A -> outcome B) : outcome B :=
  match c with
  | Ok a => k a
  | Exc e => Exc e
  | Undef => Undef
  end.

Notation "x <- c ;; k" := (bind c (fun x => k))
  (at level 61, c at next level, right associativity).
Notation "' p <- c ;; k" := (bind c (fun p => k))
  (at level 61, p pattern, c at next level, right associativity).

(** [mapM f l] runs [f] on the elements of [l] from left to right and stops at
    the first one that does not return. *)
Fixpoint mapM {A B : Type} (f : A -> outcome B) (l : list A) : outcome (list B) :=
  match l with
  | [] => Ok []
  | a :: l' => b <- f a ;; bs <- mapM f l' ;; Ok (b :: bs)
  end.

(** ** Machine integers *)

Definition int_min : Z := -2147483648.
Definition int_max : Z := 2147483647.

(** The value of an [int] expression whose mathematical value is [z].
    Overflow of a signed operation is undefined behaviour.  A [size_t] value
    stored in an [int] (a difference or a product computed modulo 2^64) is
    the mathematical value, negative or not, whenever that value fits the
    type; the conversion of a value that does not fit is not fixed by the
    language. *)
Definition to_int (z : Z) : outcome Z :=
  if (int_min <=? z) && (z <=? int_max) then Ok z else Undef.

(** ** Containers *)

(** [v[i]] on a [std::vector]: an index outside the vector is undefined
    behaviour. *)
Definition vec_get {A : Type} (v : list A) (i : Z) : outcome A :=
  if i <? 0 then Undef
  else match nth_error v (Z.to_nat i) with
       | Some x => Ok x
       | None => Undef
       end.

Fixpoint list_update {A : Type} (v : list A) (n : nat) (x : A) : list A :=
  match v, n with
  | [], _ => []
  | _ :: v', O => x :: v'
  | y :: v', S n' => y :: list_update v' n' x
  end.

(** [v[i] = x]. *)
Definition vec_set {A : Type} (v : list A) (i : Z) (x : A) : outcome (list A) :=
  if (0 <=? i) && (i <? Z.of_nat (length v))
  then Ok (list_update v (Z.to_nat i) x)
  else Undef.

(** [std::vector<T>(n, x)] with an [int] count: the count is converted to
    [size_t], so a negative count asks for more than [max_size()] elements and
    the constructor throws. *)
Definition new_vector {A : Type} (n : Z) (x : A) : outcome (list A) :=
  if n <? 0 then Exc AllocFailure else Ok (repeat x (Z.to_nat n)).

(** [std::rotate(v.begin(), v.end() - k, v.end())]: the last [k] elements come
    first.  [v.end() - k] must lie inside the vector. *)
Definition rotate_end {A : Type} (v : list A) (k : Z) : outcome (list A) :=
  if (0 <=? k) && (k <=? Z.of_nat (length v))
  then let n := (length v - Z.to_nat k)%nat in Ok (skipn n v ++ firstn n v)
  else Undef.

(** The shifts [0, 1, ..., nshifts] of [for (int k=0; k<=nshifts; k++)]. *)
Definition shifts (nshifts : Z) : list Z :=
  map Z.of_nat (seq 0 (Z.to_nat (nshifts + 1))).

(** ** Real arithmetic *)

Class RealArith (Real : Type) : Type := {
  rofZ : Z -> Real;
  radd : Real -> Real -> Real;
  rsub : Real -> Real -> Real;
  rmul : Real -> Real -> Real;
  rdiv : Real -> Real -> Real;
  rltb : Real -> Real -> bool;
  rleb : Real -> Real -> bool;
  reqb : Real -> Real -> bool
}.

(** Modelled from the spec: the numeric primitives of essentiamath.h which
    [compute] and [process] call and whose code is not among the sources.
    [distance a b] is the Euclidean distance between two embedded frames (an
    entry of [pairwiseDistance]); [percentile row q] is the [q]-th
    percentile, [q] in [0,100], of the values of [row]. *)
Class MathLib (Real : Type) : Type := {
  distance : list Real -> list Real -> Real;
  percentile : list Real -> Real -> Real
}.

(** A frame is a vector of reals, a feature matrix a vector of frames. *)
Abbreviation frame Real := (list Real) (only parsing).
Abbreviation matrix Real := (list (list Real)) (only parsing).

Section Helpers.

Context {Real : Type} {RA : RealArith Real}.

Definition r0 : Real := rofZ 0.
Definition r1 : Real := rofZ 1.

(** *** Helpers of essentiamath.h *)

(** [std::inner_product] on two ranges of the same length, from zero. *)
Definition inner_product (xs ys : frame Real) : Real :=
  fold_left (fun acc p => radd acc (rmul (fst p) (snd p))) (combine xs ys) r0.

(** Modelled from the spec: [essentia::dotProduct], the dot product of two
    vectors with the same number of entries, accumulated from the left
    starting at zero.  The spec gives no value to the dot product of vectors
    of different sizes, which is [Undef] here. *)
Definition dotProduct (xs ys : frame Real) : outcome Real :=
  if Nat.eqb (length xs) (length ys) then Ok (inner_product xs ys) else Undef.

(** [std::max_element]: the first greatest element, [None] on an empty
    range. *)
Fixpoint max_from (best : Real) (l : frame Real) : Real :=
  match l with
  | [] => best
  | x :: l' => max_from (if rltb best x then x else best) l'
  end.

Definition max_element (l : frame Real) : option Real :=
  match l with
  | [] => None
  | x :: l' => Some (max_from x l')
  end.

(** Modelled from the spec: [essentia::normalize], "division by the maximum
    element", which leaves an empty vector and a vector whose maximum is zero
    as they are. *)
Definition normalize (array : frame Real) : frame Real :=
  match max_element array with
  | None => array
  | Some maxElement =>
      if reqb maxElement r0 then array
      else map (fun x => rdiv x maxElement) array
  end.

(** [argmax_from best bi i l]: position of the first maximum, where [best] at
    position [bi] is the maximum so far and [l] starts at position [i]. *)
Fixpoint argmax_from (best : Real) (bi i : Z) (l : frame Real) : Z :=
  match l with
  | [] => bi
  | x :: l' =>
      if rltb best x then argmax_from x i (i + 1) l'
      else argmax_from best bi (i + 1) l'
  end.

(** Modelled from the spec: [essentia::argmax], the index of the maximum with
    "first-maximum semantics"; it rejects an empty vector. *)
Definition argmax (input : frame Real) : outcome Z :=
  match input with
  | [] => Exc EmptyArgmax
  | x :: l => Ok (argmax_from x 0 1 l)
  end.

(** *** globalAverageChroma *)

(** The inner loop [for (i...) tSum += inputFeature[i][j]]. *)
Fixpoint column_sum (rows : matrix Real) (j : Z) (tSum : Real) : outcome Real :=
  match rows with
  | [] => Ok tSum
  | row :: rows' =>
      x <- vec_get row j ;;
      column_sum rows' j (radd tSum x)
  end.

Definition globalAverageChroma (inputFeature : matrix Real) : outcome (frame Real) :=
  row0 <- vec_get inputFeature 0 ;;
  let numbins := length row0 in
  globalChroma <- mapM (fun j => column_sum inputFeature j r0)
                       (map Z.of_nat (seq 0 numbins)) ;;
  Ok (normalize globalChroma).

(** *** optimalTranspositionIndex *)

Definition optimalTranspositionIndex (chromaA chromaB : matrix Real) (nshifts : Z)
  : outcome Z :=
  globalChromaA <- globalAverageChroma chromaA ;;
  globalChromaB <- globalAverageChroma chromaB ;;
  valueAtShifts <- mapM (fun i =>
                           chromaBcopy <- rotate_end globalChromaB i ;;
                           dotProduct globalChromaA chromaBcopy)
                        (shifts nshifts) ;;
  argmax valueAtShifts.

(** *** toTimeEmbedding *)

(** The inner loop
    [for (int startTime=i; startTime<stopIdx; startTime+=tau)], whose body
    extends [tempRow] and stores it in [timeEmbedding[i]].  The loop state is
    the pair of [tempRow] and [timeEmbedding]. *)
Fixpoint embed_row (fuel : nat) (inputArray : matrix Real) (tau i stopIdx : Z)
    (startTime : Z) (tempRow : frame Real) (timeEmbedding : matrix Real)
  : outcome (frame Real * matrix Real) :=
  if startTime <? stopIdx then
    match fuel with
    | O => Undef
    | S fuel' =>
        src <- vec_get inputArray startTime ;;
        let tempRow' := if startTime =? i then src else tempRow ++ src in
        timeEmbedding' <- vec_set timeEmbedding i tempRow' ;;
        startTime' <- to_int (startTime + tau) ;;
        embed_row fuel' inputArray tau i stopIdx startTime'
                  tempRow' timeEmbedding'
    end
  else Ok (tempRow, timeEmbedding).

(** The outer loop [for (int i=0; i<frameSize; i+=tau)]. *)
Fixpoint embed_rows (fuel : nat) (inputArray : matrix Real)
    (tau increment frameSize : Z) (i : Z) (tempRow : frame Real)
    (timeEmbedding : matrix Real) : outcome (matrix Real) :=
  if i <? frameSize then
    match fuel with
    | O => Undef
    | S fuel' =>
        stopIdx <- to_int (i + increment) ;;
        ' (tempRow', timeEmbedding') <-
          embed_row (Z.to_nat increment) inputArray tau i stopIdx i
                    tempRow timeEmbedding ;;
        i' <- to_int (i + tau) ;;
        embed_rows fuel' inputArray tau increment frameSize i'
                   tempRow' timeEmbedding'
    end
  else Ok timeEmbedding.

(** [toTimeEmbedding].  [increment], [frameSize] and [yDim] are [int]
    variables: [m*tau] is a signed product, the other two are [size_t]
    results stored in an [int].  With [tau >= 1] the outer loop runs at most
    [frameSize] times and the inner loop at most [increment] times, which is
    the fuel given to them; the fuel runs out only when [tau <= 0], where the
    C++ loops do not terminate or index out of range. *)
Definition toTimeEmbedding (inputArray : matrix Real) (m tau : Z) : outcome (matrix Real) :=
  if m =? 1 then Ok inputArray
  else
    increment <- to_int (m * tau) ;;
    frameSize <- to_int (Z.of_nat (length inputArray) - increment) ;;
    row0 <- vec_get inputArray 0 ;;
    yDim <- to_int (Z.of_nat (length row0) * m) ;;
    zeroRow <- new_vector yDim r0 ;;
    timeEmbedding <- new_vector frameSize zeroRow ;;
    embed_rows (Z.to_nat frameSize) inputArray tau increment frameSize 0
               [] timeEmbedding.

(** *** chromaBinarySimMatrix *)

(** The body of the two outer loops: the OTI of frame Real [b] against frame Real [a],
    then the coefficient stored in [simMatrix[i][j]]. *)
Definition frame_similarity (a b : frame Real) (nshifts : Z)
    (matchCoef mismatchCoef : Real) : outcome Real :=
  valueAtShifts <- mapM (fun k =>
                           chromaBcopy <- rotate_end b k ;;
                           dotProduct a chromaBcopy)
                        (shifts nshifts) ;;
  otiIndex <- argmax valueAtShifts ;;
  Ok (if (otiIndex =? 0) || (otiIndex =? 1) then matchCoef else mismatchCoef).

Definition chromaBinarySimMatrix (chromaA chromaB : matrix Real) (nshifts : Z)
    (matchCoef mismatchCoef : Real) : outcome (matrix Real) :=
  mapM (fun a =>
          mapM (fun b => frame_similarity a b nshifts matchCoef mismatchCoef)
               chromaB)
       chromaA.

End Helpers.

(** ** Matrices *)

Section Matrices.

Context {Real : Type} {RA : RealArith Real} {ML : MathLib Real}.

(** [M[k][l]] for an index pair known to be inside [M]. *)
Definition at2 (M : matrix Real) (k l : nat) : Real := nth l (nth k M []) r0.

(** A [rows] x [cols] matrix whose cell [(k,l)] holds [f k l]: the result of
    a pair of nested loops that writes every cell once. *)
Definition tabulate (rows cols : nat) (f : nat -> nat -> Real) : matrix Real :=
  map (fun k => map (fun l => f k l) (seq 0 cols)) (seq 0 rows).

(** Number of columns as the code reads it, [M[0].size()]. *)
Definition cols0 (M : matrix Real) : nat := length (nth 0%nat M []).

(** Modelled from the spec: [essentia::pairwiseDistance], the "pairwise
    Euclidean DistanceMatrix", rows indexed by the frames of [m], columns by
    the frames of [n]. *)
Definition pairwiseDistance (m n : matrix Real) : matrix Real :=
  map (fun a => map (fun b => distance a b) n) m.

(** Modelled from the spec: [essentia::transpose] of a rectangular matrix. *)
Definition transpose (m : matrix Real) : matrix Real :=
  tabulate (cols0 m) (length m) (fun j i => at2 m i j).

(** Modelled from the spec: the Heaviside step of the threshold scorer,
    "output 1 where the value is >= 0, else 0". *)
Definition heaviside (x : Real) : Real := if rleb r0 x then r1 else r0.

Definition heavisideStepFunction (M : matrix Real) : matrix Real :=
  map (map heaviside) M.

(** Modelled from the spec: the product [TNT::operator*] of two
    [TNT::Array2D], with which [compute] and [process] combine the two
    masks; the TNT headers are not among the sources.  Both operands are
    built with the same shape, one row per embedded query frame and one
    column per embedded reference frame, and the result is the output
    matrix, which the spec gives that very shape for every pair of inputs
    and describes as the logical AND of the two 0/1 masks (a self-similar
    frame pair scores 1): the product is taken entry by entry,
    [C[i][j] = A[i][j] * B[i][j]], as [operator*] of the TNT array classes
    does (their matrix product is the separate [matmult]).  The spec gives
    no result for operands of different shapes, which the code never
    builds: [Undef].  The conversions [vecvecToArray2D] and
    [array2DToVecvec] around it keep the entries of a rectangular matrix. *)
Definition array_product (A B : matrix Real) : outcome (matrix Real) :=
  if Nat.eqb (length A) (length B) && Nat.eqb (cols0 A) (cols0 B)
  then Ok (tabulate (length A) (cols0 A)
                    (fun i j => rmul (at2 A i j) (at2 B i j)))
  else Undef.

(** The thresholded entries [percentile(D[k], kappa*100) - D[k][l]]. *)
Definition thresholded (kappa : Real) (D : matrix Real) (rows cols : nat)
  : matrix Real :=
  tabulate rows cols
    (fun k l => rsub (percentile (nth k D []) (rmul kappa (rofZ 100)))
                     (at2 D k l)).

(** The cell written to [tSimilarityY[j][i]]; a cell that neither test
    selects keeps the zero it was created with. *)
Definition binarise (s : Real) : Real :=
  if rltb s r0 then r0 else if rleb r0 s then r1 else r0.

(** The reference-axis mask, binarised and transposed in one pass. *)
Definition tSimilarityY (kappa : Real) (tpDistances : matrix Real)
    (yRows yCols : nat) : matrix Real :=
  let similarityY := thresholded kappa tpDistances yRows yCols in
  tabulate yCols yRows (fun j i => binarise (at2 similarityY i j)).

End Matrices.

(** ** The batch algorithm: [essentia::standard::CrossSimilarityMatrix] *)

Module Standard.

Section Compute.

Context {Real : Type} {RA : RealArith Real} {ML : MathLib Real}.

(** The parameters read by [configure]. *)
Record Config : Type := {
  tau : Z;
  embedDimension : Z;
  kappa : Real;
  noti : Z;
  oti : bool;
  toBlocked : bool;
  otiBinary : bool;
  optimiseThreshold : bool
}.

(** [_mathcCoef = 1] and [_mismatchCoef = 0], set by [configure]. *)
Definition mathcCoef : Real := r1.
Definition mismatchCoef : Real := r0.

(** The inputs and the output of the algorithm, as the caller holds them. *)
Record Ports : Type := {
  _queryFeature : matrix Real;
  _referenceFeature : matrix Real;
  _csm : matrix Real
}.

Definition set_csm (p : Ports) (m : matrix Real) : Ports :=
  {| _queryFeature := _queryFeature p;
     _referenceFeature := _referenceFeature p;
     _csm := m |}.

(** The query-axis mask [similarityX]. *)
Definition similarityX (cfg : Config) (pdistances : matrix Real)
    (xRows xCols : nat) : matrix Real :=
  if optimiseThreshold cfg
  then repeat (repeat r1 xCols) xRows
  else heavisideStepFunction (thresholded (kappa cfg) pdistances xRows xCols).

(** The [else] branch of [compute]: the cross similarity of the two time
    embeddings from their Euclidean distances.  It returns the two masks
    along with their product. *)
Definition euclidean_csm (cfg : Config) (timeEmbedA timeEmbedB : matrix Real)
  : outcome (matrix Real * matrix Real * matrix Real) :=
  let pdistances := pairwiseDistance timeEmbedA timeEmbedB in
  match pdistances with
  | [] => Exc EmptyResult
  | _ :: _ =>
      let tpDistances := transpose pdistances in
      let xRows := length pdistances in
      let xCols := cols0 pdistances in
      let yRows := length tpDistances in
      row0 <- vec_get tpDistances 0 ;;
      let yCols := length row0 in
      let simX := similarityX cfg pdistances xRows xCols in
      let simY := tSimilarityY (kappa cfg) tpDistances yRows yCols in
      csmOut <- array_product simX simY ;;
      Ok (simX, simY, csmOut)
  end.

(** How a call of [compute] ends. *)
Inductive completion : Type :=
| Returned
| Thrown (e : exn)
| UndefinedBehaviour.

(** *** The memory of a call

    [compute] starts by copying the two inputs into the local variables
    [queryFeature] and [referenceFeature] (lines 69-70), and binds [csm] to
    the output port by reference (line 71).  The memory of a call holds the
    ports, which belong to the caller, and the two locals; every other
    local is assigned once and is a bound variable of the model. *)
Record Locals : Type := {
  queryFeature : matrix Real;
  referenceFeature : matrix Real
}.

Record Memory : Type := {
  ports : Ports;
  locals : Locals
}.

(** [queryFeature = _queryFeature.get(); referenceFeature =
    _referenceFeature.get();] *)
Definition copy_inputs (p : Ports) : Memory :=
  {| ports := p;
     locals := {| queryFeature := _queryFeature p;
                  referenceFeature := _referenceFeature p |} |}.

(** An assignment to the local [referenceFeature]. *)
Definition set_local_reference (mem : Memory) (r : matrix Real) : Memory :=
  {| ports := ports mem;
     locals := {| queryFeature := queryFeature (locals mem);
                  referenceFeature := r |} |}.

(** [csm = m;], an assignment through the reference to the output port. *)
Definition assign_csm (mem : Memory) (m : matrix Real) : Memory :=
  {| ports := set_csm (ports mem) m; locals := locals mem |}.

(** The end of the body: the memory it leaves, when it returns or throws. *)
Inductive ending : Type :=
| Done (mem : Memory)
| Raised (e : exn) (mem : Memory)
| Stuck.

(** A call of a helper from the memory [mem], followed by [k]. *)
Definition call {A : Type} (mem : Memory) (c : outcome A) (k : A -> ending)
  : ending :=
  match c with
  | Ok a => k a
  | Exc e => Raised e mem
  | Undef => Stuck
  end.

(** [if (_oti == true) { otiIdx = ...; std::rotate(referenceFeature...) }]:
    the rotation is done in place on the local [referenceFeature]. *)
Definition rotate_local (cfg : Config) (mem : Memory) (k : Memory -> ending)
  : ending :=
  if oti cfg then
    call mem (optimalTranspositionIndex (queryFeature (locals mem))
                (referenceFeature (locals mem)) (noti cfg))
      (fun otiIdx =>
    call mem (rotate_end (referenceFeature (locals mem)) otiIdx)
      (fun rotated => k (set_local_reference mem rotated)))
  else k mem.

(** The body of [compute], from the two emptiness checks on. *)
Definition compute_body (cfg : Config) (mem : Memory) : ending :=
  match queryFeature (locals mem) with
  | [] => Raised (EmptyInput QueryFeature) mem
  | _ :: _ =>
  match referenceFeature (locals mem) with
  | [] => Raised (EmptyInput ReferenceFeature) mem
  | _ :: _ =>
      if otiBinary cfg then
        if toBlocked cfg then
          call mem (toTimeEmbedding (queryFeature (locals mem))
                      (embedDimension cfg) (tau cfg)) (fun timeEmbedA =>
          call mem (toTimeEmbedding (referenceFeature (locals mem))
                      (embedDimension cfg) (tau cfg)) (fun timeEmbedB =>
          call mem (chromaBinarySimMatrix (queryFeature (locals mem))
                      (referenceFeature (locals mem)) (noti cfg)
                      mathcCoef mismatchCoef) (fun simMatrix =>
          Done (assign_csm mem simMatrix))))
        else
          call mem (chromaBinarySimMatrix (queryFeature (locals mem))
                      (referenceFeature (locals mem)) (noti cfg)
                      mathcCoef mismatchCoef) (fun simMatrix =>
          Done (assign_csm mem simMatrix))
      else
        rotate_local cfg mem (fun mem1 =>
        call mem1 (toTimeEmbedding (queryFeature (locals mem1))
                     (embedDimension cfg) (tau cfg)) (fun timeEmbedA =>
        call mem1 (toTimeEmbedding (referenceFeature (locals mem1))
                     (embedDimension cfg) (tau cfg)) (fun timeEmbedB =>
        call mem1 (euclidean_csm cfg timeEmbedA timeEmbedB) (fun res =>
        Done (assign_csm mem1 (snd res))))))
  end
  end.

(** [compute], as the caller sees it: how the call ends and what the ports
    hold then.  After undefined behaviour nothing is known about the
    ports. *)
Definition compute (cfg : Config) (p : Ports) : completion * Ports :=
  match compute_body cfg (copy_inputs p) with
  | Done mem => (Returned, ports mem)
  | Raised e mem => (Thrown e, ports mem)
  | Stuck => (UndefinedBehaviour, p)
  end.

(** *** The body as a function of the two inputs

    The matrix assigned to [csm], or the failure of the body, from the
    values of the two inputs ([compute_functional] relates it to
    [compute]). *)

(** The reference after the optional rotation. *)
Definition rotate_by_oti (cfg : Config) (queryFeature referenceFeature : matrix Real)
  : outcome (matrix Real) :=
  if oti cfg then
    otiIdx <- optimalTranspositionIndex queryFeature referenceFeature (noti cfg) ;;
    rotate_end referenceFeature otiIdx
  else Ok referenceFeature.

Definition compute_csm (cfg : Config) (queryFeature referenceFeature : matrix Real)
  : outcome (matrix Real) :=
  match queryFeature with
  | [] => Exc (EmptyInput QueryFeature)
  | _ :: _ =>
  match referenceFeature with
  | [] => Exc (EmptyInput ReferenceFeature)
  | _ :: _ =>
      if otiBinary cfg then
        if toBlocked cfg then
          timeEmbedA <- toTimeEmbedding queryFeature (embedDimension cfg) (tau cfg) ;;
          timeEmbedB <- toTimeEmbedding referenceFeature (embedDimension cfg) (tau cfg) ;;
          chromaBinarySimMatrix queryFeature referenceFeature (noti cfg)
                                mathcCoef mismatchCoef
        else
          chromaBinarySimMatrix queryFeature referenceFeature (noti cfg)
                                mathcCoef mismatchCoef
      else
        referenceFeature' <- rotate_by_oti cfg queryFeature referenceFeature ;;
        timeEmbedA <- toTimeEmbedding queryFeature (embedDimension cfg) (tau cfg) ;;
        timeEmbedB <- toTimeEmbedding referenceFeature' (embedDimension cfg) (tau cfg) ;;
        res <- euclidean_csm cfg timeEmbedA timeEmbedB ;;
        Ok (snd res)
  end
  end.

(** A call whose body gave [o], seen from the ports [p]: the output port is
    written when the body returned a matrix, and only then. *)
Definition finish (p : Ports) (o : outcome (matrix Real)) : completion * Ports :=
  match o with
  | Ok csm => (Returned, set_csm p csm)
  | Exc e => (Thrown e, p)
  | Undef => (UndefinedBehaviour, p)
  end.

(** The configuration [cfg] with the parameter [toBlocked] set to [b]. *)
Definition with_toBlocked (cfg : Config) (b : bool) : Config :=
  {| tau := tau cfg; embedDimension := embedDimension cfg; kappa := kappa cfg;
     noti := noti cfg; oti := oti cfg; toBlocked := b;
     otiBinary := otiBinary cfg; optimiseThreshold := optimiseThreshold cfg |}.

End Compute.

Arguments Config Real : clear implicits.
Arguments Ports Real : clear implicits.

End Standard.

(** ** The streaming algorithm: [essentia::streaming::CrossSimilarityMatrix] *)

Module Streaming.

Section Process.

Context {Real : Type} {RA : RealArith Real} {ML : MathLib Real}.

(** The parameters read by [configure], the reference feature apart. *)
Record Config : Type := {
  tau : Z;
  embedDimension : Z;
  kappa : Real;
  noti : Z;
  oti : bool;
  otiBinary : bool
}.

Definition mathcCoef : Real := r1.
Definition mismatchCoef : Real := r0.
Definition minFramesSize (cfg : Config) : Z := embedDimension cfg + 1.

Inductive AlgorithmStatus : Type := OK | NO_INPUT.

(** Modelled from the spec: the buffering of the host dataflow graph
    (section 4.6), whose code is not among the sources, as part of the state
    of one configured instance.  [buffered] holds the query frames that have
    arrived and were not released, oldest first; [acquireSize] and
    [releaseSize] are the sizes set on the input ["queryFeature"];
    [stopped] is what [shouldStop()] answers; [csmOutput] collects the matrix
    tokens produced so far.  [_referenceFeature] is the member of the
    class. *)
Record State : Type := {
  buffered : matrix Real;
  acquireSize : Z;
  releaseSize : Z;
  stopped : bool;
  _referenceFeature : matrix Real;
  csmOutput : list (matrix Real)
}.

(** [configure]: the reference is stored, the sizes are set. *)
Definition configure (cfg : Config) (referenceFeature : matrix Real) : State :=
  {| buffered := []; acquireSize := minFramesSize cfg; releaseSize := tau cfg;
     stopped := false; _referenceFeature := referenceFeature; csmOutput := [] |}.

Definition available (s : State) : Z := Z.of_nat (length (buffered s)).

(** Modelled from the spec: [acquireData()] succeeds when the buffer holds
    [acquireSize] frames, and consumes nothing otherwise. *)
Definition acquireData (s : State) : AlgorithmStatus :=
  if acquireSize s <=? available s then OK else NO_INPUT.

(** Modelled from the spec: [_queryFeature.tokens()], the acquired window of
    [acquireSize] frames. *)
Definition tokens (s : State) : matrix Real :=
  firstn (Z.to_nat (acquireSize s)) (buffered s).

Definition set_sizes (s : State) (n : Z) : State :=
  {| buffered := buffered s; acquireSize := n; releaseSize := n;
     stopped := stopped s; _referenceFeature := _referenceFeature s;
     csmOutput := csmOutput s |}.

Definition set_reference (s : State) (r : matrix Real) : State :=
  {| buffered := buffered s; acquireSize := acquireSize s;
     releaseSize := releaseSize s; stopped := stopped s;
     _referenceFeature := r; csmOutput := csmOutput s |}.

(** Modelled from the spec: [csmOutput[0] = m; releaseData()], one matrix
    token leaves, and [releaseSize] frames leave the front of the buffer. *)
Definition emit_and_release (s : State) (m : matrix Real) : State :=
  {| buffered := skipn (Z.to_nat (releaseSize s)) (buffered s);
     acquireSize := acquireSize s; releaseSize := releaseSize s;
     stopped := stopped s; _referenceFeature := _referenceFeature s;
     csmOutput := csmOutput s ++ [m] |}.

(** The loop [for (size_t i=0; i<n; i++)
    inputFramesCopy.push_back(inputQueryFrames[i])], run [n] times from
    index [i]. *)
Fixpoint push_back_frames (inputQueryFrames inputFramesCopy : matrix Real)
    (i : Z) (n : nat) : outcome (matrix Real) :=
  match n with
  | O => Ok inputFramesCopy
  | S n' =>
      x <- vec_get inputQueryFrames i ;;
      push_back_frames inputQueryFrames (inputFramesCopy ++ [x]) (i + 1) n'
  end.

(** The working copy of the acquired frames, padded when the acquire size is
    below [_minFramesSize]. *)
Definition padded_copy (cfg : Config) (acquire : Z) (inputQueryFrames : matrix Real)
  : outcome (matrix Real) :=
  let inputFramesCopy := inputQueryFrames in
  if acquire <? minFramesSize cfg
  then push_back_frames inputQueryFrames inputFramesCopy 0
                        (Z.to_nat (minFramesSize cfg - acquire))
  else Ok inputFramesCopy.

(** The rotation of [_referenceFeature] when [oti] is set; the result is
    stored back in the member. *)
Definition rotate_reference (cfg : Config) (inputFramesCopy reference : matrix Real)
  : outcome (matrix Real) :=
  if oti cfg then
    otiIdx <- optimalTranspositionIndex inputFramesCopy reference (noti cfg) ;;
    rotate_end reference otiIdx
  else Ok reference.

(** What follows the rotation: the two embeddings and the matrix token. *)
Definition similarity_token (cfg : Config) (inputFramesCopy reference : matrix Real)
  : outcome (matrix Real) :=
  queryTimeEmbed <- toTimeEmbedding inputFramesCopy (embedDimension cfg) (tau cfg) ;;
  referenceTimeEmbed <- toTimeEmbedding reference (embedDimension cfg) (tau cfg) ;;
  if otiBinary cfg then
    chromaBinarySimMatrix queryTimeEmbed referenceTimeEmbed (noti cfg)
                          mathcCoef mismatchCoef
  else
    let pdistances := pairwiseDistance queryTimeEmbed referenceTimeEmbed in
    let tpDistances := transpose pdistances in
    let yRows := length tpDistances in
    row0 <- vec_get tpDistances 0 ;;
    let yCols := length row0 in
    let similarityX := repeat (repeat r1 yRows) yCols in
    let simY := tSimilarityY (kappa cfg) tpDistances yRows yCols in
    array_product similarityX simY.

Inductive completion : Type :=
| Returned (status : AlgorithmStatus)
| Thrown (e : exn)
| UndefinedBehaviour.

(** A call of [process] went on to the computation when it returned [OK] or
    threw; the early exits return [NO_INPUT]. *)
Definition proceeded (c : completion) : Prop :=
  match c with
  | Returned OK => True
  | Thrown _ => True
  | _ => False
  end.

(** [process] once [acquireData()] has answered [OK]. *)
Definition compute_token (cfg : Config) (s : State) : completion * State :=
  let inputQueryFrames := tokens s in
  match padded_copy cfg (acquireSize s) inputQueryFrames with
  | Undef => (UndefinedBehaviour, s)
  | Exc e => (Thrown e, s)
  | Ok inputFramesCopy =>
      match rotate_reference cfg inputFramesCopy (_referenceFeature s) with
      | Undef => (UndefinedBehaviour, s)
      | Exc e => (Thrown e, s)
      | Ok reference' =>
          let s' := set_reference s reference' in
          match similarity_token cfg inputFramesCopy reference' with
          | Undef => (UndefinedBehaviour, s')
          | Exc e => (Thrown e, s')
          | Ok m => (Returned OK, emit_and_release s' m)
          end
      end
  end.

(** [process].  The fuel bounds the depth of the self-call [return
    process();], which is entered once at most: after the sizes are set to
    [available], [acquireData()] succeeds. *)
Fixpoint process (fuel : nat) (cfg : Config) (s : State) : completion * State :=
  match acquireData s with
  | OK => compute_token cfg s
  | status =>
      if negb (stopped s) then (Returned status, s)
      else if available s =? 0 then (Returned NO_INPUT, s)
      else match fuel with
           | O => (UndefinedBehaviour, s)
           | S fuel' => process fuel' cfg (set_sizes s (available s))
           end
  end.

End Process.

Arguments Config Real : clear implicits.
Arguments State Real : clear implicits.

End Streaming.

(** ** Notions used in the statements *)

(** The image of an outcome. *)
Definition omap {A B : Type} (f : A -> B) (o : outcome A) : outcome B :=
  match o with
  | Ok a => Ok (f a)
  | Exc e => Exc e
  | Undef => Undef
  end.

Section Notions.

Context {Real : Type} {RA : RealArith Real} {ML : MathLib Real}.

(** Row [i] of the input, as a total function. *)
Definition row_at (inputArray : matrix Real) (i : Z) : frame Real :=
  nth (Z.to_nat i) inputArray [].

(** The rows [start], [start + tau], ... ([n] of them) laid end to end. *)
Fixpoint gather (inputArray : matrix Real) (tau start : Z) (n : nat) : frame Real :=
  match n with
  | O => []
  | S n' => row_at inputArray start ++ gather inputArray tau (start + tau) n'
  end.

(** The concatenation of the input rows [i, i+tau, ..., i+(m-1)*tau]. *)
Definition stacked (inputArray : matrix Real) (m tau i : Z) : frame Real :=
  concat (map (fun k => row_at inputArray (i + Z.of_nat k * tau))
              (seq 0 (Z.to_nat m))).

(** Width of the frames, as [toTimeEmbedding] reads it:
    [inputArray[0].size()]. *)
Definition width0 (inputArray : matrix Real) : Z :=
  Z.of_nat (length (nth 0%nat inputArray [])).


(** Every [int] that [toTimeEmbedding] computes on [len] frames of [w] bins
    fits the type: the three variables set before the loops, and the
    [stopIdx] of every row that the outer loop visits (the loop indices stay
    below it). *)
Definition embedding_fits (len w m tau : Z) : Prop :=
  m * tau <= int_max /\ len - m * tau <= int_max /\ w * m <= int_max /\
  forall k, 0 <= k -> k * tau < len - m * tau -> k * tau + m * tau <= int_max.

(** The part of [optimalTranspositionIndex] that follows the two global
    chroma vectors. *)
Definition oti_of_globals (globalChromaA globalChromaB : frame Real)
    (nshifts : Z) : outcome Z :=
  valueAtShifts <- mapM (fun i =>
                           chromaBcopy <- rotate_end globalChromaB i ;;
                           dotProduct globalChromaA chromaBcopy)
                        (shifts nshifts) ;;
  argmax valueAtShifts.

(** [sum_{k < n} A[i][k] * B[k][j]], accumulated from the left: the entry
    [(i,j)] of a row-by-column matrix product with [n] inner indices. *)
Definition row_by_column (A B : matrix Real) (n i j : nat) : Real :=
  fold_left (fun acc k => radd acc (rmul (at2 A i k) (at2 B k j))) (seq 0 n) r0.

(** The two masks of a run on the embeddings [tA] and [tB]. *)
Definition maskX (cfg : Standard.Config Real) (tA tB : matrix Real) : matrix Real :=
  Standard.similarityX cfg (pairwiseDistance tA tB) (length tA) (length tB).

Definition maskY (cfg : Standard.Config Real) (tA tB : matrix Real) : matrix Real :=
  tSimilarityY (Standard.kappa cfg) (transpose (pairwiseDistance tA tB))
               (length tB) (length tA).

(** The state in which the computation of a call of [process] starts: [s]
    itself when [acquireData()] succeeds, and [s] with both sizes set to the
    number of buffered frames in the self-call. *)
Definition window_state (s : Streaming.State Real) : Streaming.State Real :=
  if Streaming.acquireSize s <=? Streaming.available s then s
  else Streaming.set_sizes s (Streaming.available s).

(** The working copy [inputFramesCopy] that a call of [process] builds from
    the window it acquires. *)
Definition window_copy (cfg : Streaming.Config Real) (s : Streaming.State Real)
  : outcome (matrix Real) :=
  Streaming.padded_copy cfg (Streaming.acquireSize (window_state s))
                        (Streaming.tokens (window_state s)).

End Notions.

(** [v] with its last [k] elements moved to the front, in order. *)
Definition rotated_by {A : Type} (v : list A) (k : nat) : list A :=
  skipn (length v - k) v ++ firstn (length v - k) v.

(** ** Exact rationals as [Real] *)

#[export] Instance Q_RealArith : RealArith Q := {|
  rofZ := inject_Z;
  radd := Qplus;
  rsub := Qminus;
  rmul := Qmult;
  rdiv := Qdiv;
  rltb := fun x y => negb (Qle_bool y x);
  rleb := Qle_bool;
  reqb := Qeq_bool
|}.

Definition qframe (l : list Z) : frame Q := map inject_Z l.
Definition qmatrix (l : list (list Z)) : matrix Q := map qframe l.


(** Modelled from the spec: the percentile, for the rationals, used to run
    the model.  The values of the row are sorted and the value at rank
    [(n-1) * q/100] is read, with linear interpolation between the two
    closest ranks, so that the 100th percentile is the maximum of the row. *)
Fixpoint Q_insert (x : Q) (l : list Q) : list Q :=
  match l with
  | [] => [x]
  | y :: l' => if Qle_bool x y then x :: l else y :: Q_insert x l'
  end.

Definition Q_sort (l : list Q) : list Q := fold_right Q_insert [] l.

Definition Q_percentile (row : list Q) (q : Q) : Q :=
  let sorted := Q_sort row in
  let k := Qred ((inject_Z (Z.of_nat (length row)) - 1) * q / 100)%Q in
  let lo := Qfloor k in
  let hi := Qceiling k in
  let frac := Qred (k - inject_Z lo)%Q in
  let at_rank z := nth (Z.to_nat z) sorted (last sorted 0%Q) in
  Qred (at_rank lo * (1 - frac) + at_rank hi * frac)%Q.

(** A square root for the rationals: the root rounded down to six decimals,
    which is the exact root of a square of such a number. *)
Definition Q_sqrt (x : Q) : Q :=
  let x := Qred x in
  Qred ((Z.sqrt (Qnum x * Zpos (Qden x) * 10 ^ 12) / Zpos (Qden x))
        # 1000000).

(** Modelled from the spec: the Euclidean distance, for the rationals, used
    to run the model. *)
Definition Q_distance (a b : list Q) : Q :=
  Q_sqrt (fold_left (fun acc p => acc + (fst p - snd p) * (fst p - snd p))
                    (combine a b) 0)%Q.

#[export] Instance Q_MathLib : MathLib Q := {|
  distance := Q_distance;
  percentile := Q_percentile
|}.



(** ** Real numbers as [Real], and the laws of exact arithmetic *)

(** Every entry of every frame multiplied by [c]. *)
Definition scale_frame {Real : Type} {RA : RealArith Real} (c : Real)
    (f : frame Real) : frame Real :=
  map (rmul c) f.

Definition scale_matrix {Real : Type} {RA : RealArith Real} (c : Real)
    (M : matrix Real) : matrix Real :=
  map (scale_frame c) M.

(** The facts of exact real arithmetic used to reason about a positive
    scaling factor [c]; they hold in every ordered field.  The arithmetic of
    [float] does not satisfy them: products and sums are rounded, and
    overflow to infinity. *)
Class ExactArith (Real : Type) {RA : RealArith Real} : Prop := {
  rmul_zero : forall c, rmul c r0 = r0;
  rmul_radd : forall c x y, rmul c (radd x y) = radd (rmul c x) (rmul c y);
  rmul_assoc_l : forall c x y, rmul (rmul c x) y = rmul c (rmul x y);
  rmul_assoc_r : forall c x y, rmul x (rmul c y) = rmul c (rmul x y);
  rltb_scale : forall c x y,
      rltb r0 c = true -> rltb (rmul c x) (rmul c y) = rltb x y;
  reqb_scale : forall c x,
      rltb r0 c = true -> reqb (rmul c x) r0 = reqb x r0;
  rdiv_scale : forall c x m,
      rltb r0 c = true -> reqb m r0 = false ->
      rdiv (rmul c x) (rmul c m) = rdiv x m
}.

Arguments ExactArith Real {RA}.

#[export] Instance R_RealArith : RealArith R := {|
  rofZ := IZR;
  radd := Rplus;
  rsub := Rminus;
  rmul := Rmult;
  rdiv := Rdiv;
  rltb := fun x y => if Rlt_dec x y then true else false;
  rleb := fun x y => if Rle_dec x y then true else false;
  reqb := fun x y => if Req_dec_T x y then true else false
|}.

(** ** IEEE binary32 numbers as [Real]

    The arithmetic of a C++ [float]: precision 24, maximal exponent 128,
    every operation rounded to nearest, ties to even. *)

Definition float32 : Type := spec_float.

#[export] Instance F32_RealArith : RealArith float32 := {|
  rofZ := fun z => binary_normalize 24 128 z 0 false;
  radd := SFadd 24 128;
  rsub := SFsub 24 128;
  rmul := SFmul 24 128;
  rdiv := SFdiv 24 128;
  rltb := SFltb;
  rleb := SFleb;
  reqb := SFeqb
|}.

(** [m * 2^e] as a binary32 number. *)
Definition f32 (m e : Z) : float32 := binary_normalize 24 128 m e false.

(** The laws of exact addition: the sum of a column does not depend on the
    order of the frames.  Floating-point addition is commutative but not
    associative. *)
Class ExactSum (Real : Type) {RA : RealArith Real} : Prop := {
  radd_zero_l : forall x, radd r0 x = x;
  radd_comm : forall x y, radd x y = radd y x;
  radd_assoc : forall x y z, radd (radd x y) z = radd x (radd y z)
}.

Arguments ExactSum Real {RA}.

(** ** Concrete inputs *)

Definition seven_frames : matrix Q := qmatrix [[1];[2];[3];[4];[5];[6];[7]].

Definition batch_cfg (m t n : Z) (o tb ob ot : bool) : Standard.Config Q :=
  {| Standard.tau := t; Standard.embedDimension := m;
     Standard.kappa := (1 # 10)%Q; Standard.noti := n; Standard.oti := o;
     Standard.toBlocked := tb; Standard.otiBinary := ob;
     Standard.optimiseThreshold := ot |}.

Definition batch_ports (q r : list (list Z)) : Standard.Ports Q :=
  {| Standard._queryFeature := qmatrix q;
     Standard._referenceFeature := qmatrix r;
     Standard._csm := [] |}.

Definition stream_cfg (m t n : Z) (o ob : bool) : Streaming.Config Q :=
  {| Streaming.tau := t; Streaming.embedDimension := m;
     Streaming.kappa := (1 # 10)%Q; Streaming.noti := n;
     Streaming.oti := o; Streaming.otiBinary := ob |}.

(** The host side of the buffer: [frames] arrive, and [stop] tells whether
    the stream has ended. *)
Definition feed (s : Streaming.State Q) (frames : matrix Q) (stop : bool)
  : Streaming.State Q :=
  {| Streaming.buffered := Streaming.buffered s ++ frames;
     Streaming.acquireSize := Streaming.acquireSize s;
     Streaming.releaseSize := Streaming.releaseSize s;
     Streaming.stopped := stop;
     Streaming._referenceFeature := Streaming._referenceFeature s;
     Streaming.csmOutput := Streaming.csmOutput s |}.

Definition oti_cfg : Streaming.Config Q := stream_cfg 1 1 1 true true.

Definition oti_reference : matrix Q := qmatrix [[0; 1]; [0; 2]; [0; 3]].

Definition oti_start : Streaming.State Q :=
  feed (Streaming.configure oti_cfg oti_reference)
       (qmatrix [[1; 0]; [1; 0]]) false.

Definition oti_after_first : Streaming.State Q :=
  snd (Streaming.process 1 oti_cfg oti_start).

Definition oti_second_start : Streaming.State Q :=
  feed oti_after_first (qmatrix [[1; 0]]) false.

Definition oti_after_second : Streaming.State Q :=
  snd (Streaming.process 1 oti_cfg oti_second_start).

(** One step of a proof about [compute_body]: the memory operations are
    evaluated and the outcome of the next helper call is split. *)
Ltac step_call :=
  unfold Standard.call, bind;
  cbn [Standard.ports Standard.locals Standard.assign_csm
       Standard.set_local_reference Standard.queryFeature
       Standard.referenceFeature Standard.finish Standard.copy_inputs];
  auto;
  match goal with
  | |- context [match ?o with Ok _ => _ | Exc _ => _ | Undef => _ end] =>
      destruct o
  end.

(** * Properties *)

Unset Implicit Arguments.

(** ** Containers and outcomes *)

Lemma vec_get_ok {A : Type} (v : list A) (i : Z) (d : A) :
  0 <= i < Z.of_nat (length v) ->
  vec_get v i = Ok (nth (Z.to_nat i) v d).
Proof.
  intros Hi. unfold vec_get.
  destruct (i <? 0) eqn:E; [apply Z.ltb_lt in E; lia|].
  destruct (nth_error v (Z.to_nat i)) eqn:En.
  - now rewrite (nth_error_nth v _ d En).
  - apply nth_error_None in En. lia.
Qed.

Lemma vec_get_out {A : Type} (v : list A) (i : Z) :
  Z.of_nat (length v) <= i -> vec_get v i = Undef.
Proof.
  intros Hi. unfold vec_get.
  destruct (i <? 0) eqn:E; [reflexivity|].
  destruct (nth_error v (Z.to_nat i)) eqn:En; [|reflexivity].
  assert (nth_error v (Z.to_nat i) <> None) as Hn by congruence.
  apply nth_error_Some in Hn. lia.
Qed.

Lemma length_list_update {A : Type} (v : list A) (n : nat) (x : A) :
  length (list_update v n x) = length v.
Proof.
  revert n; induction v as [|y v IH]; intros [|n]; simpl; auto.
Qed.

Lemma nth_list_update_same {A : Type} (v : list A) (n : nat) (x d : A) :
  (n < length v)%nat -> nth n (list_update v n x) d = x.
Proof.
  revert n; induction v as [|y v IH]; intros [|n]; simpl; intros H;
    try lia; auto. apply IH. lia.
Qed.

Lemma nth_list_update_other {A : Type} (v : list A) (n k : nat) (x d : A) :
  k <> n -> nth k (list_update v n x) d = nth k v d.
Proof.
  revert n k; induction v as [|y v IH]; intros [|n] [|k]; simpl; intros H;
    try congruence; auto.
Qed.

Lemma list_update_twice {A : Type} (v : list A) (n : nat) (x y : A) :
  list_update (list_update v n x) n y = list_update v n y.
Proof.
  revert n; induction v as [|z v IH]; intros [|n]; simpl; auto.
  now rewrite IH.
Qed.

Lemma vec_set_ok {A : Type} (v : list A) (i : Z) (x : A) :
  0 <= i < Z.of_nat (length v) ->
  vec_set v i x = Ok (list_update v (Z.to_nat i) x).
Proof.
  intros Hi. unfold vec_set.
  destruct (0 <=? i) eqn:E1; [|apply Z.leb_gt in E1; lia].
  destruct (i <? Z.of_nat (length v)) eqn:E2; [reflexivity|].
  apply Z.ltb_ge in E2. lia.
Qed.

Lemma new_vector_ok {A : Type} (n : Z) (x : A) :
  0 <= n -> new_vector n x = Ok (repeat x (Z.to_nat n)).
Proof.
  intros Hn. unfold new_vector.
  destruct (n <? 0) eqn:E; [apply Z.ltb_lt in E; lia|reflexivity].
Qed.

Lemma new_vector_negative {A : Type} (n : Z) (x : A) :
  n < 0 -> new_vector n x = Exc AllocFailure.
Proof.
  intros Hn. unfold new_vector.
  destruct (n <? 0) eqn:E; [reflexivity|apply Z.ltb_ge in E; lia].
Qed.

Lemma nth_repeat_lt {A : Type} (x d : A) (n k : nat) :
  (k < n)%nat -> nth k (repeat x n) d = x.
Proof.
  revert k; induction n as [|n IH]; intros [|k] H; simpl; try lia; auto.
  apply IH. lia.
Qed.

Lemma bind_ok {A B : Type} (c : outcome A) (k : A -> outcome B) (b : B) :
  bind c k = Ok b -> exists a, c = Ok a /\ k a = Ok b.
Proof. destruct c; simpl; intros H; try discriminate. eauto. Qed.

Lemma bind_exc {A B : Type} (c : outcome A) (k : A -> outcome B) (e : exn) :
  bind c k = Exc e -> c = Exc e \/ exists a, c = Ok a /\ k a = Exc e.
Proof.
  destruct c as [a|e'|]; simpl; intros H; try discriminate.
  - right. eauto.
  - left. congruence.
Qed.

Lemma mapM_exc {A B : Type} (f : A -> outcome B) (l : list A) (e : exn) :
  mapM f l = Exc e -> exists a, In a l /\ f a = Exc e.
Proof.
  induction l as [|a l IH]; simpl; [discriminate|].
  intros H. apply bind_exc in H. destruct H as [H|(b & Hb & H)].
  - exists a. auto.
  - apply bind_exc in H. destruct H as [H|(bs & Hbs & H)]; [|discriminate].
    destruct (IH H) as (a' & Hin & Ha'). eauto.
Qed.

Lemma mapM_length {A B : Type} (f : A -> outcome B) (l : list A) (bs : list B) :
  mapM f l = Ok bs -> length bs = length l.
Proof.
  revert bs; induction l as [|a l IH]; simpl; intros bs H.
  - now inversion H.
  - apply bind_ok in H. destruct H as (b & _ & H).
    apply bind_ok in H. destruct H as (bs' & Hbs & H).
    inversion H; subst. simpl. f_equal. now apply IH.
Qed.

Lemma vec_get_no_exc {A : Type} (v : list A) (i : Z) (e : exn) :
  vec_get v i <> Exc e.
Proof.
  unfold vec_get. destruct (i <? 0); [discriminate|].
  destruct (nth_error v (Z.to_nat i)); discriminate.
Qed.

Lemma vec_set_no_exc {A : Type} (v : list A) (i : Z) (x : A) (e : exn) :
  vec_set v i x <> Exc e.
Proof.
  unfold vec_set.
  destruct ((0 <=? i) && (i <? Z.of_nat (length v))); discriminate.
Qed.

Lemma rotate_end_no_exc {A : Type} (v : list A) (k : Z) (e : exn) :
  rotate_end v k <> Exc e.
Proof.
  unfold rotate_end.
  destruct ((0 <=? k) && (k <=? Z.of_nat (length v))); discriminate.
Qed.

(** ** Machine integers *)

Lemma to_int_ok (z : Z) : int_min <= z <= int_max -> to_int z = Ok z.
Proof.
  intros H. unfold to_int.
  assert ((int_min <=? z) = true) as -> by (apply Z.leb_le; lia).
  assert ((z <=? int_max) = true) as -> by (apply Z.leb_le; lia).
  reflexivity.
Qed.

Lemma to_int_inv (z z' : Z) :
  to_int z = Ok z' -> z' = z /\ int_min <= z <= int_max.
Proof.
  unfold to_int.
  destruct (int_min <=? z) eqn:E1; destruct (z <=? int_max) eqn:E2;
    cbn [andb]; try discriminate.
  intros [= <-]. apply Z.leb_le in E1, E2. auto.
Qed.

Lemma to_int_no_exc (z : Z) (e : exn) : to_int z <> Exc e.
Proof.
  unfold to_int. destruct ((int_min <=? z) && (z <=? int_max)); discriminate.
Qed.

Lemma int_min_negative : int_min <= - int_max.
Proof. unfold int_min, int_max. lia. Qed.

Lemma int_max_positive : 0 < int_max.
Proof. unfold int_max. lia. Qed.

Lemma vec_get_inv {A : Type} (v : list A) (i : Z) (x d : A) :
  vec_get v i = Ok x ->
  0 <= i < Z.of_nat (length v) /\ x = nth (Z.to_nat i) v d.
Proof.
  unfold vec_get. destruct (i <? 0) eqn:E; [discriminate|].
  apply Z.ltb_ge in E.
  destruct (nth_error v (Z.to_nat i)) eqn:En; [|discriminate].
  intros [= <-]. split.
  - assert (nth_error v (Z.to_nat i) <> None) as Hn by congruence.
    apply nth_error_Some in Hn. lia.
  - symmetry. now apply nth_error_nth.
Qed.

Lemma vec_set_inv {A : Type} (v v' : list A) (i : Z) (x : A) :
  vec_set v i x = Ok v' ->
  0 <= i < Z.of_nat (length v) /\ v' = list_update v (Z.to_nat i) x.
Proof.
  unfold vec_set.
  destruct (0 <=? i) eqn:E1; destruct (i <? Z.of_nat (length v)) eqn:E2;
    cbn [andb]; try discriminate.
  intros [= <-]. apply Z.leb_le in E1. apply Z.ltb_lt in E2. auto.
Qed.

Lemma new_vector_inv {A : Type} (n : Z) (x : A) (v : list A) :
  new_vector n x = Ok v -> 0 <= n /\ v = repeat x (Z.to_nat n).
Proof.
  unfold new_vector. destruct (n <? 0) eqn:E; [discriminate|].
  apply Z.ltb_ge in E. intros [= <-]. auto.
Qed.

(** ** toTimeEmbedding *)

Lemma embedding_fits_int (len w m tau : Z) :
  1 <= m -> 1 <= tau -> 0 <= len ->
  m * tau <= int_max -> len <= int_max -> w * m <= int_max ->
  embedding_fits len w m tau.
Proof.
  intros Hm Htau Hlen H1 H2 H3. unfold embedding_fits.
  repeat split; try lia; nia.
Qed.

Section Embedding.

Context {Real : Type} {RA : RealArith Real}.

Lemma gather_concat (inputArray : matrix Real) (tau : Z) (n : nat) :
  forall start,
    gather inputArray tau start n =
    concat (map (fun k => row_at inputArray (start + Z.of_nat k * tau)) (seq 0 n)).
Proof.
  induction n as [|n IH]; intros start; [reflexivity|].
  cbn [gather seq map concat].
  rewrite Z.mul_0_l, Z.add_0_r. f_equal.
  rewrite IH, <- seq_shift, map_map. f_equal.
  apply map_ext. intros k. f_equal. lia.
Qed.

Lemma gather_stacked (inputArray : matrix Real) (m tau i : Z) :
  gather inputArray tau i (Z.to_nat m) = stacked inputArray m tau i.
Proof. apply gather_concat. Qed.

(** The inner loop, run for the [n] iterations that separate [startTime]
    from [stopIdx]. *)
Lemma embed_row_run (inputArray : matrix Real) (tau i : Z) :
  1 <= tau ->
  forall (n fuel : nat) (startTime : Z) (tempRow : frame Real) (te : matrix Real),
    (n <= fuel)%nat ->
    i <= startTime ->
    0 <= i < Z.of_nat (length te) ->
    (forall j, (j < n)%nat ->
               startTime + Z.of_nat j * tau < Z.of_nat (length inputArray)) ->
    startTime + Z.of_nat n * tau <= int_max ->
    embed_row fuel inputArray tau i (startTime + Z.of_nat n * tau)
              startTime tempRow te =
    Ok (match n with
        | O => (tempRow, te)
        | S _ =>
            let r := (if startTime =? i then [] else tempRow) ++
                     gather inputArray tau startTime n in
            (r, list_update te (Z.to_nat i) r)
        end).
Proof.
  intros Htau n.
  induction n as [|n IH]; intros fuel startTime tempRow te Hfuel Hle Hi Hin Hmax.
  - destruct fuel; simpl; rewrite Z.add_0_r, Z.ltb_irrefl; reflexivity.
  - destruct fuel as [|fuel]; [lia|].
    cbn [embed_row].
    assert ((startTime <? startTime + Z.of_nat (S n) * tau) = true) as ->
        by (apply Z.ltb_lt; nia).
    assert (0 <= startTime < Z.of_nat (length inputArray)) as Hs.
    { specialize (Hin 0%nat). simpl in Hin. lia. }
    rewrite (vec_get_ok inputArray startTime [] Hs). cbn [bind].
    rewrite (vec_set_ok te i _ Hi). cbn [bind].
    rewrite to_int_ok by (pose proof int_min_negative; pose proof int_max_positive; nia).
    cbn [bind].
    replace (startTime + Z.of_nat (S n) * tau)
      with ((startTime + tau) + Z.of_nat n * tau) by lia.
    rewrite IH; try lia.
    + f_equal.
      assert ((startTime + tau =? i) = false) as Hne by (apply Z.eqb_neq; lia).
      fold (row_at inputArray startTime).
      destruct n as [|n].
      * cbn [gather]. rewrite app_nil_r.
        destruct (startTime =? i); reflexivity.
      * cbv zeta. rewrite Hne, list_update_twice.
        change (gather inputArray tau startTime (S (S n)))
          with (row_at inputArray startTime ++
                gather inputArray tau (startTime + tau) (S n)).
        destruct (startTime =? i); [reflexivity|].
        now rewrite <- !app_assoc.
    + now rewrite length_list_update.
    + intros j Hj. specialize (Hin (S j)). nia.
Qed.

(** The outer loop, started at row [i] with enough fuel: the rows
    [i, i+tau, i+2*tau, ...] below [frameSize] receive their stacked frame,
    every other row keeps its content. *)
Lemma embed_rows_run (inputArray : matrix Real) (m tau : Z) :
  1 <= tau -> 1 <= m ->
  forall (fuel : nat) (i : Z) (tempRow : frame Real) (te : matrix Real),
    0 <= i ->
    Z.of_nat (length te) = Z.of_nat (length inputArray) - m * tau ->
    (Z.to_nat (Z.of_nat (length te) - i) <= fuel)%nat ->
    (forall k, 0 <= k -> i + k * tau < Z.of_nat (length te) ->
               i + k * tau + m * tau <= int_max) ->
    exists te',
      embed_rows fuel inputArray tau (m * tau) (Z.of_nat (length te)) i tempRow te
      = Ok te' /\
      length te' = length te /\
      (forall k, 0 <= k -> i + k * tau < Z.of_nat (length te) ->
                 nth (Z.to_nat (i + k * tau)) te' [] =
                 stacked inputArray m tau (i + k * tau)) /\
      (forall r, 0 <= r -> r < i \/ (r - i) mod tau <> 0 ->
                 nth (Z.to_nat r) te' [] = nth (Z.to_nat r) te []).
Proof.
  intros Htau Hm fuel.
  induction fuel as [|fuel IH]; intros i tempRow te Hi Hlen Hfuel Hfit.
  - assert ((i <? Z.of_nat (length te)) = false) as E
        by (apply Z.ltb_ge; lia).
    exists te. cbn [embed_rows]. rewrite E.
    repeat split; auto. intros k Hk Hlt. nia.
  - cbn [embed_rows].
    destruct (i <? Z.of_nat (length te)) eqn:E.
    + apply Z.ltb_lt in E.
      assert (i + m * tau <= int_max) as Hstop.
      { specialize (Hfit 0). rewrite Z.mul_0_l, Z.add_0_r in Hfit.
        apply Hfit; lia. }
      pose proof int_min_negative as Hmin. pose proof int_max_positive as Hmax.
      rewrite to_int_ok by nia. cbn [bind].
      replace (i + m * tau) with (i + Z.of_nat (Z.to_nat m) * tau) by lia.
      rewrite embed_row_run; try lia.
      * destruct (Z.to_nat m) as [|n'] eqn:Em; [lia|]. rewrite <- Em.
        cbv zeta. rewrite Z.eqb_refl. cbn [app bind].
        rewrite to_int_ok by nia. cbn [bind].
        rewrite gather_stacked.
        set (r := stacked inputArray m tau i).
        set (te1 := list_update te (Z.to_nat i) r).
        assert (length te1 = length te) as Hl1 by apply length_list_update.
        destruct (IH (i + tau) r te1 ltac:(lia) ltac:(lia) ltac:(lia))
          as (te' & Hrun & Hl & Hrows & Hrest).
        { rewrite Hl1. intros k Hk Hlt.
          replace (i + tau + k * tau) with (i + (k + 1) * tau) in * by lia.
          apply Hfit; lia. }
        exists te'. rewrite Hl1 in Hrun, Hl, Hrows.
        split; [exact Hrun|]. split; [exact Hl|]. split.
        -- intros k Hk Hlt.
           destruct (Z.eq_dec k 0) as [->|Hk0].
           ++ rewrite Z.mul_0_l, Z.add_0_r.
              rewrite Hrest; try lia.
              apply nth_list_update_same. lia.
           ++ replace (i + k * tau) with (i + tau + (k - 1) * tau) by lia.
              apply Hrows; nia.
        -- intros r' Hr' Hcase.
           rewrite Hrest; try lia.
           ++ apply nth_list_update_other.
              destruct Hcase as [Hlt|Hmod]; [lia|].
              intros Heq. apply Hmod.
              replace r' with i by lia. now rewrite Z.sub_diag, Z.mod_0_l by lia.
           ++ destruct Hcase as [Hlt|Hmod]; [lia|]. right.
              replace (r' - (i + tau)) with ((r' - i) + (-1) * tau) by lia.
              now rewrite Z.mod_add by lia.
      * nia.
      * intros j Hj. nia.
    + exists te. repeat split; auto.
      intros k Hk Hlt. apply Z.ltb_ge in E. nia.
Qed.

(** A run of the outer loop that returns has computed no [stopIdx] outside
    the [int] range. *)
Lemma embed_rows_fits (inputArray : matrix Real) (tau increment frameSize : Z) :
  1 <= tau ->
  forall (fuel : nat) (i : Z) (tempRow : frame Real) (te te' : matrix Real),
    embed_rows fuel inputArray tau increment frameSize i tempRow te = Ok te' ->
    forall k, 0 <= k -> i + k * tau < frameSize ->
              i + k * tau + increment <= int_max.
Proof.
  intros Htau fuel.
  induction fuel as [|fuel IH]; intros i tempRow te te' Hrun k Hk Hlt;
    cbn [embed_rows] in Hrun;
    destruct (i <? frameSize) eqn:E;
    try discriminate;
    try (apply Z.ltb_ge in E; nia).
  apply bind_ok in Hrun. destruct Hrun as (stopIdx & Hs & Hrun).
  apply to_int_inv in Hs. destruct Hs as [-> Hs].
  apply bind_ok in Hrun. destruct Hrun as ([r te1] & _ & Hrun).
  apply bind_ok in Hrun. destruct Hrun as (i' & Hi' & Hrun).
  apply to_int_inv in Hi'. destruct Hi' as [-> _].
  destruct (Z.eq_dec k 0) as [->|Hk0]; [lia|].
  replace (i + k * tau) with (i + tau + (k - 1) * tau) in * by lia.
  apply (IH _ _ _ _ Hrun); lia.
Qed.

(** [toTimeEmbedding] on an input of at least [m*tau] frames, when every
    [int] fits. *)
Lemma toTimeEmbedding_rows (inputArray : matrix Real) (m tau : Z) :
  2 <= m -> 1 <= tau -> inputArray <> [] ->
  m * tau <= Z.of_nat (length inputArray) ->
  embedding_fits (Z.of_nat (length inputArray)) (width0 inputArray) m tau ->
  exists te,
    toTimeEmbedding inputArray m tau = Ok te /\
    Z.of_nat (length te) = Z.of_nat (length inputArray) - m * tau /\
    (forall i, 0 <= i < Z.of_nat (length te) -> i mod tau = 0 ->
               nth (Z.to_nat i) te [] = stacked inputArray m tau i) /\
    (forall i, 0 <= i < Z.of_nat (length te) -> i mod tau <> 0 ->
               nth (Z.to_nat i) te [] =
               repeat r0 (Z.to_nat (width0 inputArray * m))).
Proof.
  intros Hm Htau Hne Hlen (Hf1 & Hf2 & Hf3 & Hf4).
  pose proof int_min_negative as Hmin. pose proof int_max_positive as Hmax.
  unfold toTimeEmbedding.
  assert ((m =? 1) = false) as -> by (apply Z.eqb_neq; lia).
  rewrite to_int_ok by nia. cbn [bind].
  rewrite to_int_ok by lia. cbn [bind].
  destruct inputArray as [|row0 rest] eqn:Ein; [congruence|]. rewrite <- Ein in *.
  assert (vec_get inputArray 0 = Ok row0) as ->.
  { rewrite (vec_get_ok inputArray 0 []); [now rewrite Ein|rewrite Ein; simpl; lia]. }
  cbn [bind].
  assert (width0 inputArray = Z.of_nat (length row0)) as Hw
      by (unfold width0; now rewrite Ein).
  rewrite Hw in Hf3.
  rewrite to_int_ok by nia. cbn [bind].
  rewrite new_vector_ok by nia. cbn [bind].
  rewrite new_vector_ok by lia. cbn [bind].
  set (zeroRow := repeat r0 (Z.to_nat (Z.of_nat (length row0) * m))).
  set (fs := Z.of_nat (length inputArray) - m * tau) in *.
  set (te0 := repeat zeroRow (Z.to_nat fs)).
  assert (0 <= fs) as Hfs by (unfold fs; lia).
  assert (Z.of_nat (length te0) = fs) as Hl0.
  { unfold te0. rewrite repeat_length. lia. }
  assert (Z.to_nat (Z.of_nat (length te0) - 0) <= Z.to_nat fs)%nat as Hfuel
      by (rewrite Hl0; lia).
  assert (1 <= m) as Hm1 by lia.
  destruct (embed_rows_run inputArray m tau Htau Hm1
              (Z.to_nat fs) 0 [] te0 (Z.le_refl 0) Hl0 Hfuel)
    as (te & Hrun & Hl & Hrows & Hrest).
  { rewrite Hl0. intros k Hk Hlt. rewrite Z.add_0_l in *. now apply Hf4. }
  rewrite Hl0 in Hrun, Hrows.
  exists te. split; [exact Hrun|].
  split; [lia|]. split.
  - intros i Hi Hmod.
    apply Z.mod_divide in Hmod; [|lia]. destruct Hmod as [k Hk].
    specialize (Hrows k). rewrite Z.add_0_l, <- Hk in Hrows.
    apply Hrows; nia.
  - intros i Hi Hmod.
    rewrite Hrest; [|lia|right; now rewrite Z.sub_0_r].
    unfold te0. rewrite nth_repeat_lt by lia.
    unfold zeroRow. now rewrite Hw.
Qed.

(** A call of [toTimeEmbedding] that returns, [m = 1] apart, was given a
    non-empty input of at least [m*tau] frames and computed no [int] outside
    the range of the type. *)
Lemma toTimeEmbedding_fits (inputArray te : matrix Real) (m tau : Z) :
  m <> 1 -> 1 <= tau ->
  toTimeEmbedding inputArray m tau = Ok te ->
  inputArray <> [] /\
  m * tau <= Z.of_nat (length inputArray) /\
  embedding_fits (Z.of_nat (length inputArray)) (width0 inputArray) m tau.
Proof.
  intros Hm Htau Hrun. unfold toTimeEmbedding in Hrun.
  assert ((m =? 1) = false) as E by now apply Z.eqb_neq.
  rewrite E in Hrun.
  apply bind_ok in Hrun. destruct Hrun as (increment & Hinc & Hrun).
  apply to_int_inv in Hinc. destruct Hinc as [-> Hinc].
  apply bind_ok in Hrun. destruct Hrun as (frameSize & Hfs & Hrun).
  apply to_int_inv in Hfs. destruct Hfs as [-> Hfs].
  apply bind_ok in Hrun. destruct Hrun as (row0 & Hrow0 & Hrun).
  apply (vec_get_inv _ _ _ []) in Hrow0. destruct Hrow0 as [Hne Hrow0].
  apply bind_ok in Hrun. destruct Hrun as (yDim & Hy & Hrun).
  apply to_int_inv in Hy. destruct Hy as [-> Hy].
  apply bind_ok in Hrun. destruct Hrun as (zeroRow & _ & Hrun).
  apply bind_ok in Hrun. destruct Hrun as (te0 & Hte0 & Hrun).
  apply new_vector_inv in Hte0. destruct Hte0 as [Hpos _].
  split; [intros ->; simpl in Hne; lia|]. split; [lia|].
  unfold embedding_fits, width0. change (Z.to_nat 0) with 0%nat in Hrow0.
  rewrite <- Hrow0.
  repeat split; try lia.
  intros k Hk Hlt.
  pose proof (embed_rows_fits _ _ _ _ Htau _ _ _ _ _ Hrun k Hk) as H.
  rewrite Z.add_0_l in H. now apply H.
Qed.

(** What a call of [toTimeEmbedding] returns, [m = 1] apart. *)
Lemma toTimeEmbedding_ok_rows (inputArray te : matrix Real) (m tau : Z) :
  2 <= m -> 1 <= tau ->
  toTimeEmbedding inputArray m tau = Ok te ->
  Z.of_nat (length te) = Z.of_nat (length inputArray) - m * tau /\
  (forall i, 0 <= i < Z.of_nat (length te) -> i mod tau = 0 ->
             nth (Z.to_nat i) te [] = stacked inputArray m tau i) /\
  (forall i, 0 <= i < Z.of_nat (length te) -> i mod tau <> 0 ->
             nth (Z.to_nat i) te [] =
             repeat r0 (Z.to_nat (width0 inputArray * m))).
Proof.
  intros Hm Htau Hrun.
  destruct (toTimeEmbedding_fits inputArray te m tau ltac:(lia) Htau Hrun)
    as (Hne & Hlen & Hfit).
  destruct (toTimeEmbedding_rows inputArray m tau Hm Htau Hne Hlen Hfit)
    as (te' & Hrun' & H).
  assert (te' = te) by congruence. now subst te'.
Qed.

(** [toTimeEmbedding] on a non-empty input of fewer than [m*tau] frames: the
    allocation of the output throws. *)
Lemma toTimeEmbedding_short (inputArray : matrix Real) (m tau : Z) :
  2 <= m -> 1 <= tau -> inputArray <> [] ->
  Z.of_nat (length inputArray) < m * tau ->
  m * tau <= int_max -> width0 inputArray * m <= int_max ->
  toTimeEmbedding inputArray m tau = Exc AllocFailure.
Proof.
  intros Hm Htau Hne Hlen Hfit Hw.
  pose proof int_min_negative as Hmin. pose proof int_max_positive as Hmax.
  unfold toTimeEmbedding.
  assert ((m =? 1) = false) as -> by (apply Z.eqb_neq; lia).
  rewrite to_int_ok by nia. cbn [bind].
  rewrite to_int_ok by lia. cbn [bind].
  destruct inputArray as [|row0 rest]; [congruence|].
  unfold width0 in Hw. cbn [nth] in Hw.
  cbn [vec_get Z.ltb Z.compare Z.to_nat nth_error bind].
  rewrite to_int_ok by nia. cbn [bind].
  rewrite new_vector_ok by nia. cbn [bind].
  now rewrite new_vector_negative by lia.
Qed.

Lemma toTimeEmbedding_identity (inputArray : matrix Real) (tau : Z) :
  toTimeEmbedding inputArray 1 tau = Ok inputArray.
Proof. reflexivity. Qed.


(** The only exception of [toTimeEmbedding] is the allocation error. *)
Lemma embed_row_no_exc (inputArray : matrix Real) (tau i stopIdx : Z) (e : exn) :
  forall fuel startTime tempRow te,
    embed_row fuel inputArray tau i stopIdx startTime tempRow te <> Exc e.
Proof.
  induction fuel as [|fuel IH]; intros startTime tempRow te; cbn [embed_row];
    destruct (startTime <? stopIdx); try discriminate.
  intros H. apply bind_exc in H. destruct H as [H|(src & _ & H)].
  - now apply vec_get_no_exc in H.
  - apply bind_exc in H. destruct H as [H|(te' & _ & H)].
    + now apply vec_set_no_exc in H.
    + apply bind_exc in H. destruct H as [H|(st' & _ & H)].
      * now apply to_int_no_exc in H.
      * now apply IH in H.
Qed.

Lemma embed_rows_no_exc (inputArray : matrix Real) (tau increment frameSize : Z)
    (e : exn) :
  forall fuel i tempRow te,
    embed_rows fuel inputArray tau increment frameSize i tempRow te <> Exc e.
Proof.
  induction fuel as [|fuel IH]; intros i tempRow te; cbn [embed_rows];
    destruct (i <? frameSize); try discriminate.
  intros H. apply bind_exc in H. destruct H as [H|(stopIdx & _ & H)].
  { now apply to_int_no_exc in H. }
  apply bind_exc in H. destruct H as [H|([tempRow' te'] & _ & H)].
  { now apply embed_row_no_exc in H. }
  apply bind_exc in H. destruct H as [H|(i' & _ & H)].
  - now apply to_int_no_exc in H.
  - now apply IH in H.
Qed.

Lemma toTimeEmbedding_exc (inputArray : matrix Real) (m tau : Z) (e : exn) :
  toTimeEmbedding inputArray m tau = Exc e -> e = AllocFailure.
Proof.
  unfold toTimeEmbedding. destruct (m =? 1); [discriminate|].
  intros H. apply bind_exc in H. destruct H as [H|(inc & _ & H)].
  { now apply to_int_no_exc in H. }
  apply bind_exc in H. destruct H as [H|(fs & _ & H)].
  { now apply to_int_no_exc in H. }
  apply bind_exc in H. destruct H as [H|(row0 & _ & H)].
  { now apply vec_get_no_exc in H. }
  apply bind_exc in H. destruct H as [H|(yDim & _ & H)].
  { now apply to_int_no_exc in H. }
  unfold new_vector in H.
  destruct (yDim <? 0); [simpl in H; congruence|].
  cbn [bind] in H.
  destruct (fs <? 0); [simpl in H; congruence|].
  cbn [bind] in H. now apply embed_rows_no_exc in H.
Qed.

(** C2, as amended.  For [m >= 2] and [tau >= 1], every output of
    [toTimeEmbedding] has [len - m*tau] rows, and every row of it whose
    index is a multiple of [tau] is exactly the concatenation of the input
    rows [i, i+tau, ..., i+(m-1)*tau].  There is a non-empty output whenever
    the input has more than [m*tau] frames, the frame count and the stacked
    width [m * inputArray[0].size()] being [int] values. *)
Theorem toTimeEmbedding_stride_rows (inputArray : matrix Real) (m tau : Z) :
  2 <= m -> 1 <= tau ->
  (forall te,
     toTimeEmbedding inputArray m tau = Ok te ->
     Z.of_nat (length te) = Z.of_nat (length inputArray) - m * tau /\
     forall i, 0 <= i < Z.of_nat (length te) -> i mod tau = 0 ->
               nth (Z.to_nat i) te [] = stacked inputArray m tau i) /\
  (m * tau < Z.of_nat (length inputArray) ->
   Z.of_nat (length inputArray) <= int_max ->
   width0 inputArray * m <= int_max ->
   exists te, toTimeEmbedding inputArray m tau = Ok te /\ te <> []).
Proof.
  intros Hm Htau. split.
  - intros te Hrun.
    destruct (toTimeEmbedding_ok_rows inputArray te m tau Hm Htau Hrun)
      as (Hl & Hrows & _).
    auto.
  - intros Hlen Hmax Hw.
    assert (inputArray <> []) as Hne.
    { intros ->. simpl in Hlen. nia. }
    destruct (toTimeEmbedding_rows inputArray m tau Hm Htau Hne ltac:(lia))
      as (te & Hrun & Hl & _).
    { apply embedding_fits_int; lia. }
    exists te. split; [exact Hrun|].
    intros ->. simpl in Hl. lia.
Qed.

(** C7, as amended.  For [m >= 2] and [tau >= 1] with [m*tau] an [int]
    value, the time embedding of a non-empty sequence shorter than [m*tau]
    frames produces no frames: the function has no check of the length, the
    call returns nothing, not even an empty result, and it does not signal
    [InvalidInput].  A sequence of exactly [m*tau] frames gives the empty
    result (the stacked width being an [int] value). *)
Theorem toTimeEmbedding_too_short (inputArray : matrix Real) (m tau : Z) :
  2 <= m -> 1 <= tau -> inputArray <> [] -> m * tau <= int_max ->
  (Z.of_nat (length inputArray) < m * tau ->
   (forall te, toTimeEmbedding inputArray m tau <> Ok te) /\
   toTimeEmbedding inputArray m tau <> Exc InvalidInput) /\
  (Z.of_nat (length inputArray) = m * tau ->
   width0 inputArray * m <= int_max ->
   toTimeEmbedding inputArray m tau = Ok []).
Proof.
  intros Hm Htau Hne Hfit. split.
  - intros Hlen. split.
    + intros te Hrun.
      destruct (toTimeEmbedding_fits inputArray te m tau ltac:(lia) Htau Hrun)
        as (_ & Hle & _).
      lia.
    + intros Hrun. apply toTimeEmbedding_exc in Hrun. discriminate.
  - intros Hlen Hw.
    destruct (toTimeEmbedding_rows inputArray m tau Hm Htau Hne ltac:(lia))
      as (te & Hrun & Hl & _).
    { apply embedding_fits_int; lia. }
    destruct te; [exact Hrun|]. simpl in Hl. lia.
Qed.



End Embedding.

(** ** Exceptions of the transposition helpers *)

Section TranspositionFacts.

Context {Real : Type} {RA : RealArith Real}.

Lemma argmax_exc (input : frame Real) (e : exn) :
  argmax input = Exc e -> e = EmptyArgmax.
Proof. destruct input; simpl; congruence. Qed.

Lemma column_sum_no_exc (rows : matrix Real) (j : Z) (e : exn) :
  forall tSum, column_sum rows j tSum <> Exc e.
Proof.
  induction rows as [|row rows IH]; intros tSum; simpl; [discriminate|].
  intros H. apply bind_exc in H. destruct H as [H|(x & _ & H)].
  - now apply vec_get_no_exc in H.
  - now apply IH in H.
Qed.

Lemma globalAverageChroma_no_exc (inputFeature : matrix Real) (e : exn) :
  globalAverageChroma inputFeature <> Exc e.
Proof.
  unfold globalAverageChroma. intros H.
  apply bind_exc in H. destruct H as [H|(row0 & _ & H)].
  - now apply vec_get_no_exc in H.
  - apply bind_exc in H. destruct H as [H|(g & _ & H)]; [|discriminate].
    apply mapM_exc in H. destruct H as (j & _ & H).
    now apply column_sum_no_exc in H.
Qed.

Lemma dotProduct_no_exc (xs ys : frame Real) (e : exn) :
  dotProduct xs ys <> Exc e.
Proof. unfold dotProduct. destruct (Nat.eqb _ _); discriminate. Qed.

Lemma dotProduct_ok (xs ys : frame Real) :
  length xs = length ys -> dotProduct xs ys = Ok (inner_product xs ys).
Proof.
  intros H. unfold dotProduct. now rewrite H, Nat.eqb_refl.
Qed.

Lemma dotProduct_inv (xs ys : frame Real) (x : Real) :
  dotProduct xs ys = Ok x -> length xs = length ys.
Proof.
  unfold dotProduct. destruct (Nat.eqb _ _) eqn:E; [|discriminate].
  intros _. now apply Nat.eqb_eq.
Qed.

Lemma shift_values_no_exc (a b : frame Real) (l : list Z) (e : exn) :
  mapM (fun k => chromaBcopy <- rotate_end b k ;; dotProduct a chromaBcopy) l
  <> Exc e.
Proof.
  intros H. apply mapM_exc in H. destruct H as (k & _ & H).
  apply bind_exc in H. destruct H as [H|(c & _ & H)].
  - now apply rotate_end_no_exc in H.
  - now apply dotProduct_no_exc in H.
Qed.

Lemma optimalTranspositionIndex_exc (chromaA chromaB : matrix Real) (nshifts : Z)
    (e : exn) :
  optimalTranspositionIndex chromaA chromaB nshifts = Exc e -> e = EmptyArgmax.
Proof.
  unfold optimalTranspositionIndex. intros H.
  apply bind_exc in H. destruct H as [H|(ga & _ & H)].
  { now apply globalAverageChroma_no_exc in H. }
  apply bind_exc in H. destruct H as [H|(gb & _ & H)].
  { now apply globalAverageChroma_no_exc in H. }
  apply bind_exc in H. destruct H as [H|(vs & _ & H)].
  { now apply shift_values_no_exc in H. }
  now apply argmax_exc in H.
Qed.

Lemma frame_similarity_exc (a b : frame Real) (nshifts : Z) (mc mm : Real)
    (e : exn) :
  frame_similarity a b nshifts mc mm = Exc e -> e = EmptyArgmax.
Proof.
  unfold frame_similarity. intros H.
  apply bind_exc in H. destruct H as [H|(vs & _ & H)].
  { now apply shift_values_no_exc in H. }
  apply bind_exc in H. destruct H as [H|(k & _ & H)]; [|discriminate].
  now apply argmax_exc in H.
Qed.

Lemma chromaBinarySimMatrix_exc (chromaA chromaB : matrix Real) (nshifts : Z)
    (mc mm : Real) (e : exn) :
  chromaBinarySimMatrix chromaA chromaB nshifts mc mm = Exc e -> e = EmptyArgmax.
Proof.
  unfold chromaBinarySimMatrix. intros H.
  apply mapM_exc in H. destruct H as (a & _ & H).
  apply mapM_exc in H. destruct H as (b & _ & H).
  now apply frame_similarity_exc in H.
Qed.

End TranspositionFacts.

(** ** Scaling the chroma frames *)

Lemma vec_get_map {A B : Type} (f : A -> B) (v : list A) (i : Z) :
  vec_get (map f v) i = omap f (vec_get v i).
Proof.
  unfold vec_get. destruct (i <? 0); [reflexivity|].
  rewrite nth_error_map. destruct (nth_error v (Z.to_nat i)); reflexivity.
Qed.

Lemma rotate_end_map {A B : Type} (f : A -> B) (v : list A) (k : Z) :
  rotate_end (map f v) k = omap (map f) (rotate_end v k).
Proof.
  unfold rotate_end. rewrite length_map.
  destruct ((0 <=? k) && (k <=? Z.of_nat (length v))); [|reflexivity].
  cbn [omap]. now rewrite map_app, skipn_map, firstn_map.
Qed.

Lemma mapM_omap {A B : Type} (f f' : A -> outcome B) (g : B -> B) (l : list A) :
  (forall a, f' a = omap g (f a)) ->
  mapM f' l = omap (map g) (mapM f l).
Proof.
  intros Hf. induction l as [|a l IH]; [reflexivity|].
  cbn [mapM]. rewrite Hf, IH.
  destruct (f a); [|reflexivity|reflexivity].
  destruct (mapM f l); reflexivity.
Qed.

Section ScalingFacts.

Context {Real : Type} {RA : RealArith Real} {EA : ExactArith Real}.

Variable c : Real.
Hypothesis c_positive : rltb r0 c = true.

Lemma column_sum_scale (rows : matrix Real) (j : Z) :
  forall tSum,
    column_sum (scale_matrix c rows) j (rmul c tSum) =
    omap (rmul c) (column_sum rows j tSum).
Proof.
  induction rows as [|row rows IH]; intros tSum; [reflexivity|].
  cbn [scale_matrix map column_sum]. unfold scale_frame at 1.
  rewrite vec_get_map.
  destruct (vec_get row j) as [x| |]; [|reflexivity|reflexivity].
  cbn [omap bind]. rewrite <- rmul_radd. apply IH.
Qed.

Lemma max_from_scale (l : frame Real) :
  forall best,
    max_from (rmul c best) (map (rmul c) l) = rmul c (max_from best l).
Proof.
  induction l as [|x l IH]; intros best; [reflexivity|].
  cbn [map max_from]. rewrite rltb_scale by assumption.
  destruct (rltb best x); apply IH.
Qed.

(** Scaling a vector by [c] before [normalize] either changes nothing (the
    maximum is not zero and cancels) or scales the result (the maximum is
    zero and [normalize] does nothing). *)
Lemma normalize_scale (v : frame Real) :
  normalize (map (rmul c) v) = normalize v \/
  normalize (map (rmul c) v) = map (rmul c) (normalize v).
Proof.
  destruct v as [|x l]; [now left|].
  unfold normalize. cbn [map max_element].
  rewrite max_from_scale, reqb_scale by assumption.
  destruct (reqb (max_from x l) r0) eqn:E; [now right|].
  left. cbn [map]. rewrite map_map. f_equal.
  - now apply rdiv_scale.
  - apply map_ext. intros y. now apply rdiv_scale.
Qed.

Lemma globalAverageChroma_scale (M : matrix Real) :
  globalAverageChroma (scale_matrix c M) = globalAverageChroma M \/
  globalAverageChroma (scale_matrix c M) =
  omap (map (rmul c)) (globalAverageChroma M).
Proof.
  unfold globalAverageChroma, scale_matrix. rewrite vec_get_map.
  destruct (vec_get M 0) as [row0| |]; cbn [omap bind]; auto.
  replace (length (scale_frame c row0)) with (length row0)
    by (unfold scale_frame; now rewrite length_map).
  rewrite (mapM_omap (B:=Real)
             (fun j => column_sum M j r0)
             (fun j => column_sum (map (scale_frame c) M) j r0) (rmul c)).
  - destruct (mapM (fun j => column_sum M j r0) _) as [sums| |];
      cbn [omap bind]; auto.
    destruct (normalize_scale sums) as [-> | ->]; auto.
  - intros j. rewrite <- (rmul_zero c) at 1. apply column_sum_scale.
Qed.

Lemma inner_product_scale_l (a b : frame Real) :
  inner_product (map (rmul c) a) b = rmul c (inner_product a b).
Proof.
  unfold inner_product. rewrite <- (rmul_zero c) at 1.
  generalize r0 as acc. revert b.
  induction a as [|x a IH]; intros b acc; [reflexivity|].
  destruct b as [|y b]; [reflexivity|].
  cbn [map combine fold_left fst snd].
  rewrite rmul_assoc_l, <- rmul_radd. apply IH.
Qed.

Lemma inner_product_scale_r (a b : frame Real) :
  inner_product a (map (rmul c) b) = rmul c (inner_product a b).
Proof.
  unfold inner_product. rewrite <- (rmul_zero c) at 1.
  generalize r0 as acc. revert b.
  induction a as [|x a IH]; intros b acc; [reflexivity|].
  destruct b as [|y b]; [reflexivity|].
  cbn [map combine fold_left fst snd].
  rewrite rmul_assoc_r, <- rmul_radd. apply IH.
Qed.

Lemma dotProduct_scale_l (a b : frame Real) :
  dotProduct (map (rmul c) a) b = omap (rmul c) (dotProduct a b).
Proof.
  unfold dotProduct. rewrite length_map.
  destruct (Nat.eqb _ _); [|reflexivity].
  cbn [omap]. now rewrite inner_product_scale_l.
Qed.

Lemma dotProduct_scale_r (a b : frame Real) :
  dotProduct a (map (rmul c) b) = omap (rmul c) (dotProduct a b).
Proof.
  unfold dotProduct. rewrite length_map.
  destruct (Nat.eqb _ _); [|reflexivity].
  cbn [omap]. now rewrite inner_product_scale_r.
Qed.

Lemma argmax_from_scale (l : frame Real) :
  forall best bi i,
    argmax_from (rmul c best) bi i (map (rmul c) l) = argmax_from best bi i l.
Proof.
  induction l as [|x l IH]; intros best bi i; [reflexivity|].
  cbn [map argmax_from]. rewrite rltb_scale by assumption.
  destruct (rltb best x); apply IH.
Qed.

Lemma argmax_scale (l : frame Real) :
  argmax (map (rmul c) l) = argmax l.
Proof.
  destruct l as [|x l]; [reflexivity|].
  cbn [map argmax]. now rewrite argmax_from_scale.
Qed.

Lemma optimalTranspositionIndex_globals (chromaA chromaB : matrix Real)
    (nshifts : Z) :
  optimalTranspositionIndex chromaA chromaB nshifts =
  (ga <- globalAverageChroma chromaA ;;
   gb <- globalAverageChroma chromaB ;;
   oti_of_globals ga gb nshifts).
Proof. reflexivity. Qed.

Lemma oti_of_globals_scale_l (ga gb : frame Real) (nshifts : Z) :
  oti_of_globals (map (rmul c) ga) gb nshifts = oti_of_globals ga gb nshifts.
Proof.
  unfold oti_of_globals.
  rewrite (mapM_omap (B:=Real)
             (fun i => chromaBcopy <- rotate_end gb i ;;
                       dotProduct ga chromaBcopy)
             _ (rmul c)).
  - destruct (mapM _ (shifts nshifts)) as [vs| |]; cbn [omap bind]; auto.
    apply argmax_scale.
  - intros i. destruct (rotate_end gb i); cbn [omap bind]; auto.
    apply dotProduct_scale_l.
Qed.

Lemma oti_of_globals_scale_r (ga gb : frame Real) (nshifts : Z) :
  oti_of_globals ga (map (rmul c) gb) nshifts = oti_of_globals ga gb nshifts.
Proof.
  unfold oti_of_globals.
  rewrite (mapM_omap (B:=Real)
             (fun i => chromaBcopy <- rotate_end gb i ;;
                       dotProduct ga chromaBcopy)
             _ (rmul c)).
  - destruct (mapM _ (shifts nshifts)) as [vs| |]; cbn [omap bind]; auto.
    apply argmax_scale.
  - intros i. rewrite rotate_end_map.
    destruct (rotate_end gb i); cbn [omap bind]; auto.
    apply dotProduct_scale_r.
Qed.

Lemma optimalTranspositionIndex_scale_l (chromaA chromaB : matrix Real)
    (nshifts : Z) :
  optimalTranspositionIndex (scale_matrix c chromaA) chromaB nshifts =
  optimalTranspositionIndex chromaA chromaB nshifts.
Proof.
  rewrite !optimalTranspositionIndex_globals.
  destruct (globalAverageChroma_scale chromaA) as [-> | ->]; [reflexivity|].
  destruct (globalAverageChroma chromaA) as [ga| |]; cbn [omap bind]; auto.
  destruct (globalAverageChroma chromaB) as [gb| |]; cbn [omap bind]; auto.
  apply oti_of_globals_scale_l.
Qed.

Lemma optimalTranspositionIndex_scale_r (chromaA chromaB : matrix Real)
    (nshifts : Z) :
  optimalTranspositionIndex chromaA (scale_matrix c chromaB) nshifts =
  optimalTranspositionIndex chromaA chromaB nshifts.
Proof.
  rewrite !optimalTranspositionIndex_globals.
  destruct (globalAverageChroma_scale chromaB) as [-> | ->]; [reflexivity|].
  destruct (globalAverageChroma chromaA) as [ga| |]; cbn [omap bind]; auto.
  destruct (globalAverageChroma chromaB) as [gb| |]; cbn [omap bind]; auto.
  apply oti_of_globals_scale_r.
Qed.

End ScalingFacts.

(** C8, as amended.  Over exact real arithmetic (an ordered field: no
    rounding, no overflow), for every positive scalar [c], scaling
    every frame of the first sequence, of the second sequence, or of both by
    [c] leaves the result of [optimalTranspositionIndex] unchanged, whatever
    the two sequences and the number of shifts. *)
Theorem optimalTranspositionIndex_scaling {Real : Type} {RA : RealArith Real}
    {EA : ExactArith Real} (c : Real) (chromaA chromaB : matrix Real)
    (nshifts : Z) :
  rltb r0 c = true ->
  chromaA <> [] -> chromaB <> [] -> 0 <= nshifts ->
  optimalTranspositionIndex (scale_matrix c chromaA) chromaB nshifts =
    optimalTranspositionIndex chromaA chromaB nshifts /\
  optimalTranspositionIndex chromaA (scale_matrix c chromaB) nshifts =
    optimalTranspositionIndex chromaA chromaB nshifts /\
  optimalTranspositionIndex (scale_matrix c chromaA) (scale_matrix c chromaB)
                            nshifts =
    optimalTranspositionIndex chromaA chromaB nshifts.
Proof.
  intros Hc _ _ _. split; [|split].
  - now apply optimalTranspositionIndex_scale_l.
  - now apply optimalTranspositionIndex_scale_r.
  - rewrite optimalTranspositionIndex_scale_l by assumption.
    now apply optimalTranspositionIndex_scale_r.
Qed.

(** ** Matrices *)

Section MatrixFacts.

Context {Real : Type} {RA : RealArith Real} {ML : MathLib Real}.

Lemma length_tabulate (rows cols : nat) (f : nat -> nat -> Real) :
  length (tabulate rows cols f) = rows.
Proof. unfold tabulate. now rewrite length_map, length_seq. Qed.

Lemma nth_tabulate (rows cols : nat) (f : nat -> nat -> Real) (k : nat) :
  (k < rows)%nat ->
  nth k (tabulate rows cols f) [] = map (fun l => f k l) (seq 0 cols).
Proof.
  intros Hk. unfold tabulate.
  rewrite (nth_indep _ [] (map (fun l => f 0%nat l) (seq 0 cols)))
    by (now rewrite length_map, length_seq).
  rewrite (map_nth (fun k => map (fun l => f k l) (seq 0 cols))).
  now rewrite seq_nth.
Qed.

Lemma row_length_tabulate (rows cols : nat) (f : nat -> nat -> Real) row :
  In row (tabulate rows cols f) -> length row = cols.
Proof.
  unfold tabulate. intros Hin. apply in_map_iff in Hin.
  destruct Hin as (k & <- & _). now rewrite length_map, length_seq.
Qed.

Lemma cols0_tabulate (rows cols : nat) (f : nat -> nat -> Real) :
  (0 < rows)%nat -> cols0 (tabulate rows cols f) = cols.
Proof.
  intros Hr. unfold cols0. rewrite nth_tabulate by assumption.
  now rewrite length_map, length_seq.
Qed.

Lemma at2_tabulate (rows cols : nat) (f : nat -> nat -> Real) (k l : nat) :
  (k < rows)%nat -> (l < cols)%nat -> at2 (tabulate rows cols f) k l = f k l.
Proof.
  intros Hk Hl. unfold at2. rewrite nth_tabulate by assumption.
  rewrite (nth_indep _ r0 (f k 0%nat)) by (now rewrite length_map, length_seq).
  rewrite (map_nth (fun l => f k l)). now rewrite seq_nth.
Qed.

Lemma length_pairwiseDistance (m n : matrix Real) :
  length (pairwiseDistance m n) = length m.
Proof. unfold pairwiseDistance. apply length_map. Qed.

Lemma cols0_pairwiseDistance (m n : matrix Real) :
  m <> [] -> cols0 (pairwiseDistance m n) = length n.
Proof.
  destruct m as [|a m]; [congruence|]. intros _.
  unfold cols0, pairwiseDistance. simpl. apply length_map.
Qed.

Lemma length_rotate_end {A : Type} (v v' : list A) (k : Z) :
  rotate_end v k = Ok v' -> length v' = length v.
Proof.
  unfold rotate_end.
  destruct ((0 <=? k) && (k <=? Z.of_nat (length v))); [|discriminate].
  intros [= <-].
  rewrite length_app, length_skipn, length_firstn. lia.
Qed.

End MatrixFacts.

(** ** The batch algorithm *)

Section BatchFacts.

Context {Real : Type} {RA : RealArith Real} {ML : MathLib Real}.

Lemma length_similarityX (cfg : Standard.Config Real) (D : matrix Real)
    (rows cols : nat) :
  length (Standard.similarityX cfg D rows cols) = rows.
Proof.
  unfold Standard.similarityX, heavisideStepFunction, thresholded.
  destruct (Standard.optimiseThreshold cfg).
  - apply repeat_length.
  - now rewrite length_map, length_tabulate.
Qed.

Lemma cols0_similarityX (cfg : Standard.Config Real) (D : matrix Real)
    (rows cols : nat) :
  (0 < rows)%nat -> cols0 (Standard.similarityX cfg D rows cols) = cols.
Proof.
  intros Hr.
  unfold Standard.similarityX, heavisideStepFunction, thresholded, cols0.
  destruct (Standard.optimiseThreshold cfg).
  - rewrite nth_repeat_lt by assumption. apply repeat_length.
  - change (@nil Real) with (map heaviside []).
    rewrite map_nth, length_map, nth_tabulate by assumption.
    now rewrite length_map, length_seq.
Qed.

Lemma length_tSimilarityY (kappa : Real) (D : matrix Real) (yRows yCols : nat) :
  length (tSimilarityY kappa D yRows yCols) = yCols.
Proof. apply length_tabulate. Qed.

Lemma cols0_tSimilarityY (kappa : Real) (D : matrix Real) (yRows yCols : nat) :
  (0 < yCols)%nat -> cols0 (tSimilarityY kappa D yRows yCols) = yRows.
Proof. apply cols0_tabulate. Qed.

Lemma euclidean_csm_empty_query (cfg : Standard.Config Real) (tB : matrix Real) :
  Standard.euclidean_csm cfg [] tB = Exc EmptyResult.
Proof. reflexivity. Qed.

(** The product of two arrays of the same shape. *)
Lemma array_product_same_shape (A B : matrix Real) :
  length A = length B -> cols0 A = cols0 B ->
  array_product A B =
  Ok (tabulate (length A) (cols0 A) (fun i j => rmul (at2 A i j) (at2 B i j))).
Proof.
  intros Hl Hc. unfold array_product. now rewrite Hl, Hc, !Nat.eqb_refl.
Qed.

Lemma array_product_no_exc (A B : matrix Real) (e : exn) :
  array_product A B <> Exc e.
Proof. unfold array_product. destruct (_ && _); discriminate. Qed.

(** The distance branch on two non-empty embeddings: both masks have
    [length tA] rows and [length tB] columns, and so has their product. *)
Lemma euclidean_csm_nonempty (cfg : Standard.Config Real) (tA tB : matrix Real) :
  tA <> [] -> tB <> [] ->
  Standard.euclidean_csm cfg tA tB =
  Ok (maskX cfg tA tB, maskY cfg tA tB,
      tabulate (length tA) (length tB)
               (fun i j => rmul (at2 (maskX cfg tA tB) i j)
                                (at2 (maskY cfg tA tB) i j))).
Proof.
  intros HA HB.
  assert (0 < length tA)%nat as HlA by (destruct tA; [congruence|simpl; lia]).
  assert (0 < length tB)%nat as HlB by (destruct tB; [congruence|simpl; lia]).
  unfold Standard.euclidean_csm.
  destruct (pairwiseDistance tA tB) as [|d0 ds] eqn:Epd.
  { apply (f_equal (@length _)) in Epd.
    rewrite length_pairwiseDistance in Epd. simpl in Epd. lia. }
  rewrite <- Epd. clear Epd d0 ds.
  pose proof (cols0_pairwiseDistance tA tB HA) as Hc0.
  assert (length (transpose (pairwiseDistance tA tB)) = length tB) as HlT.
  { unfold transpose. now rewrite length_tabulate. }
  rewrite (vec_get_ok _ 0 []) by (rewrite HlT; lia). cbn [bind Z.to_nat].
  assert (length (nth 0%nat (transpose (pairwiseDistance tA tB)) []) = length tA)
    as Hrow0.
  { unfold transpose. rewrite nth_tabulate by (rewrite Hc0; exact HlB).
    now rewrite length_map, length_seq, length_pairwiseDistance. }
  rewrite Hrow0, HlT, length_pairwiseDistance, Hc0.
  fold (maskX cfg tA tB). fold (maskY cfg tA tB).
  pose proof (cols0_similarityX cfg (pairwiseDistance tA tB)
                (length tA) (length tB) HlA) as HcX.
  pose proof (length_tSimilarityY (Standard.kappa cfg)
                (transpose (pairwiseDistance tA tB)) (length tB) (length tA))
    as HlY.
  pose proof (length_similarityX cfg (pairwiseDistance tA tB)
                (length tA) (length tB)) as HlX.
  pose proof (cols0_tSimilarityY (Standard.kappa cfg)
                (transpose (pairwiseDistance tA tB)) (length tB) (length tA) HlA)
    as HcY.
  fold (maskX cfg tA tB) in HcX, HlX. fold (maskY cfg tA tB) in HlY, HcY.
  rewrite array_product_same_shape by congruence.
  cbn [bind]. now rewrite HlX, HcX.
Qed.

Lemma euclidean_csm_empty_reference (cfg : Standard.Config Real) (tA : matrix Real) :
  tA <> [] -> Standard.euclidean_csm cfg tA [] = Undef.
Proof.
  intros HA. destruct tA as [|a tA]; [congruence|]. reflexivity.
Qed.

Lemma euclidean_csm_exc (cfg : Standard.Config Real) (tA tB : matrix Real)
    (e : exn) :
  Standard.euclidean_csm cfg tA tB = Exc e -> e = EmptyResult.
Proof.
  destruct tA as [|a tA]; [rewrite euclidean_csm_empty_query; congruence|].
  destruct tB as [|b tB].
  - now rewrite euclidean_csm_empty_reference.
  - rewrite euclidean_csm_nonempty by discriminate. discriminate.
Qed.


Lemma rotate_by_oti_exc (cfg : Standard.Config Real) (q r : matrix Real) (e : exn) :
  Standard.rotate_by_oti cfg q r = Exc e -> e = EmptyArgmax.
Proof.
  unfold Standard.rotate_by_oti. destruct (Standard.oti cfg); [|discriminate].
  intros H. apply bind_exc in H. destruct H as [H|(k & _ & H)].
  - now apply optimalTranspositionIndex_exc in H.
  - now apply rotate_end_no_exc in H.
Qed.

(** The exceptions of the body on non-empty inputs. *)
Lemma compute_csm_exc (cfg : Standard.Config Real) (q r : matrix Real) (e : exn) :
  q <> [] -> r <> [] ->
  Standard.compute_csm cfg q r = Exc e ->
  e = AllocFailure \/ e = EmptyArgmax \/ e = EmptyResult.
Proof.
  intros Hq Hr. unfold Standard.compute_csm.
  destruct q as [|a q']; [congruence|]. destruct r as [|b r']; [congruence|].
  destruct (Standard.otiBinary cfg).
  - destruct (Standard.toBlocked cfg); intros H.
    + apply bind_exc in H. destruct H as [H|(tA & _ & H)].
      { left. now apply toTimeEmbedding_exc in H. }
      apply bind_exc in H. destruct H as [H|(tB & _ & H)].
      { left. now apply toTimeEmbedding_exc in H. }
      right. left. now apply chromaBinarySimMatrix_exc in H.
    + right. left. now apply chromaBinarySimMatrix_exc in H.
  - intros H.
    apply bind_exc in H. destruct H as [H|(r1 & _ & H)].
    { right. left. now apply rotate_by_oti_exc in H. }
    apply bind_exc in H. destruct H as [H|(tA & _ & H)].
    { left. now apply toTimeEmbedding_exc in H. }
    apply bind_exc in H. destruct H as [H|(tB & _ & H)].
    { left. now apply toTimeEmbedding_exc in H. }
    apply bind_exc in H. destruct H as [H|(res & _ & H)]; [|discriminate].
    right. right. now apply euclidean_csm_exc in H.
Qed.

(** The distance branch of the body, step by step. *)
Lemma compute_csm_distance (cfg : Standard.Config Real) (q r : matrix Real) :
  Standard.otiBinary cfg = false -> q <> [] -> r <> [] ->
  Standard.compute_csm cfg q r =
  (r' <- Standard.rotate_by_oti cfg q r ;;
   tA <- toTimeEmbedding q (Standard.embedDimension cfg) (Standard.tau cfg) ;;
   tB <- toTimeEmbedding r' (Standard.embedDimension cfg) (Standard.tau cfg) ;;
   res <- Standard.euclidean_csm cfg tA tB ;;
   Ok (snd res)).
Proof.
  intros Hob Hq Hr. unfold Standard.compute_csm.
  destruct q as [|a q']; [congruence|]. destruct r as [|b r']; [congruence|].
  now rewrite Hob.
Qed.

(** The memory of a call, step by step: the ports keep the two inputs, and
    the body computes the function [compute_csm] of the two inputs. *)
Lemma compute_body_ports (cfg : Standard.Config Real) (mem : Standard.Memory) :
  match Standard.compute_body cfg mem with
  | Standard.Done mem' | Standard.Raised _ mem' =>
      Standard._queryFeature (Standard.ports mem') =
        Standard._queryFeature (Standard.ports mem) /\
      Standard._referenceFeature (Standard.ports mem') =
        Standard._referenceFeature (Standard.ports mem)
  | Standard.Stuck => True
  end.
Proof.
  unfold Standard.compute_body.
  destruct (Standard.queryFeature (Standard.locals mem)); [auto|].
  destruct (Standard.referenceFeature (Standard.locals mem)); [auto|].
  destruct (Standard.otiBinary cfg).
  - destruct (Standard.toBlocked cfg); repeat step_call.
  - unfold Standard.rotate_local.
    destruct (Standard.oti cfg); repeat step_call.
Qed.

Lemma compute_functional (cfg : Standard.Config Real) (p : Standard.Ports Real) :
  Standard.compute cfg p =
  Standard.finish p (Standard.compute_csm cfg (Standard._queryFeature p)
                                          (Standard._referenceFeature p)).
Proof.
  unfold Standard.compute, Standard.compute_body, Standard.compute_csm,
    Standard.copy_inputs.
  cbn [Standard.locals Standard.queryFeature Standard.referenceFeature].
  destruct (Standard._queryFeature p) as [|a q']; [reflexivity|].
  destruct (Standard._referenceFeature p) as [|b r']; [reflexivity|].
  destruct (Standard.otiBinary cfg).
  - destruct (Standard.toBlocked cfg); repeat step_call.
  - unfold Standard.rotate_local, Standard.rotate_by_oti.
    destruct (Standard.oti cfg); repeat step_call.
Qed.

(** C1, as amended.  In distance mode, on non-empty inputs whose embedded
    sequences are non-empty, [compute] returns, the two masks built by the
    run have the shape of the output, one row per embedded query frame and
    one column per embedded reference frame, and entry [(i,j)] of the output
    is [similarityX[i][j] * tSimilarityY[i][j]]: the product of the masks is
    taken entry by entry. *)
Theorem compute_distance_product (cfg : Standard.Config Real)
    (p : Standard.Ports Real) (r' tA tB : matrix Real) :
  Standard.otiBinary cfg = false ->
  Standard._queryFeature p <> [] ->
  Standard._referenceFeature p <> [] ->
  Standard.rotate_by_oti cfg (Standard._queryFeature p)
                         (Standard._referenceFeature p) = Ok r' ->
  toTimeEmbedding (Standard._queryFeature p)
                  (Standard.embedDimension cfg) (Standard.tau cfg) = Ok tA ->
  toTimeEmbedding r' (Standard.embedDimension cfg) (Standard.tau cfg) = Ok tB ->
  tA <> [] -> tB <> [] ->
  exists p' similarityX tSimilarityY,
    Standard.compute cfg p = (Standard.Returned, p') /\
    Standard.euclidean_csm cfg tA tB =
      Ok (similarityX, tSimilarityY, Standard._csm p') /\
    (length similarityX = length tA /\ cols0 similarityX = length tB) /\
    (length tSimilarityY = length tA /\ cols0 tSimilarityY = length tB) /\
    length (Standard._csm p') = length tA /\
    (forall row, In row (Standard._csm p') -> length row = length tB) /\
    forall i j, (i < length tA)%nat -> (j < length tB)%nat ->
      at2 (Standard._csm p') i j =
      rmul (at2 similarityX i j) (at2 tSimilarityY i j).
Proof.
  intros Hob Hq Hr Hrot HA HB HneA HneB.
  pose proof (euclidean_csm_nonempty cfg tA tB HneA HneB) as He.
  assert (0 < length tA)%nat as HlA by (destruct tA; [congruence|simpl; lia]).
  eexists (Standard.set_csm p _), (maskX cfg tA tB), (maskY cfg tA tB).
  split; [|split; [|split; [|split; [|split; [|split]]]]].
  - rewrite compute_functional.
    rewrite compute_csm_distance by assumption.
    rewrite Hrot. cbn [bind]. rewrite HA. cbn [bind]. rewrite HB. cbn [bind].
    rewrite He. reflexivity.
  - exact He.
  - split; [apply length_similarityX|now apply cols0_similarityX].
  - split; [apply length_tSimilarityY|now apply cols0_tSimilarityY].
  - cbn [Standard._csm Standard.set_csm snd]. apply length_tabulate.
  - cbn [Standard._csm Standard.set_csm snd]. intros row Hin.
    now apply row_length_tabulate in Hin.
  - intros i j Hi Hj. cbn [Standard._csm Standard.set_csm snd].
    now rewrite at2_tabulate by lia.
Qed.


(** C4, as amended.  In OTI-binary mode on non-empty inputs, [compute] with
    [toBlocked = false] ends as [chromaBinarySimMatrix] on the raw inputs
    with [noti] shifts does; with [toBlocked = true] it ends in the same way
    whenever the two time embeddings it builds first can be built.  They can
    be built when [embedDimension = 1], or [embedDimension >= 2], [tau >= 1]
    and both inputs have at least [embedDimension*tau] frames, the frame
    counts and stacked widths being [int] values.  When
    [embedDimension >= 2], [tau >= 1] and an input has fewer than
    [embedDimension*tau] frames ([embedDimension*tau] and the frame counts
    being [int] values), [compute] with [toBlocked = true] returns no
    matrix. *)
Theorem compute_otiBinary_toBlocked (cfg : Standard.Config Real)
    (p : Standard.Ports Real) :
  Standard.otiBinary cfg = true ->
  Standard._queryFeature p <> [] ->
  Standard._referenceFeature p <> [] ->
  let raw := Standard.finish p
               (chromaBinarySimMatrix (Standard._queryFeature p)
                  (Standard._referenceFeature p) (Standard.noti cfg)
                  Standard.mathcCoef Standard.mismatchCoef) in
  let embeds (input : matrix Real) :=
    exists te, toTimeEmbedding input (Standard.embedDimension cfg)
                 (Standard.tau cfg) = Ok te in
  let fits (input : matrix Real) :=
    Standard.embedDimension cfg * Standard.tau cfg
      <= Z.of_nat (length input) <= int_max /\
    width0 input * Standard.embedDimension cfg <= int_max in
  let short (input : matrix Real) :=
    Z.of_nat (length input) < Standard.embedDimension cfg * Standard.tau cfg in
  Standard.compute (Standard.with_toBlocked cfg false) p = raw /\
  (embeds (Standard._queryFeature p) /\ embeds (Standard._referenceFeature p) ->
   Standard.compute (Standard.with_toBlocked cfg true) p = raw) /\
  (Standard.embedDimension cfg = 1 \/
   (2 <= Standard.embedDimension cfg /\ 1 <= Standard.tau cfg /\
    fits (Standard._queryFeature p) /\ fits (Standard._referenceFeature p)) ->
   embeds (Standard._queryFeature p) /\ embeds (Standard._referenceFeature p)) /\
  (2 <= Standard.embedDimension cfg -> 1 <= Standard.tau cfg ->
   Standard.embedDimension cfg * Standard.tau cfg <= int_max ->
   Z.of_nat (length (Standard._queryFeature p)) <= int_max ->
   Z.of_nat (length (Standard._referenceFeature p)) <= int_max ->
   short (Standard._queryFeature p) \/ short (Standard._referenceFeature p) ->
   forall p', Standard.compute (Standard.with_toBlocked cfg true) p
              <> (Standard.Returned, p')).
Proof.
  intros Hob Hq Hr raw embeds fits short.
  unfold raw. rewrite !compute_functional. unfold Standard.compute_csm.
  destruct (Standard._queryFeature p) as [|a q'] eqn:Eq; [congruence|].
  destruct (Standard._referenceFeature p) as [|b r'] eqn:Er; [congruence|].
  cbn [Standard.otiBinary Standard.toBlocked Standard.with_toBlocked
       Standard.noti Standard.embedDimension Standard.tau].
  rewrite Hob. split; [reflexivity|]. split; [|split].
  - intros [(tA & ->) (tB & ->)]. reflexivity.
  - intros [Hm1|(Hm & Htau & [HlA HwA] & [HlB HwB])].
    + unfold embeds. rewrite Hm1.
      split; eexists; apply toTimeEmbedding_identity.
    + split.
      * destruct (toTimeEmbedding_rows (a :: q') _ _ Hm Htau)
          as (te & Hrun & _); [discriminate|lia| |now exists te].
        apply embedding_fits_int; lia.
      * destruct (toTimeEmbedding_rows (b :: r') _ _ Hm Htau)
          as (te & Hrun & _); [discriminate|lia| |now exists te].
        apply embedding_fits_int; lia.
  - intros Hm Htau _ _ _ Hshort p' Hrun. unfold short in Hshort.
    destruct (toTimeEmbedding (a :: q') _ _) as [tA| |] eqn:EA;
      cbn [bind Standard.finish] in Hrun; try discriminate.
    destruct (toTimeEmbedding (b :: r') _ _) as [tB| |] eqn:EB;
      cbn [bind Standard.finish] in Hrun; try discriminate.
    apply toTimeEmbedding_fits in EA; [|lia|assumption].
    apply toTimeEmbedding_fits in EB; [|lia|assumption].
    lia.
Qed.

(** C9.  [compute] throws the empty-input exception exactly when the query
    or the reference feature matrix is empty; it then throws whatever the
    configuration is, names the first empty input, and leaves the ports,
    the output [csm] among them, as they were. *)
Theorem compute_EmptyInput_iff (cfg : Standard.Config Real)
    (p : Standard.Ports Real) :
  ((exists which, fst (Standard.compute cfg p) = Standard.Thrown (EmptyInput which))
   <-> (Standard._queryFeature p = [] \/ Standard._referenceFeature p = [])) /\
  (Standard._queryFeature p = [] ->
   Standard.compute cfg p = (Standard.Thrown (EmptyInput QueryFeature), p)) /\
  (Standard._queryFeature p <> [] -> Standard._referenceFeature p = [] ->
   Standard.compute cfg p = (Standard.Thrown (EmptyInput ReferenceFeature), p)).
Proof.
  assert (Standard._queryFeature p = [] ->
          Standard.compute cfg p = (Standard.Thrown (EmptyInput QueryFeature), p))
    as HQ.
  { intros Hq. unfold Standard.compute, Standard.compute_body, Standard.copy_inputs.
    cbn [Standard.locals Standard.queryFeature]. now rewrite Hq. }
  assert (Standard._queryFeature p <> [] -> Standard._referenceFeature p = [] ->
          Standard.compute cfg p = (Standard.Thrown (EmptyInput ReferenceFeature), p))
    as HR.
  { intros Hq Hr. unfold Standard.compute, Standard.compute_body, Standard.copy_inputs.
    cbn [Standard.locals Standard.queryFeature Standard.referenceFeature].
    rewrite Hr.
    destruct (Standard._queryFeature p); [congruence|reflexivity]. }
  split; [|split; assumption].
  split.
  - intros (which & Hthrow).
    destruct (Standard._queryFeature p) as [|a q'] eqn:Eq; [now left|].
    destruct (Standard._referenceFeature p) as [|b r'] eqn:Er; [now right|].
    exfalso. rewrite compute_functional in Hthrow. rewrite Eq, Er in Hthrow.
    destruct (Standard.compute_csm cfg (a :: q') (b :: r')) as [c|e|] eqn:Ec;
      cbn [Standard.finish fst] in Hthrow; try discriminate.
    apply compute_csm_exc in Ec; try discriminate.
    destruct Ec as [->|[->| ->]]; discriminate.
  - intros [Hq|Hr].
    + exists QueryFeature. now rewrite HQ.
    + destruct (Standard._queryFeature p) as [|a q'] eqn:Eq.
      * exists QueryFeature. now rewrite HQ.
      * exists ReferenceFeature. rewrite HR; [reflexivity|discriminate|assumption].
Qed.

(** C10.  Whenever a call of [compute] returns or throws, the caller's query
    and reference feature matrices are what they were before the call,
    whatever the configuration ([oti] included: the body works on the two
    local copies, [std::rotate] permutes the local copy of the reference,
    and the one assignment through a port is the one to [csm]). *)
Theorem compute_preserves_inputs (cfg : Standard.Config Real)
    (p p' : Standard.Ports Real) (c : Standard.completion) :
  Standard.compute cfg p = (c, p') ->
  c <> Standard.UndefinedBehaviour ->
  Standard._queryFeature p' = Standard._queryFeature p /\
  Standard._referenceFeature p' = Standard._referenceFeature p.
Proof.
  unfold Standard.compute. intros Hrun Hc.
  pose proof (compute_body_ports cfg (Standard.copy_inputs p)) as Hports.
  destruct (Standard.compute_body cfg (Standard.copy_inputs p)) as [mem|e mem|];
    inversion Hrun; subst; [exact Hports|exact Hports|congruence].
Qed.

End BatchFacts.

(** ** Rotations *)

Lemma rotate_end_rotated_by {A : Type} (v v' : list A) (k : Z) :
  rotate_end v k = Ok v' ->
  0 <= k <= Z.of_nat (length v) /\ v' = rotated_by v (Z.to_nat k).
Proof.
  unfold rotate_end.
  destruct (0 <=? k) eqn:E1; destruct (k <=? Z.of_nat (length v)) eqn:E2;
    cbn [andb]; try discriminate.
  intros [= <-]. apply Z.leb_le in E1, E2. auto.
Qed.

Lemma length_rotated_by {A : Type} (v : list A) (k : nat) :
  length (rotated_by v k) = length v.
Proof.
  unfold rotated_by. rewrite length_app, length_skipn, length_firstn. lia.
Qed.

(** Entry [i] of a rotation by [k] is the entry [k] places before, counted
    round the vector. *)
Lemma nth_rotated_by {A : Type} (v : list A) (k i : nat) (d : A) :
  (k <= length v)%nat -> (i < length v)%nat ->
  nth i (rotated_by v k) d = nth ((i + (length v - k)) mod length v) v d.
Proof.
  intros Hk Hi. unfold rotated_by.
  destruct (Nat.lt_ge_cases i k) as [Hlt|Hge].
  - rewrite app_nth1 by (rewrite length_skipn; lia).
    rewrite nth_skipn. f_equal.
    rewrite Nat.mod_small by lia. lia.
  - rewrite app_nth2 by (rewrite length_skipn; lia).
    rewrite length_skipn, nth_firstn.
    assert ((i - (length v - (length v - k)) <? length v - k)%nat = true) as ->
        by (apply Nat.ltb_lt; lia).
    f_equal.
    replace (i + (length v - k))%nat with ((i - k) + 1 * length v)%nat by lia.
    rewrite Nat.Div0.mod_add, Nat.mod_small by lia. lia.
Qed.

Lemma mod_eq_by (n x y a b : nat) :
  (x + a * n = y + b * n)%nat -> (x mod n = y mod n)%nat.
Proof.
  intros H. rewrite <- (Nat.Div0.mod_add x a n), <- (Nat.Div0.mod_add y b n).
  now rewrite H.
Qed.

(** Two rotations in a row are one rotation by the sum, taken modulo the
    length. *)
Lemma rotated_by_compose {A : Type} (v : list A) (a b : nat) :
  (a <= length v)%nat -> (b <= length v)%nat ->
  rotated_by (rotated_by v a) b = rotated_by v ((a + b) mod length v).
Proof.
  intros Ha Hb.
  destruct v as [|x v'] eqn:Ev; [reflexivity|]. rewrite <- Ev in *.
  assert (0 < length v)%nat as Hpos by (rewrite Ev; simpl; lia).
  set (n := length v) in *.
  assert ((a + b) mod n < n)%nat as Hs by (apply Nat.mod_upper_bound; lia).
  apply (nth_ext _ _ x x).
  - now rewrite !length_rotated_by.
  - intros i Hi. rewrite !length_rotated_by in Hi. fold n in Hi.
    rewrite nth_rotated_by
      by (rewrite ?length_rotated_by; fold n; lia).
    rewrite length_rotated_by. fold n.
    rewrite nth_rotated_by
      by (fold n; try lia; apply Nat.mod_upper_bound; lia).
    fold n. rewrite Nat.Div0.add_mod_idemp_l.
    rewrite (nth_rotated_by v ((a + b) mod n)) by (fold n; lia).
    fold n. f_equal.
    pose proof (Nat.div_mod_eq (a + b) n) as Hdiv.
    apply (mod_eq_by n _ _ ((a + b) / n) 1). nia.
Qed.

(** ** The streaming algorithm *)

Section StreamingFacts.

Context {Real : Type} {RA : RealArith Real} {ML : MathLib Real}.

Lemma push_back_frames_no_exc (tokens : matrix Real) (e : exn) :
  forall n copy i, Streaming.push_back_frames tokens copy i n <> Exc e.
Proof.
  induction n as [|n IH]; intros copy i; simpl; [discriminate|].
  intros H. apply bind_exc in H. destruct H as [H|(x & _ & H)].
  - now apply vec_get_no_exc in H.
  - now apply IH in H.
Qed.

(** The padding loop while it stays inside the acquired window. *)
Lemma push_back_frames_inside (tokens : matrix Real) :
  forall n copy i,
    (i + n <= length tokens)%nat ->
    Streaming.push_back_frames tokens copy (Z.of_nat i) n =
    Ok (copy ++ firstn n (skipn i tokens)).
Proof.
  induction n as [|n IH]; intros copy i Hin.
  - simpl. now rewrite app_nil_r.
  - cbn [Streaming.push_back_frames].
    rewrite (vec_get_ok tokens (Z.of_nat i) []) by lia. cbn [bind].
    replace (Z.of_nat i + 1) with (Z.of_nat (S i)) by lia.
    rewrite IH by lia. rewrite Nat2Z.id, <- app_assoc. do 2 f_equal.
    assert (i < length tokens)%nat as Hi by lia.
    clear - Hi. revert i Hi.
    induction tokens as [|t tokens IHt]; intros [|i] Hi; simpl in *; try lia.
    + destruct tokens; reflexivity.
    + apply IHt. lia.
Qed.

(** The padding loop once it leaves the acquired window. *)
Lemma push_back_frames_outside (tokens : matrix Real) :
  forall n copy i,
    (i <= length tokens < i + n)%nat ->
    Streaming.push_back_frames tokens copy (Z.of_nat i) n = Undef.
Proof.
  induction n as [|n IH]; intros copy i Hout; [lia|].
  cbn [Streaming.push_back_frames].
  destruct (Nat.lt_ge_cases i (length tokens)) as [Hi|Hi].
  - rewrite (vec_get_ok tokens (Z.of_nat i) []) by lia. cbn [bind].
    replace (Z.of_nat i + 1) with (Z.of_nat (S i)) by lia.
    apply IH. lia.
  - now rewrite vec_get_out by lia.
Qed.

(** C6, as the code has it.  The working copy of an acquired window of
    [acquire] frames is the window itself when [acquire] reaches the minimum
    window; below the minimum it is the window followed by its first
    [minFramesSize - acquire] frames, in order, so that its length is the
    minimum, provided the window holds that many frames; when the window
    holds fewer, the padding loop indexes past the end of the window. *)
Theorem padded_copy_window (cfg : Streaming.Config Real) (window : matrix Real) :
  let acquire := Z.of_nat (length window) in
  let missing := Streaming.minFramesSize cfg - acquire in
  (Streaming.minFramesSize cfg <= acquire ->
   Streaming.padded_copy cfg acquire window = Ok window) /\
  (0 < missing <= acquire ->
   Streaming.padded_copy cfg acquire window =
     Ok (window ++ firstn (Z.to_nat missing) window) /\
   Z.of_nat (length (window ++ firstn (Z.to_nat missing) window)) =
     Streaming.minFramesSize cfg) /\
  (acquire < missing ->
   Streaming.padded_copy cfg acquire window = Undef).
Proof.
  intros acquire missing. unfold Streaming.padded_copy. fold acquire.
  split; [|split]; intros H.
  - assert ((acquire <? Streaming.minFramesSize cfg) = false) as ->
        by (apply Z.ltb_ge; lia).
    reflexivity.
  - assert ((acquire <? Streaming.minFramesSize cfg) = true) as ->
        by (apply Z.ltb_lt; lia).
    change 0 with (Z.of_nat 0).
    rewrite push_back_frames_inside by (unfold missing, acquire in *; lia).
    split; [reflexivity|].
    rewrite length_app, length_firstn. unfold missing, acquire in *. lia.
  - assert ((acquire <? Streaming.minFramesSize cfg) = true) as ->
        by (apply Z.ltb_lt; lia).
    change 0 with (Z.of_nat 0).
    apply push_back_frames_outside. unfold missing, acquire in *. lia.
Qed.

Lemma padded_copy_no_exc (cfg : Streaming.Config Real) (acquire : Z)
    (window : matrix Real) (e : exn) :
  Streaming.padded_copy cfg acquire window <> Exc e.
Proof.
  unfold Streaming.padded_copy.
  destruct (acquire <? Streaming.minFramesSize cfg); [|discriminate].
  apply push_back_frames_no_exc.
Qed.

Lemma optimalTranspositionIndex_no_exc (chromaA chromaB : matrix Real)
    (nshifts : Z) (e : exn) :
  0 <= nshifts ->
  optimalTranspositionIndex chromaA chromaB nshifts <> Exc e.
Proof.
  intros Hn H. unfold optimalTranspositionIndex in H.
  apply bind_exc in H. destruct H as [H|(ga & _ & H)].
  { now apply globalAverageChroma_no_exc in H. }
  apply bind_exc in H. destruct H as [H|(gb & _ & H)].
  { now apply globalAverageChroma_no_exc in H. }
  apply bind_exc in H. destruct H as [H|(vs & Hvs & H)].
  { now apply shift_values_no_exc in H. }
  apply mapM_length in Hvs. unfold shifts in Hvs.
  rewrite length_map, length_seq in Hvs.
  destruct vs; [simpl in Hvs; lia|discriminate].
Qed.

Lemma acquireData_set_sizes (s : Streaming.State Real) :
  Streaming.acquireData (Streaming.set_sizes s (Streaming.available s))
  = Streaming.OK.
Proof.
  unfold Streaming.acquireData, Streaming.available. cbn.
  now rewrite Z.leb_refl.
Qed.

Lemma acquireData_status (s : Streaming.State Real) :
  Streaming.acquireData s = Streaming.OK /\
    Streaming.acquireSize s <= Streaming.available s \/
  Streaming.acquireData s = Streaming.NO_INPUT /\
    Streaming.available s < Streaming.acquireSize s.
Proof.
  unfold Streaming.acquireData.
  destruct (Streaming.acquireSize s <=? Streaming.available s) eqn:E.
  - left. apply Z.leb_le in E. auto.
  - right. apply Z.leb_gt in E. auto.
Qed.

(** The self-call of [process] nests once at most: with one unit of fuel or
    more, a call is the computation on the acquired window when enough
    frames are buffered; it returns [NO_INPUT] when frames are missing and
    the stream goes on, or has ended with nothing buffered; and it is the
    computation on all the buffered frames otherwise. *)
Lemma process_unfolds (cfg : Streaming.Config Real) (fuel : nat)
    (s : Streaming.State Real) :
  Streaming.process (S fuel) cfg s =
  if Streaming.acquireSize s <=? Streaming.available s
  then Streaming.compute_token cfg s
  else if negb (Streaming.stopped s) then (Streaming.Returned Streaming.NO_INPUT, s)
  else if Streaming.available s =? 0 then (Streaming.Returned Streaming.NO_INPUT, s)
  else Streaming.compute_token cfg (Streaming.set_sizes s (Streaming.available s)).
Proof.
  cbn [Streaming.process].
  destruct (acquireData_status s) as [[-> Hle]|[-> Hlt]].
  - assert ((Streaming.acquireSize s <=? Streaming.available s) = true) as ->
        by now apply Z.leb_le.
    reflexivity.
  - assert ((Streaming.acquireSize s <=? Streaming.available s) = false) as ->
        by now apply Z.leb_gt.
    destruct (negb (Streaming.stopped s)); [reflexivity|].
    destruct (Streaming.available s =? 0); [reflexivity|].
    destruct fuel; cbn [Streaming.process];
      now rewrite acquireData_set_sizes.
Qed.

(** A call of [process] that goes on to the computation computes on the
    window of [window_state]. *)
Lemma process_window (cfg : Streaming.Config Real) (fuel : nat)
    (s s' : Streaming.State Real) (c : Streaming.completion) :
  Streaming.process fuel cfg s = (c, s') ->
  Streaming.proceeded c ->
  Streaming.compute_token cfg (window_state s) = (c, s').
Proof.
  intros Hrun Hc. unfold window_state.
  destruct fuel as [|fuel].
  - cbn [Streaming.process] in Hrun. unfold Streaming.acquireData in Hrun.
    destruct (Streaming.acquireSize s <=? Streaming.available s); [exact Hrun|].
    destruct (negb (Streaming.stopped s)); [inversion Hrun; subst; contradiction|].
    destruct (Streaming.available s =? 0); inversion Hrun; subst; contradiction.
  - rewrite process_unfolds in Hrun.
    destruct (Streaming.acquireSize s <=? Streaming.available s); [exact Hrun|].
    destruct (negb (Streaming.stopped s)); [inversion Hrun; subst; contradiction|].
    destruct (Streaming.available s =? 0);
      [inversion Hrun; subst; contradiction|exact Hrun].
Qed.

Lemma window_state_reference (s : Streaming.State Real) :
  Streaming._referenceFeature (window_state s) = Streaming._referenceFeature s.
Proof.
  unfold window_state.
  destruct (Streaming.acquireSize s <=? Streaming.available s); reflexivity.
Qed.

(** One call of [process] that goes on to the computation, with [oti] set:
    the index is computed for the working copy of the acquired window
    against the reference as stored when the call starts, and the stored
    reference is replaced by its rotation. *)
Lemma process_rotates (cfg : Streaming.Config Real) :
  Streaming.oti cfg = true -> 0 <= Streaming.noti cfg ->
  forall fuel s c s',
    Streaming.process fuel cfg s = (c, s') ->
    Streaming.proceeded c ->
    exists inputFramesCopy otiIdx,
      window_copy cfg s = Ok inputFramesCopy /\
      optimalTranspositionIndex inputFramesCopy (Streaming._referenceFeature s)
                                (Streaming.noti cfg) = Ok otiIdx /\
      rotate_end (Streaming._referenceFeature s) otiIdx =
      Ok (Streaming._referenceFeature s').
Proof.
  intros Hoti Hnoti fuel s c s' Hrun Hc.
  apply process_window in Hrun; [|exact Hc].
  unfold window_copy. rewrite <- (window_state_reference s).
  generalize dependent (window_state s). clear s. intros s Hrun.
  unfold Streaming.compute_token in Hrun.
  destruct (Streaming.padded_copy cfg _ _) as [copy|e|] eqn:Epad.
  2:{ now apply padded_copy_no_exc in Epad. }
  2:{ inversion Hrun; subst. contradiction. }
  unfold Streaming.rotate_reference in Hrun. rewrite Hoti in Hrun.
  destruct (optimalTranspositionIndex copy _ _) as [k|e|] eqn:Eoti.
  2:{ now apply optimalTranspositionIndex_no_exc in Eoti. }
  2:{ cbn [bind] in Hrun. inversion Hrun; subst. contradiction. }
  cbn [bind] in Hrun.
  destruct (rotate_end (Streaming._referenceFeature s) k) as [r'|e|] eqn:Erot.
  2:{ now apply rotate_end_no_exc in Erot. }
  2:{ inversion Hrun; subst. contradiction. }
  exists copy, k. split; [reflexivity|]. split; [exact Eoti|].
  destruct (Streaming.similarity_token cfg copy r');
    inversion Hrun; subst; try contradiction; exact Erot.
Qed.

(** C5.  In streaming mode with [oti] set (and [noti >= 0]), every call of
    [process] that goes on to the computation finds the transposition index
    of the working copy of the window it acquired against the stored
    reference, and replaces the stored reference by itself with its last
    [otiIdx] frames moved to the front.  Over two successive calls, between
    which the host only feeds the input buffer, the second index is computed
    against the reference as rotated by the first call and the second
    rotation acts on that rotated reference: the rotations compound, the
    stored reference ending as the configured one rotated by the sum of the
    two indices (modulo its number of frames). *)
Theorem process_rotations_compound (cfg : Streaming.Config Real)
    (fuel1 fuel2 : nat) (s0 s1 s1' s2 : Streaming.State Real)
    (c1 c2 : Streaming.completion) :
  Streaming.oti cfg = true -> 0 <= Streaming.noti cfg ->
  Streaming.process fuel1 cfg s0 = (c1, s1) -> Streaming.proceeded c1 ->
  Streaming._referenceFeature s1' = Streaming._referenceFeature s1 ->
  Streaming.process fuel2 cfg s1' = (c2, s2) -> Streaming.proceeded c2 ->
  exists q1 k1 q2 k2,
    window_copy cfg s0 = Ok q1 /\
    optimalTranspositionIndex q1 (Streaming._referenceFeature s0)
                              (Streaming.noti cfg) = Ok (Z.of_nat k1) /\
    Streaming._referenceFeature s1 =
      rotated_by (Streaming._referenceFeature s0) k1 /\
    window_copy cfg s1' = Ok q2 /\
    optimalTranspositionIndex q2 (Streaming._referenceFeature s1)
                              (Streaming.noti cfg) = Ok (Z.of_nat k2) /\
    Streaming._referenceFeature s2 =
      rotated_by (Streaming._referenceFeature s1) k2 /\
    (k1 <= length (Streaming._referenceFeature s0))%nat /\
    (k2 <= length (Streaming._referenceFeature s0))%nat /\
    Streaming._referenceFeature s2 =
      rotated_by (Streaming._referenceFeature s0)
                 ((k1 + k2) mod length (Streaming._referenceFeature s0)).
Proof.
  intros Hoti Hnoti Hrun1 Hc1 Hfeed Hrun2 Hc2.
  destruct (process_rotates cfg Hoti Hnoti fuel1 s0 c1 s1 Hrun1 Hc1)
    as (q1 & k1 & Hq1 & Hk1 & Hr1).
  destruct (process_rotates cfg Hoti Hnoti fuel2 s1' c2 s2 Hrun2 Hc2)
    as (q2 & k2 & Hq2 & Hk2 & Hr2).
  rewrite Hfeed in Hk2, Hr2.
  apply rotate_end_rotated_by in Hr1. destruct Hr1 as [Hb1 Hr1].
  apply rotate_end_rotated_by in Hr2. destruct Hr2 as [Hb2 Hr2].
  assert (length (Streaming._referenceFeature s1)
          = length (Streaming._referenceFeature s0)) as Hlen
      by (rewrite Hr1; apply length_rotated_by).
  rewrite Hlen in Hb2.
  exists q1, (Z.to_nat k1), q2, (Z.to_nat k2).
  rewrite !Z2Nat.id by lia.
  repeat split; try assumption; try lia.
  rewrite Hr2, Hr1. apply rotated_by_compose; lia.
Qed.

End StreamingFacts.

(** ** toTimeEmbedding on concrete sequences *)

Lemma toTimeEmbedding_stride_rows_witness :
  exists te,
    toTimeEmbedding seven_frames 2 2 = Ok te /\
    te <> [] /\
    Z.of_nat (length te) = Z.of_nat (length seven_frames) - 2 * 2 /\
    forall i, 0 <= i < Z.of_nat (length te) -> i mod 2 = 0 ->
              nth (Z.to_nat i) te [] = stacked seven_frames 2 2 i.
Proof.
  destruct (toTimeEmbedding_stride_rows seven_frames 2 2) as [Hrows Hex];
    [lia | lia |].
  destruct Hex as (te & Hrun & Hne);
    [simpl; lia | unfold int_max; simpl; lia
     | unfold int_max, width0; simpl; lia |].
  exists te. split; [exact Hrun|]. split; [exact Hne|].
  exact (Hrows te Hrun).
Defined.

(** C2 as stated fails: with [tau = 2] the output is non-empty and its row 1,
    whose index is not a multiple of [tau], is not the concatenation of the
    input rows 1 and 3. *)
Lemma toTimeEmbedding_off_stride_row_counterexample :
  exists te,
    toTimeEmbedding seven_frames 2 2 = Ok te /\
    te <> [] /\
    (0 <= 1 < Z.of_nat (length te)) /\
    nth 1%nat te [] = qframe [0; 0] /\
    stacked seven_frames 2 2 1 = qframe [2; 4] /\
    nth 1%nat te [] <> stacked seven_frames 2 2 1.
Proof.
  exists (qmatrix [[1; 3]; [0; 0]; [3; 5]]).
  split; [reflexivity|]. split; [discriminate|].
  split; [simpl; lia|]. split; [reflexivity|].
  split; [reflexivity|discriminate].
Qed.

Lemma toTimeEmbedding_too_short_witness :
  ((forall te, toTimeEmbedding (qmatrix [[1]; [2]; [3]]) 2 2 <> Ok te) /\
   toTimeEmbedding (qmatrix [[1]; [2]; [3]]) 2 2 <> Exc InvalidInput) /\
  toTimeEmbedding (qmatrix [[1]; [2]; [3]; [4]]) 2 2 = Ok [].
Proof.
  split.
  - apply (toTimeEmbedding_too_short (qmatrix [[1]; [2]; [3]]) 2 2);
      [lia | lia | discriminate | unfold int_max; lia | simpl; lia].
  - apply (toTimeEmbedding_too_short (qmatrix [[1]; [2]; [3]; [4]]) 2 2);
      [lia | lia | discriminate | unfold int_max; lia | simpl; lia
       | unfold int_max, width0; simpl; lia].
Defined.

(** C7 as stated fails: a three-frame sequence embedded with [m = 2] and
    [tau = 2] is shorter than [m*tau], and the call neither returns an empty
    result nor signals [InvalidInput]: it ends in the exception of the
    vector constructor. *)
Lemma toTimeEmbedding_too_short_counterexample :
  Z.of_nat (length (qmatrix [[1]; [2]; [3]])) < 2 * 2 /\
  toTimeEmbedding (qmatrix [[1]; [2]; [3]]) 2 2 = Exc AllocFailure /\
  toTimeEmbedding (qmatrix [[1]; [2]; [3]]) 2 2 <> Ok [] /\
  toTimeEmbedding (qmatrix [[1]; [2]; [3]]) 2 2 <> Exc InvalidInput.
Proof.
  split; [simpl; lia|]. split; [reflexivity|]. split; discriminate.
Qed.

(** ** The laws of exact arithmetic hold for the real numbers *)

Lemma R_rltb_true (x y : R) : rltb x y = true <-> (x < y)%R.
Proof. cbn. destruct (Rlt_dec x y); split; intros; auto; discriminate. Qed.

Lemma R_rltb_false (x y : R) : rltb x y = false <-> ~ (x < y)%R.
Proof.
  cbn. destruct (Rlt_dec x y); split; intros; auto; try discriminate.
  contradiction.
Qed.

#[export] Instance R_ExactArith : ExactArith R.
Proof.
  split; cbn -[Rlt_dec Req_dec_T]; intros.
  - apply Rmult_0_r.
  - apply Rmult_plus_distr_l.
  - apply Rmult_assoc.
  - rewrite <- Rmult_assoc, (Rmult_comm x c). apply Rmult_assoc.
  - destruct (Rlt_dec 0 c) as [Hc|]; [|discriminate].
    destruct (Rlt_dec x y) as [Hxy|Hxy];
      destruct (Rlt_dec (c * x) (c * y)) as [Hs|Hs]; auto.
    + exfalso. apply Hs. now apply Rmult_lt_compat_l.
    + exfalso. apply Hxy. now apply Rmult_lt_reg_l with c.
  - destruct (Rlt_dec 0 c) as [Hc|]; [|discriminate].
    destruct (Req_dec_T x 0) as [Hx|Hx];
      destruct (Req_dec_T (c * x) 0) as [Hs|Hs]; auto.
    + subst x. rewrite Rmult_0_r in Hs. contradiction.
    + apply Rmult_integral in Hs. destruct Hs; [lra|contradiction].
  - destruct (Rlt_dec 0 c) as [Hc|]; [|discriminate].
    destruct (Req_dec_T m 0) as [Hm|Hm]; [discriminate|].
    field. split; [assumption|lra].
Qed.

Lemma optimalTranspositionIndex_scaling_witness :
  let A : matrix R := [[1; 0; 0]; [0; 1; 0]]%R in
  let B : matrix R := [[0; 1; 0]; [0; 0; 1]]%R in
  optimalTranspositionIndex (scale_matrix 2%R A) B 2 =
    optimalTranspositionIndex A B 2 /\
  optimalTranspositionIndex A (scale_matrix 2%R B) 2 =
    optimalTranspositionIndex A B 2 /\
  optimalTranspositionIndex (scale_matrix 2%R A) (scale_matrix 2%R B) 2 =
    optimalTranspositionIndex A B 2.
Proof.
  intros A B.
  apply (optimalTranspositionIndex_scaling (Real:=R) 2%R A B 2).
  - apply R_rltb_true. cbn. lra.
  - discriminate.
  - discriminate.
  - lia.
Defined.

(** C8 as stated fails on [float] numbers.  The query holds two frames whose
    first bin is [2^126]; the sum of that bin, [2^127], is a [float], and
    the index against the reference is 2.  Scaled by [c = 2], the sum
    overflows to infinity, [normalize] divides infinity by infinity, every
    dot product is a NaN and the index found is 0. *)
Lemma optimalTranspositionIndex_scaling_counterexample :
  let c : float32 := rofZ 2 in
  let A : matrix float32 := [[f32 1 126; r0; r0]; [f32 1 126; r0; r0]] in
  let B : matrix float32 := [[r0; r1; r0]] in
  rltb r0 c = true /\ A <> [] /\ B <> [] /\ 0 <= 2 /\
  optimalTranspositionIndex A B 2 = Ok 2 /\
  globalAverageChroma (scale_matrix c A) =
    Ok [S754_nan; S754_zero false; S754_zero false] /\
  optimalTranspositionIndex (scale_matrix c A) B 2 = Ok 0 /\
  optimalTranspositionIndex (scale_matrix c A) B 2 <>
  optimalTranspositionIndex A B 2.
Proof.
  intros c A B.
  split; [reflexivity|]. split; [discriminate|]. split; [discriminate|].
  split; [lia|]. split; [vm_compute; reflexivity|].
  split; [vm_compute; reflexivity|]. split; [vm_compute; reflexivity|].
  vm_compute. discriminate.
Qed.

(** ** The batch algorithm on concrete matrices *)

Lemma compute_distance_product_witness :
  let cfg := batch_cfg 1 1 2 false false false false in
  let p := batch_ports [[1]; [2]] [[1]; [2]; [3]] in
  let tA := qmatrix [[1]; [2]] in
  let tB := qmatrix [[1]; [2]; [3]] in
  exists p' similarityX tSimilarityY,
    Standard.compute cfg p = (Standard.Returned, p') /\
    Standard.euclidean_csm cfg tA tB =
      Ok (similarityX, tSimilarityY, Standard._csm p') /\
    (length similarityX = length tA /\ cols0 similarityX = length tB) /\
    (length tSimilarityY = length tA /\ cols0 tSimilarityY = length tB) /\
    length (Standard._csm p') = length tA /\
    (forall row, In row (Standard._csm p') -> length row = length tB) /\
    forall i j, (i < length tA)%nat -> (j < length tB)%nat ->
      at2 (Standard._csm p') i j =
      rmul (at2 similarityX i j) (at2 tSimilarityY i j).
Proof.
  intros cfg p tA tB.
  apply (compute_distance_product cfg p tB tA tB);
    try reflexivity; discriminate.
Defined.

(** C1 as stated fails.  On the four-frame sequence
    [[1,0,0],[0,1,0],[0,0,1],[1,0,0]] against itself (embedding dimension 1,
    all-ones query-axis mask), [compute] returns a matrix whose entry
    [(0,0)] is 1, the product of the entries [(0,0)] of the two masks,
    while the sum over [k] of [similarityX[0][k] * tSimilarityY[k][0]] is
    2: frames 0 and 3 are equal, so column 0 of [tSimilarityY] holds two
    ones. *)
Lemma compute_distance_product_counterexample :
  let cfg := batch_cfg 1 1 0 false false false true in
  let frames := [[1; 0; 0]; [0; 1; 0]; [0; 0; 1]; [1; 0; 0]] in
  let p := batch_ports frames frames in
  let tA := qmatrix frames in
  toTimeEmbedding (Standard._queryFeature p) 1 1 = Ok tA /\
  toTimeEmbedding (Standard._referenceFeature p) 1 1 = Ok tA /\
  Standard.compute cfg p =
    (Standard.Returned,
     Standard.set_csm p (qmatrix [[1; 0; 0; 1]; [0; 1; 0; 0];
                                  [0; 0; 1; 0]; [1; 0; 0; 1]])) /\
  Standard.euclidean_csm cfg tA tA =
    Ok (maskX cfg tA tA, maskY cfg tA tA,
        qmatrix [[1; 0; 0; 1]; [0; 1; 0; 0]; [0; 0; 1; 0]; [1; 0; 0; 1]]) /\
  row_by_column (maskX cfg tA tA) (maskY cfg tA tA) 4 0 0 = inject_Z 2 /\
  at2 (qmatrix [[1; 0; 0; 1]; [0; 1; 0; 0]; [0; 0; 1; 0]; [1; 0; 0; 1]])
      0 0 = inject_Z 1 /\
  ~ (inject_Z 1 == inject_Z 2)%Q.
Proof.
  intros cfg frames p tA.
  split; [reflexivity|]. split; [reflexivity|].
  split; [vm_compute; reflexivity|]. split; [vm_compute; reflexivity|].
  split; [vm_compute; reflexivity|]. split; [reflexivity|].
  intros H. discriminate H.
Qed.



Lemma compute_otiBinary_toBlocked_witness :
  let cfg := batch_cfg 2 1 1 false false true false in
  let p := batch_ports [[1; 2]; [2; 1]] [[1; 2]; [2; 1]; [3; 4]] in
  let raw := Standard.finish p
               (chromaBinarySimMatrix (Standard._queryFeature p)
                  (Standard._referenceFeature p) (Standard.noti cfg)
                  Standard.mathcCoef Standard.mismatchCoef) in
  let short := batch_ports [[1; 2]] [[1; 2]; [2; 1]; [3; 4]] in
  Standard.compute (Standard.with_toBlocked cfg false) p = raw /\
  Standard.compute (Standard.with_toBlocked cfg true) p = raw /\
  fst raw = Standard.Returned /\
  (forall p', Standard.compute (Standard.with_toBlocked cfg true) short
              <> (Standard.Returned, p')).
Proof.
  intros cfg p raw short.
  destruct (compute_otiBinary_toBlocked cfg p) as (Hfalse & Htrue & Hfit & _);
    [reflexivity | discriminate | discriminate |].
  split; [exact Hfalse|]. split; [|split; [reflexivity|]].
  - apply Htrue. apply Hfit. right.
    unfold int_max, width0. simpl. lia.
  - destruct (compute_otiBinary_toBlocked cfg short) as (_ & _ & _ & Hnone);
      [reflexivity | discriminate | discriminate |].
    apply Hnone;
      [simpl; lia | simpl; lia | unfold int_max; simpl; lia
       | unfold int_max; simpl; lia | unfold int_max; simpl; lia
       | left; simpl; lia].
Defined.

(** C4 as stated fails: for a one-frame query with [embedDimension = 2] and
    [tau = 1], [toBlocked = false] returns the binary similarity matrix of
    the raw inputs while [toBlocked = true] throws, the embedding of the
    query being impossible. *)
Lemma compute_otiBinary_toBlocked_counterexample :
  let cfg := batch_cfg 2 1 1 false false true false in
  let p := batch_ports [[1; 2]] [[1; 2]; [2; 1]; [3; 4]] in
  Standard.compute (Standard.with_toBlocked cfg false) p =
    (Standard.Returned, Standard.set_csm p (qmatrix [[1; 1; 1]])) /\
  Standard.compute (Standard.with_toBlocked cfg true) p =
    (Standard.Thrown AllocFailure, p) /\
  Standard.compute (Standard.with_toBlocked cfg true) p <>
  Standard.compute (Standard.with_toBlocked cfg false) p.
Proof.
  intros cfg p. repeat split. discriminate.
Qed.

(** A call with [oti] set: the index found is 1, the local copy of the
    reference ends rotated by one frame, and the reference port holds what
    it held. *)
Lemma compute_preserves_inputs_witness :
  let cfg := batch_cfg 1 1 1 true false false true in
  let p := batch_ports [[1; 0]; [1; 0]] [[0; 1]; [0; 3]] in
  let run := Standard.compute cfg p in
  fst run = Standard.Returned /\
  (exists mem,
     Standard.compute_body cfg (Standard.copy_inputs p) = Standard.Done mem /\
     Standard.referenceFeature (Standard.locals mem)
       = qmatrix [[0; 3]; [0; 1]]) /\
  Standard._queryFeature (snd run) = Standard._queryFeature p /\
  Standard._referenceFeature (snd run) = Standard._referenceFeature p /\
  Standard._referenceFeature (snd run) = qmatrix [[0; 1]; [0; 3]].
Proof.
  intros cfg p run.
  split; [vm_compute; reflexivity|].
  split; [eexists; split; vm_compute; reflexivity|].
  destruct (compute_preserves_inputs cfg p (snd run) (fst run)) as [Hq Hr].
  - apply surjective_pairing.
  - vm_compute. discriminate.
  - split; [exact Hq|]. split; [exact Hr|]. rewrite Hr. reflexivity.
Defined.

(** ** The streaming algorithm on concrete streams *)

(** Two calls in a row: each one finds the index 1 and rotates the stored
    reference by one frame, so that after the second call the reference is
    the configured one rotated by two frames. *)
Lemma process_rotations_example :
  Streaming.process 1 oti_cfg oti_start
    = (Streaming.Returned Streaming.OK, oti_after_first) /\
  Streaming._referenceFeature oti_after_first
    = qmatrix [[0; 3]; [0; 1]; [0; 2]] /\
  Streaming.process 1 oti_cfg oti_second_start
    = (Streaming.Returned Streaming.OK, oti_after_second) /\
  Streaming._referenceFeature oti_after_second
    = qmatrix [[0; 2]; [0; 3]; [0; 1]].
Proof. repeat split. Qed.

(** The same two calls in distance mode: the calls return [OK] and the
    stored reference is rotated in the same way. *)
Lemma process_rotations_distance_example :
  let cfg := stream_cfg 1 1 1 true false in
  let start := feed (Streaming.configure cfg oti_reference)
                    (qmatrix [[1; 0]; [1; 0]]) false in
  let first := Streaming.process 1 cfg start in
  let second := Streaming.process 1 cfg (feed (snd first) (qmatrix [[1; 0]]) false) in
  fst first = Streaming.Returned Streaming.OK /\
  Streaming._referenceFeature (snd first) = rotated_by oti_reference 1 /\
  fst second = Streaming.Returned Streaming.OK /\
  Streaming._referenceFeature (snd second) = rotated_by oti_reference 2.
Proof. intros cfg start first second. repeat split; vm_compute; reflexivity. Qed.

Lemma process_rotations_compound_witness :
  (exists q1 k1 q2 k2,
     window_copy oti_cfg oti_start = Ok q1 /\
     optimalTranspositionIndex q1 (Streaming._referenceFeature oti_start)
                               (Streaming.noti oti_cfg) = Ok (Z.of_nat k1) /\
     Streaming._referenceFeature oti_after_first =
       rotated_by (Streaming._referenceFeature oti_start) k1 /\
     window_copy oti_cfg oti_second_start = Ok q2 /\
     optimalTranspositionIndex q2 (Streaming._referenceFeature oti_after_first)
                               (Streaming.noti oti_cfg) = Ok (Z.of_nat k2) /\
     Streaming._referenceFeature oti_after_second =
       rotated_by (Streaming._referenceFeature oti_after_first) k2 /\
     (k1 <= length (Streaming._referenceFeature oti_start))%nat /\
     (k2 <= length (Streaming._referenceFeature oti_start))%nat /\
     Streaming._referenceFeature oti_after_second =
       rotated_by (Streaming._referenceFeature oti_start)
                  ((k1 + k2) mod length (Streaming._referenceFeature oti_start))) /\
  window_copy oti_cfg oti_start = Ok (qmatrix [[1; 0]; [1; 0]]) /\
  optimalTranspositionIndex (qmatrix [[1; 0]; [1; 0]]) oti_reference 1 = Ok 1 /\
  Streaming._referenceFeature oti_after_second = rotated_by oti_reference 2 /\
  rotated_by oti_reference 2 = qmatrix [[0; 2]; [0; 3]; [0; 1]].
Proof.
  split; [|repeat split].
  apply (process_rotations_compound oti_cfg 1 1 oti_start oti_after_first
           oti_second_start oti_after_second
           (Streaming.Returned Streaming.OK) (Streaming.Returned Streaming.OK)).
  - reflexivity.
  - simpl; lia.
  - reflexivity.
  - exact I.
  - reflexivity.
  - reflexivity.
  - exact I.
Defined.

(** The failing run of the padding.  With [embedDimension = 3] the minimum
    window is four frames; when the stream ends with a single frame
    buffered, [process] shrinks the acquire size to one, and the padding
    loop then reads [inputQueryFrames[1]], outside the one-frame window. *)
Lemma padded_copy_short_window :
  let cfg := stream_cfg 3 1 1 false true in
  let s := feed (Streaming.configure cfg (qmatrix [[1; 0]; [0; 1]]))
                (qmatrix [[1; 0]]) true in
  Streaming.minFramesSize cfg = 4 /\
  Streaming.tokens (Streaming.set_sizes s (Streaming.available s))
    = qmatrix [[1; 0]] /\
  Streaming.padded_copy cfg 1 (qmatrix [[1; 0]]) = Undef /\
  fst (Streaming.process 1 cfg s) = Streaming.UndefinedBehaviour.
Proof.
  intros cfg s. split; [reflexivity|]. split; [reflexivity|]. split.
  - apply (padded_copy_window cfg (qmatrix [[1; 0]])). simpl. lia.
  - reflexivity.
Defined.

(** * Further properties of the helper functions *)

(** ** Outcomes of [mapM] *)

Lemma mapM_ok_each {A B : Type} (f : A -> outcome B) (l : list A) (bs : list B) :
  mapM f l = Ok bs -> Forall2 (fun a b => f a = Ok b) l bs.
Proof.
  revert bs; induction l as [|a l IH]; simpl; intros bs H.
  - inversion H. constructor.
  - apply bind_ok in H. destruct H as (b & Hb & H).
    apply bind_ok in H. destruct H as (bs' & Hbs & H).
    inversion H; subst. constructor; auto.
Qed.

Lemma mapM_all_ok {A B : Type} (f : A -> outcome B) (l : list A) :
  (forall a, In a l -> exists b, f a = Ok b) -> exists bs, mapM f l = Ok bs.
Proof.
  induction l as [|a l IH]; simpl; intros H; [eauto|].
  destruct (H a) as (b & Hb); [now left|].
  destruct IH as (bs & Hbs); [intros a' Ha'; apply H; now right|].
  rewrite Hb, Hbs. simpl. eauto.
Qed.

Lemma mapM_ok_in {A B : Type} (f : A -> outcome B) (l : list A) (bs : list B) :
  mapM f l = Ok bs ->
  (forall a, In a l -> exists b, f a = Ok b) /\
  (forall b, In b bs -> exists a, In a l /\ f a = Ok b).
Proof.
  intros H. apply mapM_ok_each in H.
  induction H as [|a b l bs Hab _ [IH1 IH2]]; split; simpl; try tauto.
  - intros a' [<-|Ha']; eauto.
  - intros b' [<-|Hb']; [eauto|].
    destruct (IH2 b' Hb') as (a' & Ha' & Hf). eauto.
Qed.

Lemma mapM_ext_in {A B : Type} (f g : A -> outcome B) (l : list A) :
  (forall a, In a l -> f a = g a) -> mapM f l = mapM g l.
Proof.
  induction l as [|a l IH]; simpl; intros H; [reflexivity|].
  rewrite H by now left. rewrite IH; [reflexivity|].
  intros a' Ha'. apply H. now right.
Qed.

Lemma In_shifts (nshifts k : Z) :
  In k (shifts nshifts) <-> 0 <= k <= nshifts.
Proof.
  unfold shifts. rewrite in_map_iff. split.
  - intros (n & <- & Hn). apply in_seq in Hn. lia.
  - intros Hk. exists (Z.to_nat k). split; [lia|]. apply in_seq. lia.
Qed.

Lemma rotate_end_ok_iff {A : Type} (v : list A) (k : Z) :
  (exists v', rotate_end v k = Ok v') <-> 0 <= k <= Z.of_nat (length v).
Proof.
  unfold rotate_end.
  destruct (0 <=? k) eqn:E1; destruct (k <=? Z.of_nat (length v)) eqn:E2;
    cbn [andb]; split; intros H;
    try (destruct H as (v' & H); discriminate); eauto;
    try apply Z.leb_le in E1; try apply Z.leb_le in E2;
    try apply Z.leb_gt in E1; try apply Z.leb_gt in E2; lia.
Qed.

Lemma rotate_end_undef {A : Type} (v : list A) (k : Z) :
  Z.of_nat (length v) < k -> rotate_end v k = Undef.
Proof.
  intros H. unfold rotate_end.
  assert ((k <=? Z.of_nat (length v)) = false) as -> by (apply Z.leb_gt; lia).
  now rewrite andb_false_r.
Qed.

(** ** globalAverageChroma and optimalTranspositionIndex *)

Section TranspositionBounds.

Context {Real : Type} {RA : RealArith Real}.

Lemma column_sum_ok_iff (rows : matrix Real) (j : Z) :
  0 <= j ->
  forall tSum,
    (exists x, column_sum rows j tSum = Ok x) <->
    (forall row, In row rows -> j < Z.of_nat (length row)).
Proof.
  intros Hj. induction rows as [|row rows IH]; intros tSum; simpl.
  - split; [intros _ row []|eauto].
  - destruct (Z_lt_le_dec j (Z.of_nat (length row))) as [Hin|Hout].
    + rewrite (vec_get_ok row j r0) by lia. cbn [bind]. rewrite IH.
      split; [intros H row' [<-|Hr]; auto|intros H row' Hr; auto].
    + rewrite vec_get_out by lia. cbn [bind]. split.
      * intros (x & Hx). discriminate.
      * intros H. specialize (H row (or_introl eq_refl)). lia.
Qed.

Lemma length_normalize (v : frame Real) : length (normalize v) = length v.
Proof.
  unfold normalize. destruct (max_element v); [|reflexivity].
  destruct (reqb r r0); [reflexivity|apply length_map].
Qed.

(** The global chroma of a non-empty matrix whose rows are all at least as
    wide as the first one. *)
Lemma globalAverageChroma_fits (M : matrix Real) :
  M <> [] ->
  (forall row, In row M -> (length (nth 0%nat M []) <= length row)%nat) ->
  exists g, globalAverageChroma M = Ok g /\ length g = length (nth 0%nat M []).
Proof.
  intros Hne Hrows. unfold globalAverageChroma.
  destruct M as [|row0 rest] eqn:EM; [congruence|]. rewrite <- EM in *.
  assert (vec_get M 0 = Ok row0) as ->.
  { rewrite (vec_get_ok M 0 []); [now rewrite EM|rewrite EM; simpl; lia]. }
  cbn [bind].
  assert (nth 0%nat M [] = row0) as E0 by now rewrite EM.
  rewrite E0 in Hrows.
  destruct (mapM_all_ok (fun j => column_sum M j r0)
              (map Z.of_nat (seq 0 (length row0)))) as (sums & Hsums).
  { intros j Hj. apply in_map_iff in Hj. destruct Hj as (n & <- & Hn).
    apply in_seq in Hn. apply column_sum_ok_iff; [lia|].
    intros row Hr. specialize (Hrows row Hr). lia. }
  rewrite Hsums. cbn [bind]. eexists. split; [reflexivity|].
  rewrite length_normalize, (mapM_length _ _ _ Hsums), length_map, length_seq.
  now rewrite E0.
Qed.

Lemma globalAverageChroma_ok_fits (M : matrix Real) (g : frame Real) :
  globalAverageChroma M = Ok g ->
  M <> [] /\
  forall row, In row M -> (length (nth 0%nat M []) <= length row)%nat.
Proof.
  unfold globalAverageChroma. intros H.
  destruct M as [|row0 rest] eqn:EM; [discriminate|]. rewrite <- EM in *.
  split; [rewrite EM; discriminate|].
  assert (vec_get M 0 = Ok row0) as E.
  { rewrite (vec_get_ok M 0 []); [now rewrite EM|rewrite EM; simpl; lia]. }
  rewrite E in H. cbn [bind] in H.
  assert (nth 0%nat M [] = row0) as -> by now rewrite EM.
  apply bind_ok in H. destruct H as (sums & Hsums & _).
  apply mapM_ok_in in Hsums. destruct Hsums as [Hall _].
  intros row Hr.
  destruct (Nat.le_gt_cases (length row0) (length row)) as [|Hlt]; [assumption|].
  exfalso.
  destruct (Hall (Z.of_nat (length row))) as (x & Hx).
  { apply in_map. apply in_seq. lia. }
  apply (proj1 (column_sum_ok_iff M (Z.of_nat (length row)) ltac:(lia) r0))
    with (row := row) in Hr; [lia|eauto].
Qed.

(** X1.  [globalAverageChroma] returns a vector exactly when the matrix is
    non-empty and no row is narrower than the first one, and the vector then
    has one entry per bin of the first row.  On every other matrix (empty,
    or with a row narrower than the first) the call reads outside a vector:
    it never throws. *)
Theorem globalAverageChroma_defined (M : matrix Real) :
  let numbins := length (nth 0%nat M []) in
  let fits := M <> [] /\ forall row, In row M -> (numbins <= length row)%nat in
  (fits -> exists g, globalAverageChroma M = Ok g /\ length g = numbins) /\
  (~ fits -> globalAverageChroma M = Undef).
Proof.
  intros numbins fits. split.
  - intros [Hne Hrows]. now apply globalAverageChroma_fits.
  - intros Hno. destruct (globalAverageChroma M) as [g|e|] eqn:E.
    + exfalso. apply Hno. now apply globalAverageChroma_ok_fits with g.
    + now apply globalAverageChroma_no_exc in E.
    + reflexivity.
Qed.

Lemma argmax_from_range (l : frame Real) :
  forall best bi i,
    argmax_from best bi i l = bi \/
    i <= argmax_from best bi i l < i + Z.of_nat (length l).
Proof.
  induction l as [|x l IH]; intros best bi i; cbn [argmax_from]; [now left|].
  cbn [length]. destruct (rltb best x).
  - destruct (IH x i (i + 1)) as [->|H]; right; lia.
  - destruct (IH best bi (i + 1)) as [->|H]; [now left|right; lia].
Qed.

Lemma argmax_range (l : frame Real) (k : Z) :
  argmax l = Ok k -> 0 <= k < Z.of_nat (length l).
Proof.
  destruct l as [|x l]; [discriminate|]. cbn [argmax length]. intros [= <-].
  destruct (argmax_from_range l x 0 1) as [->|H]; lia.
Qed.

(** The values at the shifts [0..nshifts] of vector [b] against a vector
    [a] of the same size. *)
Lemma shift_values_ok (a b : frame Real) (nshifts : Z) :
  length a = length b ->
  0 <= nshifts <= Z.of_nat (length b) ->
  exists vs,
    mapM (fun k => chromaBcopy <- rotate_end b k ;; dotProduct a chromaBcopy)
         (shifts nshifts) = Ok vs /\
    Z.of_nat (length vs) = nshifts + 1.
Proof.
  intros Hab Hn.
  destruct (mapM_all_ok
              (fun k => chromaBcopy <- rotate_end b k ;;
                        dotProduct a chromaBcopy) (shifts nshifts))
    as (vs & Hvs).
  { intros k Hk. apply In_shifts in Hk.
    destruct (proj2 (rotate_end_ok_iff b k) ltac:(lia)) as (v' & Hv').
    rewrite Hv'. cbn [bind].
    rewrite dotProduct_ok; [eauto|].
    apply length_rotate_end in Hv'. congruence. }
  exists vs. split; [exact Hvs|].
  rewrite (mapM_length _ _ _ Hvs). unfold shifts.
  rewrite length_map, length_seq. lia.
Qed.

Lemma shift_values_undef (a b : frame Real) (nshifts : Z) :
  Z.of_nat (length b) < nshifts ->
  mapM (fun k => chromaBcopy <- rotate_end b k ;; dotProduct a chromaBcopy)
       (shifts nshifts) = Undef.
Proof.
  intros Hn.
  destruct (mapM _ (shifts nshifts)) as [vs|e|] eqn:E; [| |reflexivity].
  - apply mapM_ok_in in E. destruct E as [Hall _].
    destruct (Hall nshifts) as (x & Hx); [apply In_shifts; lia|].
    rewrite rotate_end_undef in Hx by lia. discriminate.
  - now apply shift_values_no_exc in E.
Qed.

(** X2.  For [nshifts >= 0] and two inputs whose global chroma vectors
    exist, [optimalTranspositionIndex] returns an index between [0] and
    [nshifts] when the first frames of the two inputs have the same number
    of bins and [nshifts] does not exceed that number, and runs
    [std::rotate] out of the vector when [nshifts] exceeds the number of
    bins of the reference. *)
Theorem optimalTranspositionIndex_bounds (chromaA chromaB : matrix Real)
    (ga gb : frame Real) (nshifts : Z) :
  0 <= nshifts ->
  globalAverageChroma chromaA = Ok ga ->
  globalAverageChroma chromaB = Ok gb ->
  (length (nth 0%nat chromaA []) = length (nth 0%nat chromaB []) ->
   nshifts <= Z.of_nat (length (nth 0%nat chromaB [])) ->
   exists k, optimalTranspositionIndex chromaA chromaB nshifts = Ok k /\
             0 <= k <= nshifts) /\
  (Z.of_nat (length (nth 0%nat chromaB [])) < nshifts ->
   optimalTranspositionIndex chromaA chromaB nshifts = Undef).
Proof.
  intros Hn HA HB.
  assert (forall M g, globalAverageChroma M = Ok g ->
                      length g = length (nth 0%nat M [])) as Hwidth.
  { intros M g Hg.
    destruct (globalAverageChroma_ok_fits M g Hg) as [Hne Hrows].
    destruct (globalAverageChroma_fits M Hne Hrows) as (g' & Hg' & Hl).
    congruence. }
  pose proof (Hwidth _ _ HA) as HlA. pose proof (Hwidth _ _ HB) as HlB.
  unfold optimalTranspositionIndex. rewrite HA, HB. cbn [bind].
  rewrite <- HlA, <- HlB. split.
  - intros Hsame Hfit.
    destruct (shift_values_ok ga gb nshifts Hsame ltac:(lia)) as (vs & -> & Hl).
    cbn [bind]. destruct (argmax vs) as [k|e|] eqn:Ek.
    + exists k. split; [reflexivity|]. apply argmax_range in Ek. lia.
    + destruct vs; [simpl in Hl; lia|discriminate].
    + destruct vs; discriminate.
  - intros Hfit. now rewrite shift_values_undef.
Qed.

End TranspositionBounds.

Lemma optimalTranspositionIndex_bounds_witness :
  let A := qmatrix [[1; 0; 0]; [0; 1; 0]] in
  let B := qmatrix [[0; 1; 0]; [0; 0; 1]] in
  (exists k, optimalTranspositionIndex A B 2 = Ok k /\ 0 <= k <= 2) /\
  optimalTranspositionIndex A B 4 = Undef.
Proof.
  intros A B. split.
  - apply (optimalTranspositionIndex_bounds A B
             (qframe [1; 1; 0]) (qframe [0; 1; 1]) 2);
      [lia | reflexivity | reflexivity | reflexivity | simpl; lia].
  - apply (optimalTranspositionIndex_bounds A B
             (qframe [1; 1; 0]) (qframe [0; 1; 1]) 4);
      [lia | reflexivity | reflexivity | simpl; lia].
Defined.

(** ** toTimeEmbedding *)

Section EmbeddingShape.

Context {Real : Type} {RA : RealArith Real}.

Lemma length_gather (inputArray : matrix Real) (w : nat) (tau : Z) :
  0 <= tau ->
  Forall (fun row => length row = w) inputArray ->
  forall n start,
    0 <= start ->
    start + (Z.of_nat n - 1) * tau < Z.of_nat (length inputArray) ->
    length (gather inputArray tau start n) = (n * w)%nat.
Proof.
  intros Htau Hrect. induction n as [|n IH]; intros start Hs Hin; [reflexivity|].
  cbn [gather]. rewrite length_app.
  assert (length (row_at inputArray start) = w) as ->.
  { unfold row_at. rewrite Forall_forall in Hrect. apply Hrect.
    apply nth_In. nia. }
  destruct n as [|n']; [reflexivity|].
  rewrite IH; [simpl; lia|lia|]. nia.
Qed.

(** X3.  The embedding of a matrix whose frames all have [w] bins, with
    [m >= 2] and [tau >= 1], is rectangular: every frame of the result,
    stacked or left at zero, has [m * w] entries. *)
Theorem toTimeEmbedding_rectangular (inputArray te : matrix Real) (w : nat)
    (m tau : Z) :
  2 <= m -> 1 <= tau -> inputArray <> [] ->
  Forall (fun row => length row = w) inputArray ->
  toTimeEmbedding inputArray m tau = Ok te ->
  Forall (fun row => Z.of_nat (length row) = m * Z.of_nat w) te.
Proof.
  intros Hm Htau Hne Hrect Hrun.
  destruct (toTimeEmbedding_ok_rows inputArray te m tau Hm Htau Hrun)
    as (Hl & Hrows & Hzero).
  apply Forall_forall. intros row Hin.
  destruct (In_nth te row [] Hin) as (n & Hn & <-).
  replace n with (Z.to_nat (Z.of_nat n)) by lia.
  destruct (Z.eq_dec (Z.of_nat n mod tau) 0) as [Hmod|Hmod].
  - rewrite Hrows by (auto; lia). rewrite <- gather_stacked.
    rewrite (length_gather inputArray w tau); try lia; try assumption; nia.
  - rewrite Hzero by (auto; lia). rewrite repeat_length.
    unfold width0.
    assert (length (nth 0%nat inputArray []) = w) as ->.
    { rewrite Forall_forall in Hrect. apply Hrect. apply nth_In.
      destruct inputArray; [congruence|simpl; lia]. }
    nia.
Qed.

(** Two inputs of the same length, equal below index [bound], go through
    the inner loop in the same way as long as it reads below [bound]. *)
Lemma embed_row_agree (A B : matrix Real) (tau i bound : Z) :
  1 <= tau ->
  (forall k, 0 <= k < bound -> vec_get A k = vec_get B k) ->
  forall (n fuel : nat) (startTime : Z) (tempRow : frame Real) (te : matrix Real),
    startTime + (Z.of_nat n - 1) * tau < bound ->
    embed_row fuel A tau i (startTime + Z.of_nat n * tau) startTime tempRow te =
    embed_row fuel B tau i (startTime + Z.of_nat n * tau) startTime tempRow te.
Proof.
  intros Htau Hsame n.
  induction n as [|n IH]; intros fuel startTime tempRow te Hread.
  - destruct fuel; cbn [embed_row];
      rewrite Z.mul_0_l, Z.add_0_r, Z.ltb_irrefl; reflexivity.
  - destruct fuel as [|fuel]; cbn [embed_row];
      (assert ((startTime <? startTime + Z.of_nat (S n) * tau) = true) as ->
          by (apply Z.ltb_lt; nia)); [reflexivity|].
    assert (vec_get A startTime = vec_get B startTime) as ->.
    { destruct (Z_lt_le_dec startTime 0) as [Hneg|Hpos].
      - unfold vec_get.
        assert ((startTime <? 0) = true) as -> by now apply Z.ltb_lt.
        reflexivity.
      - apply Hsame. nia. }
    destruct (vec_get B startTime) as [src| |]; cbn [bind]; try reflexivity.
    destruct (vec_set te i _) as [te1| |]; cbn [bind]; try reflexivity.
    destruct (to_int (startTime + tau)) as [st| |] eqn:Est; cbn [bind];
      try reflexivity.
    apply to_int_inv in Est. destruct Est as [-> _].
    replace (startTime + Z.of_nat (S n) * tau)
      with ((startTime + tau) + Z.of_nat n * tau) by lia.
    apply IH. nia.
Qed.

Lemma embed_rows_agree (A B : matrix Real) (m tau frameSize bound : Z) :
  1 <= tau -> 1 <= m ->
  (forall k, 0 <= k < bound -> vec_get A k = vec_get B k) ->
  frameSize + (m - 1) * tau <= bound ->
  forall (fuel : nat) (i : Z) (tempRow : frame Real) (te : matrix Real),
    embed_rows fuel A tau (m * tau) frameSize i tempRow te =
    embed_rows fuel B tau (m * tau) frameSize i tempRow te.
Proof.
  intros Htau Hm Hsame Hbound fuel.
  induction fuel as [|fuel IH]; intros i tempRow te; cbn [embed_rows];
    destruct (i <? frameSize) eqn:E; try reflexivity.
  apply Z.ltb_lt in E.
  destruct (to_int (i + m * tau)) as [stopIdx| |] eqn:Es; cbn [bind];
    try reflexivity.
  apply to_int_inv in Es. destruct Es as [-> _].
  replace (i + m * tau) with (i + Z.of_nat (Z.to_nat m) * tau) by lia.
  rewrite (embed_row_agree A B tau i bound Htau Hsame) by nia.
  destruct (embed_row _ B _ _ _ _ _ _) as [[r te1]| |]; cbn [bind];
    try reflexivity.
  destruct (to_int (i + tau)) as [i'| |]; cbn [bind]; try reflexivity.
  apply IH.
Qed.

Lemma stacked_prefix (M T : matrix Real) (m tau i : Z) :
  1 <= tau -> 0 <= i ->
  i + (m - 1) * tau < Z.of_nat (length M) ->
  stacked (M ++ T) m tau i = stacked M m tau i.
Proof.
  intros Htau Hi Hin. unfold stacked. f_equal.
  apply map_ext_in. intros k Hk. apply in_seq in Hk.
  unfold row_at. apply app_nth1. nia.
Qed.

(** X4.  [toTimeEmbedding] with [m >= 2] and [tau >= 1] never looks at the
    last [tau] frames of its input: two inputs that differ in their last
    [tau] frames only have the same embedding (or fail alike). *)
Theorem toTimeEmbedding_ignores_tail (M T T' : matrix Real) (m tau : Z) :
  2 <= m -> 1 <= tau -> M <> [] ->
  Z.of_nat (length T) = tau -> length T' = length T ->
  toTimeEmbedding (M ++ T) m tau = toTimeEmbedding (M ++ T') m tau.
Proof.
  intros Hm Htau Hne HT HT'.
  assert (length (M ++ T') = length (M ++ T)) as Hlen
      by (rewrite !length_app; lia).
  assert (forall k, 0 <= k < Z.of_nat (length M) ->
                    vec_get (M ++ T) k = vec_get (M ++ T') k) as Hsame.
  { intros k Hk.
    rewrite (vec_get_ok (M ++ T) k []) by (rewrite length_app; lia).
    rewrite (vec_get_ok (M ++ T') k []) by (rewrite length_app; lia).
    now rewrite !app_nth1 by lia. }
  unfold toTimeEmbedding. rewrite Hlen.
  assert ((m =? 1) = false) as -> by (apply Z.eqb_neq; lia).
  destruct (to_int (m * tau)) as [increment| |] eqn:Einc; cbn [bind];
    try reflexivity.
  apply to_int_inv in Einc. destruct Einc as [-> _].
  destruct (to_int _) as [frameSize| |] eqn:Efs; cbn [bind]; try reflexivity.
  apply to_int_inv in Efs. destruct Efs as [-> _].
  rewrite <- (Hsame 0) by (destruct M; [congruence|simpl; lia]).
  destruct (vec_get (M ++ T) 0) as [row0| |]; cbn [bind]; try reflexivity.
  destruct (to_int _) as [yDim| |]; cbn [bind]; try reflexivity.
  destruct (new_vector yDim r0) as [zeroRow| |]; cbn [bind]; try reflexivity.
  destruct (new_vector _ zeroRow) as [te0| |]; cbn [bind]; try reflexivity.
  apply (embed_rows_agree (M ++ T) (M ++ T') m tau _ (Z.of_nat (length M)));
    try assumption; try lia.
  rewrite length_app. lia.
Qed.

Lemma embed_rows_stuck (inputArray : matrix Real) (frameSize : Z) :
  0 < frameSize ->
  forall fuel tempRow te,
    embed_rows fuel inputArray 0 0 frameSize 0 tempRow te = Undef.
Proof.
  intros Hfs. assert ((0 <? frameSize) = true) as E by now apply Z.ltb_lt.
  induction fuel as [|fuel IH]; intros tempRow te; cbn [embed_rows]; rewrite E;
    [reflexivity|].
  change (to_int (0 + 0)) with (@Ok Z 0). cbn [bind].
  assert (forall f, embed_row f inputArray 0 0 0 0 tempRow te
                    = Ok (tempRow, te)) as ->.
  { intros [|f]; reflexivity. }
  cbn [bind]. apply IH.
Qed.

(** X5.  With [tau = 0] and [m] other than 1, [toTimeEmbedding] on a
    non-empty input does not come back: the outer loop never advances, so
    no amount of fuel lets it finish. *)
Theorem toTimeEmbedding_tau_zero (inputArray : matrix Real) (m : Z) :
  inputArray <> [] -> 0 <= m -> m <> 1 ->
  toTimeEmbedding inputArray m 0 = Undef /\
  forall fuel tempRow te,
    embed_rows fuel inputArray 0 (m * 0)
               (Z.of_nat (length inputArray) - m * 0) 0 tempRow te = Undef.
Proof.
  intros Hne Hm Hm1.
  assert (0 < Z.of_nat (length inputArray)) as Hpos
      by (destruct inputArray; [congruence|simpl; lia]).
  rewrite Z.mul_0_r, Z.sub_0_r. split.
  - unfold toTimeEmbedding.
    assert ((m =? 1) = false) as -> by now apply Z.eqb_neq.
    rewrite Z.mul_0_r. change (to_int 0) with (@Ok Z 0). cbn [bind].
    rewrite Z.sub_0_r.
    destruct (to_int (Z.of_nat (length inputArray))) as [frameSize|e|] eqn:Efs;
      cbn [bind];
      [|now apply to_int_no_exc in Efs|reflexivity].
    apply to_int_inv in Efs. destruct Efs as [-> _].
    destruct (vec_get inputArray 0) as [row0|e|] eqn:E0; cbn [bind];
      [|now apply vec_get_no_exc in E0|reflexivity].
    destruct (to_int _) as [yDim|e|] eqn:Ey; cbn [bind];
      [|now apply to_int_no_exc in Ey|reflexivity].
    apply to_int_inv in Ey. destruct Ey as [-> _].
    rewrite new_vector_ok by nia. cbn [bind].
    rewrite new_vector_ok by lia. cbn [bind].
    now apply embed_rows_stuck.
  - intros fuel tempRow te. now apply embed_rows_stuck.
Qed.

End EmbeddingShape.

Lemma toTimeEmbedding_rectangular_witness :
  Forall (fun row => Z.of_nat (length row) = 2 * Z.of_nat 3)
         (qmatrix [[1; 2; 3; 4; 5; 6]; [4; 5; 6; 7; 8; 9]; [7; 8; 9; 10; 11; 12]]).
Proof.
  apply (toTimeEmbedding_rectangular
           (qmatrix [[1; 2; 3]; [4; 5; 6]; [7; 8; 9]; [10; 11; 12]; [13; 14; 15]])
           _ 3%nat 2 1);
    [lia | lia | discriminate | repeat constructor | reflexivity].
Defined.

Lemma toTimeEmbedding_ignores_tail_witness :
  toTimeEmbedding (qmatrix [[1]; [2]; [3]; [4]] ++ qmatrix [[5]]) 2 1 =
  toTimeEmbedding (qmatrix [[1]; [2]; [3]; [4]] ++ qmatrix [[9]]) 2 1.
Proof.
  apply (toTimeEmbedding_ignores_tail (qmatrix [[1]; [2]; [3]; [4]])
           (qmatrix [[5]]) (qmatrix [[9]]) 2 1);
    [lia | lia | discriminate | reflexivity | reflexivity].
Defined.

Lemma toTimeEmbedding_tau_zero_witness :
  toTimeEmbedding (qmatrix [[1]; [2]; [3]]) 2 0 = Undef.
Proof.
  apply (toTimeEmbedding_tau_zero (qmatrix [[1]; [2]; [3]]) 2);
    [discriminate | lia | lia].
Defined.

(** ** chromaBinarySimMatrix *)

Section BinarySimilarity.

Context {Real : Type} {RA : RealArith Real}.

Lemma frame_similarity_ok (a b : frame Real) (nshifts : Z) (mc mm : Real) :
  length a = length b ->
  0 <= nshifts <= Z.of_nat (length b) ->
  exists x, frame_similarity a b nshifts mc mm = Ok x.
Proof.
  intros Hab Hn. unfold frame_similarity.
  destruct (shift_values_ok a b nshifts Hab Hn) as (vs & -> & Hl). cbn [bind].
  destruct vs as [|v vs]; [simpl in Hl; lia|]. cbn [argmax bind]. eauto.
Qed.

Lemma frame_similarity_undef (a b : frame Real) (nshifts : Z) (mc mm : Real) :
  Z.of_nat (length b) < nshifts ->
  frame_similarity a b nshifts mc mm = Undef.
Proof.
  intros Hn. unfold frame_similarity. now rewrite shift_values_undef.
Qed.

Lemma frame_similarity_no_exc (a b : frame Real) (nshifts : Z) (mc mm : Real)
    (e : exn) :
  0 <= nshifts -> frame_similarity a b nshifts mc mm <> Exc e.
Proof.
  intros Hn H. unfold frame_similarity in H.
  apply bind_exc in H. destruct H as [H|(vs & Hvs & H)].
  { now apply shift_values_no_exc in H. }
  apply bind_exc in H. destruct H as [H|(k & _ & H)]; [|discriminate].
  apply mapM_length in Hvs. unfold shifts in Hvs.
  rewrite length_map, length_seq in Hvs.
  destruct vs; [simpl in Hvs; lia|discriminate].
Qed.

Lemma frame_similarity_value (a b : frame Real) (nshifts : Z) (mc mm x : Real) :
  frame_similarity a b nshifts mc mm = Ok x ->
  (x = mc \/ x = mm) /\ (nshifts <= 1 -> x = mc).
Proof.
  unfold frame_similarity. intros H.
  apply bind_ok in H. destruct H as (vs & Hvs & H).
  apply bind_ok in H. destruct H as (k & Hk & H).
  inversion H; subst x; clear H. split.
  - destruct ((k =? 0) || (k =? 1)); auto.
  - intros Hn. apply argmax_range in Hk.
    apply mapM_length in Hvs. unfold shifts in Hvs.
    rewrite length_map, length_seq in Hvs.
    assert (k = 0 \/ k = 1) as [-> | ->] by lia; reflexivity.
Qed.

(** The matrix returned by [chromaBinarySimMatrix]: one row per frame of
    [chromaA], one column per frame of [chromaB], every entry one of the two
    coefficients, and the match coefficient everywhere when [nshifts <= 1]. *)
Lemma chromaBinarySimMatrix_entries (chromaA chromaB simMatrix : matrix Real)
    (nshifts : Z) (mc mm : Real) :
  chromaBinarySimMatrix chromaA chromaB nshifts mc mm = Ok simMatrix ->
  length simMatrix = length chromaA /\
  forall row, In row simMatrix ->
    length row = length chromaB /\
    forall x, In x row -> (x = mc \/ x = mm) /\ (nshifts <= 1 -> x = mc).
Proof.
  unfold chromaBinarySimMatrix. intros H. split.
  - now apply mapM_length in H.
  - intros row Hrow. apply mapM_ok_in in H. destruct H as [_ Hback].
    destruct (Hback row Hrow) as (a & _ & Ha). split.
    + now apply mapM_length in Ha.
    + intros x Hx. apply mapM_ok_in in Ha. destruct Ha as [_ Hback'].
      destruct (Hback' x Hx) as (b & _ & Hb).
      now apply frame_similarity_value in Hb.
Qed.

Lemma chromaBinarySimMatrix_no_exc (chromaA chromaB : matrix Real) (nshifts : Z)
    (mc mm : Real) (e : exn) :
  0 <= nshifts -> chromaBinarySimMatrix chromaA chromaB nshifts mc mm <> Exc e.
Proof.
  intros Hn H. unfold chromaBinarySimMatrix in H.
  apply mapM_exc in H. destruct H as (a & _ & H).
  apply mapM_exc in H. destruct H as (b & _ & H).
  now apply frame_similarity_no_exc in H.
Qed.

(** X6.  For [nshifts >= 0], [chromaBinarySimMatrix] returns when all the
    frames of [chromaA] and [chromaB] have the same number [w] of bins and
    [nshifts] is at most [w]: the result has one row per frame of [chromaA]
    and one column per frame of [chromaB], and every entry is [matchCoef] or
    [mismatchCoef].  When [chromaA] is not empty and some frame of [chromaB]
    has fewer than [nshifts] bins, the rotation runs out of that frame and
    nothing is returned, not even an exception. *)
Theorem chromaBinarySimMatrix_defined (chromaA chromaB : matrix Real)
    (nshifts : Z) (mc mm : Real) :
  0 <= nshifts ->
  (forall w : nat,
   Forall (fun a => length a = w) chromaA ->
   Forall (fun b => length b = w) chromaB ->
   nshifts <= Z.of_nat w ->
   exists simMatrix,
     chromaBinarySimMatrix chromaA chromaB nshifts mc mm = Ok simMatrix /\
     length simMatrix = length chromaA /\
     forall row, In row simMatrix ->
       length row = length chromaB /\
       forall x, In x row -> x = mc \/ x = mm) /\
  (chromaA <> [] ->
   (exists b, In b chromaB /\ Z.of_nat (length b) < nshifts) ->
   chromaBinarySimMatrix chromaA chromaB nshifts mc mm = Undef).
Proof.
  intros Hn. split.
  - intros w HwA HwB Hwide.
    rewrite Forall_forall in HwA, HwB.
    destruct (mapM_all_ok
                (fun a => mapM (fun b => frame_similarity a b nshifts mc mm)
                               chromaB) chromaA) as (S & HS).
    { intros a Ha. apply mapM_all_ok. intros b Hb.
      specialize (HwA a Ha). specialize (HwB b Hb).
      apply frame_similarity_ok; [congruence|lia]. }
    exists S. split; [exact HS|].
    destruct (chromaBinarySimMatrix_entries _ _ _ _ _ _ HS) as [Hl Hrows].
    split; [exact Hl|]. intros row Hrow.
    destruct (Hrows row Hrow) as [Hlr Hx]. split; [exact Hlr|].
    intros x Hin. now apply Hx.
  - intros HA (b & Hb & Hshort).
    destruct (chromaBinarySimMatrix chromaA chromaB nshifts mc mm)
      as [S|e|] eqn:E; [| |reflexivity].
    + exfalso. unfold chromaBinarySimMatrix in E.
      apply mapM_ok_in in E. destruct E as [Hall _].
      destruct chromaA as [|a A]; [congruence|].
      destruct (Hall a (or_introl eq_refl)) as (row & Hrow).
      apply mapM_ok_in in Hrow. destruct Hrow as [Hall' _].
      destruct (Hall' b Hb) as (x & Hx).
      rewrite frame_similarity_undef in Hx by assumption. discriminate.
    + now apply chromaBinarySimMatrix_no_exc in E.
Qed.

(** X7.  With [nshifts] 0 or 1 the transposition index of every frame pair
    is 0 or 1, so every entry of the matrix that [chromaBinarySimMatrix]
    returns is the match coefficient, whatever the frames hold. *)
Theorem chromaBinarySimMatrix_low_shifts (chromaA chromaB simMatrix : matrix Real)
    (nshifts : Z) (mc mm : Real) :
  nshifts <= 1 ->
  chromaBinarySimMatrix chromaA chromaB nshifts mc mm = Ok simMatrix ->
  simMatrix = repeat (repeat mc (length chromaB)) (length chromaA).
Proof.
  intros Hn H.
  destruct (chromaBinarySimMatrix_entries _ _ _ _ _ _ H) as [Hl Hrows].
  rewrite <- Hl. apply Forall_eq_repeat. apply Forall_forall. intros row Hrow.
  destruct (Hrows row Hrow) as [<- Hx].
  symmetry. apply Forall_eq_repeat. apply Forall_forall. intros x Hin.
  symmetry. now apply Hx.
Qed.

End BinarySimilarity.

Lemma chromaBinarySimMatrix_defined_witness :
  let A := qmatrix [[1; 0; 0]; [0; 1; 0]] in
  let B := qmatrix [[0; 1; 0]; [0; 0; 1]; [1; 1; 1]] in
  (exists simMatrix,
     chromaBinarySimMatrix A B 2 1%Q 0%Q = Ok simMatrix /\
     length simMatrix = length A /\
     forall row, In row simMatrix ->
       length row = length B /\
       forall x, In x row -> x = 1%Q \/ x = 0%Q) /\
  chromaBinarySimMatrix A B 4 1%Q 0%Q = Undef.
Proof.
  intros A B. split.
  - apply (chromaBinarySimMatrix_defined A B 2 1%Q 0%Q) with (w := 3%nat);
      [lia | repeat constructor | repeat constructor | simpl; lia].
  - apply (chromaBinarySimMatrix_defined A B 4 1%Q 0%Q);
      [lia | discriminate |].
    exists (qframe [0; 1; 0]). split; [now left|simpl; lia].
Defined.

Lemma chromaBinarySimMatrix_low_shifts_witness :
  qmatrix [[1; 1]; [1; 1]] =
  repeat (repeat 1%Q (length (qmatrix [[0; 5]; [7; 0]])))
         (length (qmatrix [[1; 0]; [0; 1]])).
Proof.
  apply (chromaBinarySimMatrix_low_shifts
           (qmatrix [[1; 0]; [0; 1]]) (qmatrix [[0; 5]; [7; 0]]) _ 1 1%Q 0%Q);
    [lia | reflexivity].
Defined.

(** ** The batch algorithm, further *)

Section BatchFurther.

Context {Real : Type} {RA : RealArith Real} {ML : MathLib Real}.

Lemma compute_csm_otiBinary_ok (cfg : Standard.Config Real) (q r csm : matrix Real) :
  Standard.otiBinary cfg = true ->
  Standard.compute_csm cfg q r = Ok csm ->
  q <> [] /\ r <> [] /\
  chromaBinarySimMatrix q r (Standard.noti cfg)
                        Standard.mathcCoef Standard.mismatchCoef = Ok csm.
Proof.
  intros Hob H. unfold Standard.compute_csm in H.
  destruct q as [|a q']; [discriminate|]. destruct r as [|b r']; [discriminate|].
  rewrite Hob in H. repeat split; try discriminate.
  destruct (Standard.toBlocked cfg); [|exact H].
  apply bind_ok in H. destruct H as (tA & _ & H).
  apply bind_ok in H. destruct H as (tB & _ & H). exact H.
Qed.

(** X8.  In OTI-binary mode the matrix that [compute] returns is indexed by
    the raw frames, whatever [embedDimension], [tau] and [toBlocked] are: it
    has one row per query frame and one column per reference frame, and every
    entry is 1 or 0. *)
Theorem compute_otiBinary_shape (cfg : Standard.Config Real)
    (p p' : Standard.Ports Real) :
  Standard.otiBinary cfg = true ->
  Standard.compute cfg p = (Standard.Returned, p') ->
  length (Standard._csm p') = length (Standard._queryFeature p) /\
  (0 < length (Standard._queryFeature p))%nat /\
  forall row, In row (Standard._csm p') ->
    length row = length (Standard._referenceFeature p) /\
    (0 < length row)%nat /\
    forall x, In x row -> x = r1 \/ x = r0.
Proof.
  intros Hob Hrun. rewrite compute_functional in Hrun.
  destruct (Standard.compute_csm cfg _ _) as [csm| |] eqn:Ec;
    cbn [Standard.finish] in Hrun; try discriminate.
  inversion Hrun; subst p'; clear Hrun. cbn [Standard._csm Standard.set_csm].
  destruct (compute_csm_otiBinary_ok cfg _ _ _ Hob Ec) as (Hq & Hr & Hsim).
  destruct (chromaBinarySimMatrix_entries _ _ _ _ _ _ Hsim) as [Hl Hrows].
  split; [exact Hl|]. split.
  - destruct (Standard._queryFeature p); [congruence|simpl; lia].
  - intros row Hrow. destruct (Hrows row Hrow) as [Hlr Hx].
    split; [exact Hlr|]. split.
    + rewrite Hlr. destruct (Standard._referenceFeature p); [congruence|simpl; lia].
    + intros x Hin. now apply Hx.
Qed.

(** X9.  In OTI-binary mode with [noti >= 0] and non-empty inputs, the only
    exception that [compute] can throw is the allocation error of
    [toTimeEmbedding], and it needs [toBlocked] and an [embedDimension]
    other than 1: without [toBlocked], [compute] throws nothing. *)
Theorem compute_otiBinary_exceptions (cfg : Standard.Config Real)
    (p : Standard.Ports Real) (e : exn) :
  Standard.otiBinary cfg = true ->
  0 <= Standard.noti cfg ->
  Standard._queryFeature p <> [] ->
  Standard._referenceFeature p <> [] ->
  fst (Standard.compute cfg p) = Standard.Thrown e ->
  e = AllocFailure /\ Standard.embedDimension cfg <> 1 /\
  Standard.toBlocked cfg = true.
Proof.
  intros Hob Hn Hq Hr Hthrow. rewrite compute_functional in Hthrow.
  destruct (Standard.compute_csm cfg _ _) as [csm|e'|] eqn:Ec;
    cbn [Standard.finish fst] in Hthrow; try discriminate.
  inversion Hthrow; subst e'; clear Hthrow.
  assert (forall M, toTimeEmbedding M (Standard.embedDimension cfg)
                      (Standard.tau cfg) = Exc e ->
                    e = AllocFailure /\ Standard.embedDimension cfg <> 1) as Hemb.
  { intros M H. split; [now apply toTimeEmbedding_exc in H|].
    intros E1. rewrite E1, toTimeEmbedding_identity in H. discriminate. }
  unfold Standard.compute_csm in Ec.
  destruct (Standard._queryFeature p) as [|a q']; [congruence|].
  destruct (Standard._referenceFeature p) as [|b r']; [congruence|].
  rewrite Hob in Ec.
  destruct (Standard.toBlocked cfg) eqn:Htb.
  - apply bind_exc in Ec. destruct Ec as [H|(tA & _ & Ec)].
    { destruct (Hemb _ H). auto. }
    apply bind_exc in Ec. destruct Ec as [H|(tB & _ & Ec)].
    { destruct (Hemb _ H). auto. }
    now apply chromaBinarySimMatrix_no_exc in Ec.
  - now apply chromaBinarySimMatrix_no_exc in Ec.
Qed.

Lemma In_tabulate (rows cols : nat) (f : nat -> nat -> Real) (row : frame Real) :
  In row (tabulate rows cols f) ->
  length row = cols /\
  forall x, In x row -> exists k l, (k < rows)%nat /\ (l < cols)%nat /\ x = f k l.
Proof.
  unfold tabulate. intros H. apply in_map_iff in H.
  destruct H as (k & <- & Hk). apply in_seq in Hk. split.
  - now rewrite length_map, length_seq.
  - intros x Hx. apply in_map_iff in Hx. destruct Hx as (l & <- & Hl).
    apply in_seq in Hl. exists k, l. repeat split; lia.
Qed.

(** X10.  The reference-axis mask that the distance branch multiplies with
    is a 0/1 matrix in the orientation of the distance matrix: one row per
    embedded query frame, one column per embedded reference frame, whatever
    the distances and the percentile are. *)
Theorem tSimilarityY_binary (kappa : Real) (tpDistances : matrix Real)
    (yRows yCols : nat) :
  length (tSimilarityY kappa tpDistances yRows yCols) = yCols /\
  forall row, In row (tSimilarityY kappa tpDistances yRows yCols) ->
    length row = yRows /\ forall x, In x row -> x = r0 \/ x = r1.
Proof.
  split; [apply length_tSimilarityY|].
  intros row Hrow. unfold tSimilarityY in Hrow. apply In_tabulate in Hrow.
  destruct Hrow as [Hl Hx]. split; [exact Hl|].
  intros x Hin. destruct (Hx x Hin) as (k & l & _ & _ & ->).
  unfold binarise. destruct (rltb _ r0); [now left|].
  destruct (rleb r0 _); auto.
Qed.

End BatchFurther.

Lemma compute_otiBinary_shape_witness :
  let cfg := batch_cfg 3 2 1 false true true false in
  let p := batch_ports [[1; 2]; [2; 1]; [0; 1]; [1; 1]; [3; 0]; [2; 2]]
                       [[1; 2]; [2; 1]; [3; 4]; [0; 1]; [1; 0]; [5; 5]; [1; 3]] in
  let p' := snd (Standard.compute cfg p) in
  length (Standard._csm p') = 6%nat /\
  forall row, In row (Standard._csm p') ->
    length row = 7%nat /\ forall x, In x row -> x = r1 \/ x = r0.
Proof.
  intros cfg p p'.
  destruct (compute_otiBinary_shape cfg p p') as (Hl & _ & Hrows);
    [reflexivity | reflexivity |].
  split; [exact Hl|]. intros row Hrow.
  destruct (Hrows row Hrow) as (Hlr & _ & Hx). split; assumption.
Defined.

Lemma compute_otiBinary_exceptions_witness :
  let cfg := batch_cfg 2 1 1 false true true false in
  AllocFailure = AllocFailure /\ Standard.embedDimension cfg <> 1 /\
  Standard.toBlocked cfg = true.
Proof.
  intros cfg.
  apply (compute_otiBinary_exceptions cfg
           (batch_ports [[1; 2]] [[1; 2]; [2; 1]; [3; 4]]) AllocFailure);
    [reflexivity | simpl; lia | discriminate | discriminate | reflexivity].
Defined.

(** ** The streaming algorithm, further *)

Lemma rotate_end_Permutation {A : Type} (v v' : list A) (k : Z) :
  rotate_end v k = Ok v' -> Permutation v v'.
Proof.
  unfold rotate_end.
  destruct ((0 <=? k) && (k <=? Z.of_nat (length v))); [|discriminate].
  intros [= <-].
  rewrite <- (firstn_skipn (length v - Z.to_nat k) v) at 1.
  apply Permutation_app_comm.
Qed.

Lemma rotate_end_zero {A : Type} (v : list A) : rotate_end v 0 = Ok v.
Proof.
  unfold rotate_end. cbn [Z.leb Z.compare andb].
  assert ((0 <=? Z.of_nat (length v)) = true) as -> by (apply Z.leb_le; lia).
  rewrite Nat.sub_0_r, skipn_all, firstn_all. reflexivity.
Qed.

Section StreamingFurther.

Context {Real : Type} {RA : RealArith Real} {ML : MathLib Real}.

Lemma compute_token_OK (cfg : Streaming.Config Real) (s s' : Streaming.State Real) :
  Streaming.compute_token cfg s = (Streaming.Returned Streaming.OK, s') ->
  exists reference m,
    s' = Streaming.emit_and_release (Streaming.set_reference s reference) m.
Proof.
  unfold Streaming.compute_token. intros H.
  destruct (Streaming.padded_copy cfg _ _); try discriminate.
  destruct (Streaming.rotate_reference cfg _ _) as [r'| |]; try discriminate.
  destruct (Streaming.similarity_token cfg _ r') as [m| |]; try discriminate.
  inversion H. eauto.
Qed.

(** X12.  The last, partial window is processed once.  When the stream has
    ended with fewer frames buffered than the acquire size, a call of
    [process] that returns [OK] has emitted exactly one matrix and released
    every buffered frame; every later call returns [NO_INPUT] and changes
    nothing. *)
Theorem process_drains (cfg : Streaming.Config Real) (fuel : nat)
    (s s' : Streaming.State Real) :
  Streaming.stopped s = true ->
  0 < Streaming.available s < Streaming.acquireSize s ->
  Streaming.process (S fuel) cfg s = (Streaming.Returned Streaming.OK, s') ->
  Streaming.buffered s' = [] /\
  (exists m, Streaming.csmOutput s' = Streaming.csmOutput s ++ [m]) /\
  forall fuel', Streaming.process fuel' cfg s'
                = (Streaming.Returned Streaming.NO_INPUT, s').
Proof.
  intros Hstop Hav Hrun. rewrite process_unfolds in Hrun.
  assert ((Streaming.acquireSize s <=? Streaming.available s) = false) as E1
      by (apply Z.leb_gt; lia).
  assert ((Streaming.available s =? 0) = false) as E2
      by (apply Z.eqb_neq; lia).
  rewrite E1, Hstop, E2 in Hrun. cbn [negb] in Hrun.
  apply compute_token_OK in Hrun. destruct Hrun as (reference & m & ->).
  assert (Streaming.buffered
            (Streaming.emit_and_release
               (Streaming.set_reference
                  (Streaming.set_sizes s (Streaming.available s)) reference) m)
          = []) as Hempty.
  { cbn. unfold Streaming.available. rewrite Nat2Z.id. apply skipn_all. }
  split; [exact Hempty|]. split; [cbn; eauto|].
  intros fuel'.
  set (s' := Streaming.emit_and_release _ m) in *.
  assert (Streaming.available s' = 0) as Hav'
      by (unfold Streaming.available; now rewrite Hempty).
  assert (Streaming.acquireData s' = Streaming.NO_INPUT) as Hacq.
  { unfold Streaming.acquireData. rewrite Hav'.
    assert ((Streaming.acquireSize s' <=? 0) = false) as ->; [|reflexivity].
    apply Z.leb_gt. cbn. lia. }
  assert (Streaming.stopped s' = true) as Hstop' by exact Hstop.
  destruct fuel'; cbn [Streaming.process];
    rewrite Hacq, Hstop', Hav'; reflexivity.
Qed.

(** X13.  [process] never changes which frames the stored reference holds:
    after a call that returns or throws, the stored reference is a rotation
    of what it was, hence a permutation of the same frames, and it is
    untouched when [oti] is off. *)
Theorem process_reference_rotation (cfg : Streaming.Config Real) (fuel : nat)
    (s s' : Streaming.State Real) (c : Streaming.completion) :
  Streaming.process fuel cfg s = (c, s') ->
  c <> Streaming.UndefinedBehaviour ->
  (exists k, rotate_end (Streaming._referenceFeature s) k
             = Ok (Streaming._referenceFeature s')) /\
  Permutation (Streaming._referenceFeature s) (Streaming._referenceFeature s') /\
  (Streaming.oti cfg = false ->
   Streaming._referenceFeature s' = Streaming._referenceFeature s).
Proof.
  intros Hrun Hc.
  assert (forall t t',
             Streaming.compute_token cfg t = (c, t') ->
             (exists k, rotate_end (Streaming._referenceFeature t) k
                        = Ok (Streaming._referenceFeature t')) /\
             (Streaming.oti cfg = false ->
              Streaming._referenceFeature t' = Streaming._referenceFeature t))
    as Htoken.
  { intros t t' H. unfold Streaming.compute_token in H.
    assert ((exists k, rotate_end (Streaming._referenceFeature t) k
                       = Ok (Streaming._referenceFeature t)) /\
            (Streaming.oti cfg = false ->
             Streaming._referenceFeature t = Streaming._referenceFeature t))
      as Hsame by (split; [exists 0; apply rotate_end_zero|reflexivity]).
    destruct (Streaming.padded_copy cfg _ _) as [copy| |];
      [|inversion H; subst; exact Hsame|inversion H; subst; exact Hsame].
    destruct (Streaming.rotate_reference cfg copy _) as [r'| |] eqn:Er;
      [|inversion H; subst; exact Hsame|inversion H; subst; exact Hsame].
    assert ((exists k, rotate_end (Streaming._referenceFeature t) k = Ok r') /\
            (Streaming.oti cfg = false -> r' = Streaming._referenceFeature t))
      as Hrot.
    { unfold Streaming.rotate_reference in Er. destruct (Streaming.oti cfg).
      - apply bind_ok in Er. destruct Er as (k & _ & Er).
        split; [eauto|discriminate].
      - inversion Er; subst. split; [exists 0; apply rotate_end_zero|reflexivity]. }
    destruct (Streaming.similarity_token cfg copy r');
      inversion H; subst; exact Hrot. }
  assert ((exists k, rotate_end (Streaming._referenceFeature s) k
                     = Ok (Streaming._referenceFeature s')) /\
          (Streaming.oti cfg = false ->
           Streaming._referenceFeature s' = Streaming._referenceFeature s))
    as [Hk Hoff].
  { destruct fuel as [|fuel].
    - cbn [Streaming.process] in Hrun.
      destruct (Streaming.acquireData s); [now apply Htoken|].
      assert (s' = s) as ->.
      { destruct (negb (Streaming.stopped s)); [now inversion Hrun|].
        destruct (Streaming.available s =? 0); now inversion Hrun. }
      split; [exists 0; apply rotate_end_zero|reflexivity].
    - rewrite process_unfolds in Hrun.
      destruct (Streaming.acquireSize s <=? Streaming.available s);
        [now apply Htoken|].
      destruct (negb (Streaming.stopped s)).
      { inversion Hrun; subst.
        split; [exists 0; apply rotate_end_zero|reflexivity]. }
      destruct (Streaming.available s =? 0).
      { inversion Hrun; subst.
        split; [exists 0; apply rotate_end_zero|reflexivity]. }
      apply Htoken in Hrun. exact Hrun. }
  split; [exact Hk|]. split; [|exact Hoff].
  destruct Hk as (k & Hk). now apply rotate_end_Permutation in Hk.
Qed.

End StreamingFurther.

Lemma process_drains_witness :
  let cfg := stream_cfg 1 1 1 false true in
  let s := feed (Streaming.configure cfg (qmatrix [[1; 0]; [0; 1]]))
                (qmatrix [[1; 0]]) true in
  let s' := snd (Streaming.process 1 cfg s) in
  Streaming.buffered s' = [] /\
  (exists m, Streaming.csmOutput s' = Streaming.csmOutput s ++ [m]) /\
  forall fuel', Streaming.process fuel' cfg s'
                = (Streaming.Returned Streaming.NO_INPUT, s').
Proof.
  intros cfg s s'.
  apply (process_drains cfg 0 s s');
    [reflexivity | cbn; lia | reflexivity].
Defined.

Lemma process_reference_rotation_witness :
  (exists k, rotate_end (Streaming._referenceFeature oti_start) k
             = Ok (Streaming._referenceFeature oti_after_first)) /\
  Permutation (Streaming._referenceFeature oti_start)
              (Streaming._referenceFeature oti_after_first) /\
  (Streaming.oti oti_cfg = false ->
   Streaming._referenceFeature oti_after_first
   = Streaming._referenceFeature oti_start).
Proof.
  apply (process_reference_rotation oti_cfg 1 oti_start oti_after_first
           (Streaming.Returned Streaming.OK));
    [reflexivity | discriminate].
Defined.

(** ** The rotation of the reference and its global chroma *)

Section TimeRotation.

Context {Real : Type} {RA : RealArith Real} {ES : ExactSum Real}.

Lemma fold_left_radd_assoc (l : frame Real) :
  forall a b, fold_left radd l (radd a b) = radd a (fold_left radd l b).
Proof.
  induction l as [|y l IH]; intros a b; [reflexivity|].
  cbn [fold_left]. now rewrite radd_assoc, IH.
Qed.

Lemma fold_left_radd_from (l : frame Real) (t : Real) :
  fold_left radd l t = radd t (fold_left radd l r0).
Proof.
  rewrite <- fold_left_radd_assoc. f_equal.
  now rewrite radd_comm, radd_zero_l.
Qed.

Lemma fold_left_radd_app_comm (l1 l2 : frame Real) (t : Real) :
  fold_left radd (l1 ++ l2) t = fold_left radd (l2 ++ l1) t.
Proof.
  rewrite !fold_left_app.
  rewrite (fold_left_radd_from l2), (fold_left_radd_from l1 t).
  rewrite (fold_left_radd_from l1 (fold_left radd l2 t)),
          (fold_left_radd_from l2 t).
  rewrite !radd_assoc. f_equal. apply radd_comm.
Qed.

(** The column sum of a matrix whose rows all reach column [j]. *)
Lemma column_sum_total (rows : matrix Real) (j : Z) :
  0 <= j ->
  Forall (fun row => j < Z.of_nat (length row)) rows ->
  forall tSum,
    column_sum rows j tSum =
    Ok (fold_left radd (map (fun row => nth (Z.to_nat j) row r0) rows) tSum).
Proof.
  intros Hj Hrows. induction Hrows as [|row rows Hrow _ IH]; intros tSum;
    [reflexivity|].
  cbn [column_sum map fold_left].
  rewrite (vec_get_ok row j r0) by lia. cbn [bind]. apply IH.
Qed.

Lemma globalAverageChroma_app_comm (l1 l2 : matrix Real) (w : nat) :
  Forall (fun row => length row = w) (l1 ++ l2) ->
  globalAverageChroma (l2 ++ l1) = globalAverageChroma (l1 ++ l2).
Proof.
  intros Hrect.
  assert (Forall (fun row => length row = w) (l2 ++ l1)) as Hrect'.
  { apply Forall_app in Hrect. apply Forall_app. tauto. }
  assert (forall M : matrix Real,
             Forall (fun row => length row = w) M ->
             forall j, In j (map Z.of_nat (seq 0 w)) ->
             0 <= j /\ Forall (fun row => j < Z.of_nat (length row)) M)
    as Hcols.
  { intros M HM j Hin. apply in_map_iff in Hin. destruct Hin as (n & <- & Hn).
    apply in_seq in Hn. split; [lia|].
    eapply Forall_impl; [|exact HM]. cbn. intros row ->. lia. }
  unfold globalAverageChroma.
  destruct (l1 ++ l2) as [|a M1] eqn:E1.
  { apply app_eq_nil in E1. destruct E1 as [-> ->]. reflexivity. }
  destruct (l2 ++ l1) as [|b M2] eqn:E2.
  { apply app_eq_nil in E2. destruct E2 as [-> ->]. discriminate. }
  cbn [vec_get Z.ltb Z.compare Z.to_nat nth_error bind].
  assert (length a = w) as -> by now inversion Hrect.
  assert (length b = w) as -> by now inversion Hrect'.
  rewrite <- E1, <- E2 in *.
  assert (mapM (fun j => column_sum (l2 ++ l1) j r0) (map Z.of_nat (seq 0 w)) =
          mapM (fun j => column_sum (l1 ++ l2) j r0) (map Z.of_nat (seq 0 w)))
    as ->; [|reflexivity].
  apply mapM_ext_in. intros j Hin.
  destruct (Hcols _ Hrect j Hin) as [Hj H1].
  destruct (Hcols _ Hrect' j Hin) as [_ H2].
  rewrite !column_sum_total by assumption.
  rewrite !map_app. f_equal. apply fold_left_radd_app_comm.
Qed.

(** X14.  Over exact addition, rotating the frames of a rectangular
    reference in time, which is what [compute] and [process] do to it with
    the index they found, changes neither its global chroma vector nor any
    transposition index later computed against it. *)
Theorem optimalTranspositionIndex_time_rotation
    (chromaA chromaB rotated : matrix Real) (w : nat) (k nshifts : Z) :
  Forall (fun row => length row = w) chromaB ->
  rotate_end chromaB k = Ok rotated ->
  globalAverageChroma rotated = globalAverageChroma chromaB /\
  optimalTranspositionIndex chromaA rotated nshifts =
  optimalTranspositionIndex chromaA chromaB nshifts.
Proof.
  intros Hrect Hrot.
  assert (globalAverageChroma rotated = globalAverageChroma chromaB) as Hg.
  { unfold rotate_end in Hrot.
    destruct ((0 <=? k) && (k <=? Z.of_nat (length chromaB))); [|discriminate].
    inversion Hrot; subst rotated; clear Hrot.
    set (n := (length chromaB - Z.to_nat k)%nat).
    rewrite <- (firstn_skipn n chromaB) at 3.
    apply globalAverageChroma_app_comm with w.
    now rewrite firstn_skipn. }
  split; [exact Hg|].
  unfold optimalTranspositionIndex. now rewrite Hg.
Qed.

End TimeRotation.

#[export] Instance R_ExactSum : ExactSum R.
Proof.
  split; cbn; intros.
  - apply Rplus_0_l.
  - apply Rplus_comm.
  - apply Rplus_assoc.
Qed.

Lemma optimalTranspositionIndex_time_rotation_witness :
  let A : matrix R := [[1; 0]; [1; 0]]%R in
  let B : matrix R := [[0; 1]; [0; 2]; [0; 3]]%R in
  let rotated : matrix R := [[0; 3]; [0; 1]; [0; 2]]%R in
  globalAverageChroma rotated = globalAverageChroma B /\
  optimalTranspositionIndex A rotated 1 = optimalTranspositionIndex A B 1.
Proof.
  intros A B rotated.
  apply (optimalTranspositionIndex_time_rotation (Real:=R) A B rotated 2%nat 1 1);
    [repeat constructor | reflexivity].
Defined.

(** ** The transposition index used as a number of frames *)

Section RotationBound.

Context {Real : Type} {RA : RealArith Real} {ML : MathLib Real}.

(** X15.  In distance mode with [oti] set, [compute] rotates the reference
    by the transposition index counted in frames; when the index found is
    greater than the number of reference frames, [std::rotate] is given an
    iterator before the beginning of the reference. *)
Theorem compute_oti_rotation_bound (cfg : Standard.Config Real)
    (p : Standard.Ports Real) (otiIdx : Z) :
  Standard.otiBinary cfg = false -> Standard.oti cfg = true ->
  Standard._queryFeature p <> [] -> Standard._referenceFeature p <> [] ->
  optimalTranspositionIndex (Standard._queryFeature p)
    (Standard._referenceFeature p) (Standard.noti cfg) = Ok otiIdx ->
  Z.of_nat (length (Standard._referenceFeature p)) < otiIdx ->
  Standard.compute cfg p = (Standard.UndefinedBehaviour, p).
Proof.
  intros Hob Hoti Hq Hr Hk Hshort. rewrite compute_functional.
  rewrite compute_csm_distance by assumption.
  unfold Standard.rotate_by_oti. rewrite Hoti, Hk. cbn [bind].
  now rewrite rotate_end_undef.
Qed.

Lemma toTimeEmbedding_empty (m tau : Z) :
  m <> 1 -> toTimeEmbedding (@nil (frame Real)) m tau = Undef.
Proof.
  intros Hm. unfold toTimeEmbedding.
  assert ((m =? 1) = false) as -> by now apply Z.eqb_neq.
  unfold to_int at 1.
  destruct ((int_min <=? m * tau) && (m * tau <=? int_max)); cbn [bind];
    [|reflexivity].
  unfold to_int at 1. destruct (_ && _); reflexivity.
Qed.

(** X16.  [process] does not check the stored reference: configured with an
    empty reference and [embedDimension] other than 1, no call ever emits a
    matrix, since the embedding of the reference reads its first frame (and
    with [oti] set the global chroma does so before). *)
Theorem process_empty_reference (cfg : Streaming.Config Real) (fuel : nat)
    (s s' : Streaming.State Real) (c : Streaming.completion) :
  Streaming._referenceFeature s = [] ->
  Streaming.embedDimension cfg <> 1 ->
  Streaming.process fuel cfg s = (c, s') ->
  c <> Streaming.Returned Streaming.OK /\
  Streaming.csmOutput s' = Streaming.csmOutput s.
Proof.
  intros Hempty Hm.
  assert (forall t t', Streaming._referenceFeature t = [] ->
                       Streaming.compute_token cfg t = (c, t') ->
                       c <> Streaming.Returned Streaming.OK /\
                       Streaming.csmOutput t' = Streaming.csmOutput t)
    as Htoken.
  { intros t t' Ht H. unfold Streaming.compute_token in H. rewrite Ht in H.
    destruct (Streaming.padded_copy cfg _ _) as [copy| |];
      [|inversion H; subst; split; [discriminate|reflexivity]
       |inversion H; subst; split; [discriminate|reflexivity]].
    assert (Streaming.rotate_reference cfg copy [] = Ok [] \/
            Streaming.rotate_reference cfg copy [] = Undef) as [Er|Er].
    { unfold Streaming.rotate_reference. destruct (Streaming.oti cfg); [|now left].
      right. unfold optimalTranspositionIndex.
      destruct (globalAverageChroma copy) as [ga|e|] eqn:Eg; try reflexivity.
      now apply globalAverageChroma_no_exc in Eg. }
    - rewrite Er in H.
      assert (Streaming.similarity_token cfg copy [] = Undef \/
              exists e, Streaming.similarity_token cfg copy [] = Exc e)
        as [Es|(e & Es)].
      { unfold Streaming.similarity_token.
        destruct (toTimeEmbedding copy _ _); cbn [bind]; eauto.
        rewrite toTimeEmbedding_empty by assumption. now left. }
      + rewrite Es in H. inversion H; subst. split; [discriminate|reflexivity].
      + rewrite Es in H. inversion H; subst. split; [discriminate|reflexivity].
    - rewrite Er in H. inversion H; subst. split; [discriminate|reflexivity]. }
  intros Hrun. destruct fuel as [|fuel].
  - cbn [Streaming.process] in Hrun.
    destruct (Streaming.acquireData s); [now apply (Htoken s s')|].
    destruct (negb (Streaming.stopped s));
      [inversion Hrun; subst; split; [discriminate|reflexivity]|].
    destruct (Streaming.available s =? 0);
      inversion Hrun; subst; split; try discriminate; reflexivity.
  - rewrite process_unfolds in Hrun.
    destruct (Streaming.acquireSize s <=? Streaming.available s);
      [now apply (Htoken s s')|].
    destruct (negb (Streaming.stopped s));
      [inversion Hrun; subst; split; [discriminate|reflexivity]|].
    destruct (Streaming.available s =? 0);
      [inversion Hrun; subst; split; [discriminate|reflexivity]|].
    apply Htoken in Hrun; [exact Hrun|exact Hempty].
Qed.

End RotationBound.

Lemma compute_oti_rotation_bound_witness :
  let cfg := batch_cfg 1 1 3 true false false true in
  let p := batch_ports [[1; 0; 0; 0]] [[0; 0; 1; 0]] in
  optimalTranspositionIndex (Standard._queryFeature p)
    (Standard._referenceFeature p) 3 = Ok 2 /\
  Standard.compute cfg p = (Standard.UndefinedBehaviour, p).
Proof.
  intros cfg p. split; [reflexivity|].
  apply (compute_oti_rotation_bound cfg p 2);
    [reflexivity | reflexivity | discriminate | discriminate | reflexivity
     | simpl; lia].
Defined.

Lemma process_empty_reference_witness :
  let cfg := stream_cfg 2 1 1 false true in
  let s := feed (Streaming.configure cfg []) (qmatrix [[1; 0]; [0; 1]; [1; 1]])
                false in
  fst (Streaming.process 1 cfg s) <> Streaming.Returned Streaming.OK /\
  Streaming.csmOutput (snd (Streaming.process 1 cfg s)) = Streaming.csmOutput s.
Proof.
  intros cfg s.
  apply (process_empty_reference cfg 1 s (snd (Streaming.process 1 cfg s))
           (fst (Streaming.process 1 cfg s)));
    [reflexivity | simpl; lia | apply surjective_pairing].
Defined.
